(** * pod-zclient: a shallow embedding of the ZooKeeper configuration client

    The development follows the single source module of the repository
    (class [ZookeeperClient] and the entry point [run_zookeeper]).

    - Part I models the JavaScript values the code manipulates: strings as
      lists of UTF-16 code units, [Buffer]s as lists of bytes, the string
      methods [split], [trim], [startsWith], [replace], [slice], the
      [Buffer] codecs ("utf8", "hex") and the AES-256-CBC decipher of the
      module "node:crypto", which [decrypt_value] means to call.
    - Part II models the class itself: the process state (singleton,
      environment, console), promises with their continuations, the client
      library as a source of events, and every method of the class as a
      state transformer.
    - Part III states and proves the properties. *)

From Stdlib Require Import ZArith NArith List Bool String Ascii Lia Btauto.
From Stdlib Require Import Strings.Byte.
From stdpp Require Import gmap list.
Import ListNotations.

Local Open Scope N_scope.

(* ===================================================================== *)
(** * Part I. JavaScript values                                            *)
(* ===================================================================== *)

(** ** Bytes as eight bits (least significant first) *)

Definition bits8 : Type :=
  bool * (bool * (bool * (bool * (bool * (bool * (bool * bool)))))).

Definition xor8 (a b : bits8) : bits8 :=
  let '(a0, (a1, (a2, (a3, (a4, (a5, (a6, a7))))))) := a in
  let '(b0, (b1, (b2, (b3, (b4, (b5, (b6, b7))))))) := b in
  (xorb a0 b0, (xorb a1 b1, (xorb a2 b2, (xorb a3 b3,
  (xorb a4 b4, (xorb a5 b5, (xorb a6 b6, xorb a7 b7))))))).

(** Multiplication by [x] in GF(2^8) modulo x^8 + x^4 + x^3 + x + 1. *)
Definition xtime8 (a : bits8) : bits8 :=
  let '(a0, (a1, (a2, (a3, (a4, (a5, (a6, a7))))))) := a in
  (a7, (xorb a0 a7, (a1, (xorb a2 a7, (xorb a3 a7, (a4, (a5, a6))))))).

Definition zero8 : bits8 :=
  (false, (false, (false, (false, (false, (false, (false, false))))))).

Definition mul2_8 (a : bits8) : bits8 := xtime8 a.
Definition mul3_8 (a : bits8) : bits8 := xor8 (xtime8 a) a.
Definition mul9_8 (a : bits8) : bits8 := xor8 (xtime8 (xtime8 (xtime8 a))) a.
Definition mul11_8 (a : bits8) : bits8 :=
  xor8 (xtime8 (xtime8 (xtime8 a))) (xor8 (xtime8 a) a).
Definition mul13_8 (a : bits8) : bits8 :=
  xor8 (xtime8 (xtime8 (xtime8 a))) (xor8 (xtime8 (xtime8 a)) a).
Definition mul14_8 (a : bits8) : bits8 :=
  xor8 (xtime8 (xtime8 (xtime8 a))) (xor8 (xtime8 (xtime8 a)) (xtime8 a)).

(** General product in GF(2^8): shift and add over the bits of [b]. *)
Definition gmul8 (a b : bits8) : bits8 :=
  let '(b0, (b1, (b2, (b3, (b4, (b5, (b6, b7))))))) := b in
  let pick (c : bool) (x : bits8) := if c then x else zero8 in
  let a1 := xtime8 a in
  let a2 := xtime8 a1 in
  let a3 := xtime8 a2 in
  let a4 := xtime8 a3 in
  let a5 := xtime8 a4 in
  let a6 := xtime8 a5 in
  let a7 := xtime8 a6 in
  xor8 (pick b0 a) (xor8 (pick b1 a1) (xor8 (pick b2 a2) (xor8 (pick b3 a3)
  (xor8 (pick b4 a4) (xor8 (pick b5 a5) (xor8 (pick b6 a6) (pick b7 a7))))))).

(** The affine map of the S-box: b_i + b_(i+4) + b_(i+5) + b_(i+6) + b_(i+7)
    + c_i with c = 0x63. *)
Definition affine8 (b : bits8) : bits8 :=
  let '(b0, (b1, (b2, (b3, (b4, (b5, (b6, b7))))))) := b in
  let x5 (p q r s t : bool) := xorb p (xorb q (xorb r (xorb s t))) in
  (negb (x5 b0 b4 b5 b6 b7), (negb (x5 b1 b5 b6 b7 b0),
  (x5 b2 b6 b7 b0 b1, (x5 b3 b7 b0 b1 b2,
  (x5 b4 b0 b1 b2 b3, (negb (x5 b5 b1 b2 b3 b4),
  (negb (x5 b6 b2 b3 b4 b5), x5 b7 b3 b4 b5 b6))))))).

Definition lift1 (f : bits8 -> bits8) (a : byte) : byte :=
  Byte.of_bits (f (Byte.to_bits a)).
Definition lift2 (f : bits8 -> bits8 -> bits8) (a b : byte) : byte :=
  Byte.of_bits (f (Byte.to_bits a) (Byte.to_bits b)).

Definition bxor : byte -> byte -> byte := lift2 xor8.
Definition xtime : byte -> byte := lift1 xtime8.
Definition gmul : byte -> byte -> byte := lift2 gmul8.

Definition byte_eqb (a b : byte) : bool := Byte.eqb a b.

Definition all_bytes : list byte :=
  Eval vm_compute in
    fold_right (fun n acc => match Byte.of_nat n with
                             | Some b => b :: acc
                             | None => acc
                             end) [] (seq 0 256).

(** ** AES-256 (FIPS 197), the cipher behind "aes-256-cbc" *)

(** The multiplicative inverse is [a^254]; 0 is mapped to 0. *)
Definition ginv (a : byte) : byte :=
  let a2 := gmul a a in
  let a4 := gmul a2 a2 in
  let a8 := gmul a4 a4 in
  let a16 := gmul a8 a8 in
  let a32 := gmul a16 a16 in
  let a64 := gmul a32 a32 in
  let a128 := gmul a64 a64 in
  gmul a128 (gmul a64 (gmul a32 (gmul a16 (gmul a8 (gmul a4 a2))))).

Definition sbox_table : list byte :=
  Eval vm_compute in map (fun a => lift1 affine8 (ginv a)) all_bytes.

Definition sbox (a : byte) : byte := nth (Byte.to_nat a) sbox_table x00.

Definition inv_sbox_table : list byte :=
  Eval vm_compute in
    map (fun y => match find (fun a => byte_eqb (sbox a) y) all_bytes with
                  | Some a => a
                  | None => x00
                  end) all_bytes.

Definition inv_sbox (a : byte) : byte := nth (Byte.to_nat a) inv_sbox_table x00.

(** A word is a column of the state: four bytes. *)
Definition word : Type := byte * byte * byte * byte.
Definition state : Type := word * word * word * word.

Definition map_word (f : byte -> byte) (w : word) : word :=
  let '(a, b, c, d) := w in (f a, f b, f c, f d).
Definition xor_word (u v : word) : word :=
  let '(a, b, c, d) := u in
  let '(a', b', c', d') := v in
  (bxor a a', bxor b b', bxor c c', bxor d d').
Definition map_state (f : word -> word) (s : state) : state :=
  let '(c0, c1, c2, c3) := s in (f c0, f c1, f c2, f c3).

Definition sub_bytes : state -> state := map_state (map_word sbox).
Definition inv_sub_bytes : state -> state := map_state (map_word inv_sbox).

(** Row [r] of the state is rotated left by [r] columns. *)
Definition shift_rows (s : state) : state :=
  let '((a0, a1, a2, a3), (b0, b1, b2, b3),
        (c0, c1, c2, c3), (d0, d1, d2, d3)) := s in
  ((a0, b1, c2, d3), (b0, c1, d2, a3), (c0, d1, a2, b3), (d0, a1, b2, c3)).
Definition inv_shift_rows (s : state) : state :=
  let '((a0, a1, a2, a3), (b0, b1, b2, b3),
        (c0, c1, c2, c3), (d0, d1, d2, d3)) := s in
  ((a0, d1, c2, b3), (b0, a1, d2, c3), (c0, b1, a2, d3), (d0, c1, b2, a3)).

Definition mix_column8 (a b c d : bits8) : bits8 * bits8 * bits8 * bits8 :=
  (xor8 (mul2_8 a) (xor8 (mul3_8 b) (xor8 c d)),
   xor8 a (xor8 (mul2_8 b) (xor8 (mul3_8 c) d)),
   xor8 a (xor8 b (xor8 (mul2_8 c) (mul3_8 d))),
   xor8 (mul3_8 a) (xor8 b (xor8 c (mul2_8 d)))).
Definition inv_mix_column8 (a b c d : bits8) : bits8 * bits8 * bits8 * bits8 :=
  (xor8 (mul14_8 a) (xor8 (mul11_8 b) (xor8 (mul13_8 c) (mul9_8 d))),
   xor8 (mul9_8 a) (xor8 (mul14_8 b) (xor8 (mul11_8 c) (mul13_8 d))),
   xor8 (mul13_8 a) (xor8 (mul9_8 b) (xor8 (mul14_8 c) (mul11_8 d))),
   xor8 (mul11_8 a) (xor8 (mul13_8 b) (xor8 (mul9_8 c) (mul14_8 d)))).

Definition word_of_bits (w : bits8 * bits8 * bits8 * bits8) : word :=
  let '(a, b, c, d) := w in
  (Byte.of_bits a, Byte.of_bits b, Byte.of_bits c, Byte.of_bits d).

Definition mix_column (w : word) : word :=
  let '(a, b, c, d) := w in
  word_of_bits (mix_column8 (Byte.to_bits a) (Byte.to_bits b)
                            (Byte.to_bits c) (Byte.to_bits d)).
Definition inv_mix_column (w : word) : word :=
  let '(a, b, c, d) := w in
  word_of_bits (inv_mix_column8 (Byte.to_bits a) (Byte.to_bits b)
                                (Byte.to_bits c) (Byte.to_bits d)).

Definition mix_columns : state -> state := map_state mix_column.
Definition inv_mix_columns : state -> state := map_state inv_mix_column.

Definition add_round_key (s k : state) : state :=
  let '(s0, s1, s2, s3) := s in
  let '(k0, k1, k2, k3) := k in
  (xor_word s0 k0, xor_word s1 k1, xor_word s2 k2, xor_word s3 k3).

(** Key expansion for Nk = 8, Nr = 14. [ws] holds the words produced so
    far, the most recent first, so that w[i-1] is its head and w[i-8] its
    eighth element. *)
Definition zero_word : word := (x00, x00, x00, x00).
Definition rot_word (w : word) : word := let '(a, b, c, d) := w in (b, c, d, a).
Definition sub_word : word -> word := map_word sbox.
Definition rcon (j : nat) : word := (Nat.iter (j - 1) xtime x01, x00, x00, x00).

Fixpoint expand_key (n i : nat) (ws : list word) : list word :=
  match n with
  | O => ws
  | S n' =>
      let temp := nth 0 ws zero_word in
      let temp :=
        if (i mod 8 =? 0)%nat then xor_word (sub_word (rot_word temp)) (rcon (i / 8))
        else if (i mod 8 =? 4)%nat then sub_word temp
        else temp in
      expand_key n' (S i) (xor_word (nth 7 ws zero_word) temp :: ws)
  end.

Fixpoint words_of_bytes (l : list byte) : list word :=
  match l with
  | a :: b :: c :: d :: l' => (a, b, c, d) :: words_of_bytes l'
  | _ => []
  end.

Fixpoint round_keys_of_words (ws : list word) : list state :=
  match ws with
  | a :: b :: c :: d :: ws' => (a, b, c, d) :: round_keys_of_words ws'
  | _ => []
  end.

(** The fifteen round keys of a 32-byte key. *)
Definition key_schedule (key : list byte) : list state :=
  round_keys_of_words (rev (expand_key 52 8 (rev (words_of_bytes key)))).

Definition zero_state : state := (zero_word, zero_word, zero_word, zero_word).

Definition round (s k : state) : state :=
  add_round_key (mix_columns (shift_rows (sub_bytes s))) k.
Definition inv_round (s k : state) : state :=
  inv_sub_bytes (inv_shift_rows (inv_mix_columns (add_round_key s k))).

(** FIPS 197 Fig. 5, with the round keys split as first, middle, last. *)
Definition cipher (k0 : state) (middle : list state) (klast : state) (s : state) : state :=
  let s := add_round_key s k0 in
  let s := fold_left round middle s in
  add_round_key (shift_rows (sub_bytes s)) klast.

(** FIPS 197 Fig. 12: every step undone in the reverse order. *)
Definition inv_cipher (k0 : state) (middle : list state) (klast : state) (s : state) : state :=
  let s := inv_sub_bytes (inv_shift_rows (add_round_key s klast)) in
  let s := fold_left inv_round (rev middle) s in
  add_round_key s k0.

Definition split_schedule (ks : list state) : state * list state * state :=
  match ks with
  | k0 :: rest => (k0, removelast rest, List.last rest zero_state)
  | [] => (zero_state, [], zero_state)
  end.

Definition aes_encrypt_block (ks : list state) (s : state) : state :=
  let '(k0, middle, klast) := split_schedule ks in cipher k0 middle klast s.
Definition aes_decrypt_block (ks : list state) (s : state) : state :=
  let '(k0, middle, klast) := split_schedule ks in inv_cipher k0 middle klast s.

(** ** Blocks of sixteen bytes *)

Definition state_to_list (s : state) : list byte :=
  let '((a0, a1, a2, a3), (b0, b1, b2, b3),
        (c0, c1, c2, c3), (d0, d1, d2, d3)) := s in
  [a0; a1; a2; a3; b0; b1; b2; b3; c0; c1; c2; c3; d0; d1; d2; d3].

(** Cuts a buffer into 16-byte blocks; [None] when the length is not a
    multiple of sixteen. *)
Fixpoint blocks_of (l : list byte) : option (list state) :=
  match l with
  | [] => Some []
  | a0 :: a1 :: a2 :: a3 :: b0 :: b1 :: b2 :: b3 ::
    c0 :: c1 :: c2 :: c3 :: d0 :: d1 :: d2 :: d3 :: l' =>
      match blocks_of l' with
      | Some bs => Some (((a0, a1, a2, a3), (b0, b1, b2, b3),
                          (c0, c1, c2, c3), (d0, d1, d2, d3)) :: bs)
      | None => None
      end
  | _ => None
  end.

Definition bytes_of_blocks (bs : list state) : list byte :=
  concat (map state_to_list bs).

(** ** CBC mode with the PKCS#7 padding OpenSSL applies by default *)

Definition pkcs7_pad (pt : list byte) : list byte :=
  let n := (16 - length pt mod 16)%nat in
  pt ++ repeat (match Byte.of_nat n with Some b => b | None => x00 end) n.

(** [final()] rejects a last block whose last byte [n] is not in 1..16 or
    whose last [n] bytes are not all [n]. *)
Definition pkcs7_unpad (l : list byte) : option (list byte) :=
  match rev l with
  | [] => None
  | b :: _ =>
      let n := Byte.to_nat b in
      if ((1 <=? n) && (n <=? 16) && (n <=? length l))%nat
      then
        let body := firstn (length l - n) l in
        let tail := skipn (length l - n) l in
        if forallb (byte_eqb b) tail then Some body else None
      else None
  end.

Fixpoint cbc_encrypt_blocks (ks : list state) (prev : state) (bs : list state) : list state :=
  match bs with
  | [] => []
  | b :: bs' =>
      let c := aes_encrypt_block ks (add_round_key b prev) in
      c :: cbc_encrypt_blocks ks c bs'
  end.

Fixpoint cbc_decrypt_blocks (ks : list state) (prev : state) (cs : list state) : list state :=
  match cs with
  | [] => []
  | c :: cs' =>
      add_round_key (aes_decrypt_block ks c) prev :: cbc_decrypt_blocks ks c cs'
  end.

(** [createCipheriv("aes-256-cbc", key, iv)] followed by [update] and
    [final]: [None] stands for the exception Node raises on a key that is not
    32 bytes or an IV that is not 16 bytes long. *)
Definition aes_256_cbc_encrypt (key iv pt : list byte) : option (list byte) :=
  if negb (length key =? 32)%nat then None
  else match blocks_of iv with
       | Some [iv0] =>
           match blocks_of (pkcs7_pad pt) with
           | Some bs => Some (bytes_of_blocks (cbc_encrypt_blocks (key_schedule key) iv0 bs))
           | None => None
           end
       | _ => None
       end.

(** [createDecipheriv("aes-256-cbc", key, iv)] followed by [update] and
    [final]: [None] stands for an exception (bad key or IV length, a
    ciphertext that is empty or not a whole number of blocks, bad padding). *)
Definition aes_256_cbc_decrypt (key iv ct : list byte) : option (list byte) :=
  if negb (length key =? 32)%nat then None
  else match blocks_of iv with
       | Some [iv0] =>
           match blocks_of ct with
           | Some [] => None
           | Some cs => pkcs7_unpad (bytes_of_blocks (cbc_decrypt_blocks (key_schedule key) iv0 cs))
           | None => None
           end
       | _ => None
       end.

(** ** Strings: sequences of UTF-16 code units *)

Abbreviation jsstring := (list N).

(** An ASCII literal as a JavaScript string. *)
Definition lit (s : string) : jsstring :=
  map N_of_ascii (list_ascii_of_string s).

(** [WhiteSpace] and [LineTerminator] of ECMAScript, what [trim] strips. *)
Definition is_ws (c : N) : bool :=
  ((9 <=? c) && (c <=? 13)) || (c =? 32) || (c =? 160) || (c =? 5760)
  || ((8192 <=? c) && (c <=? 8202)) || (c =? 8232) || (c =? 8233)
  || (c =? 8239) || (c =? 8287) || (c =? 12288) || (c =? 65279).

Fixpoint drop_ws (s : jsstring) : jsstring :=
  match s with
  | c :: s' => if is_ws c then drop_ws s' else s
  | [] => []
  end.

(** [String.prototype.trim]. *)
Definition trim (s : jsstring) : jsstring := rev (drop_ws (rev (drop_ws s))).

(** [s.startsWith(p)]. *)
Fixpoint startsWith (s p : jsstring) {struct p} : bool :=
  match p, s with
  | [], _ => true
  | _ :: _, [] => false
  | b :: p', a :: s' => (a =? b) && startsWith s' p'
  end.

(** [s.split(sep)] for a separator that is a string. [skip] counts the code
    units of a separator still to be passed over, [cur] is the piece being
    collected, last unit first. *)
Fixpoint split_from (sep s : jsstring) (skip : nat) (cur : jsstring) : list jsstring :=
  match s with
  | [] => [rev cur]
  | c :: s' =>
      match skip with
      | S k => split_from sep s' k cur
      | O =>
          if startsWith s sep
          then rev cur :: split_from sep s' (length sep - 1) []
          else split_from sep s' 0 (c :: cur)
      end
  end.

Definition split (s sep : jsstring) : list jsstring :=
  match sep with
  | [] => map (fun c => [c]) s
  | _ :: _ => split_from sep s 0 []
  end.

(** [s.replace(pat, rep)] with a string pattern: only the first occurrence
    is replaced. (The replacement used by the code is the empty string, so
    the dollar patterns of [replace] play no part.) *)
Fixpoint replace (s pat rep : jsstring) : jsstring :=
  if startsWith s pat then rep ++ skipn (length pat) s
  else match s with
       | [] => []
       | c :: s' => c :: replace s' pat rep
       end.

(** [s.slice(0, n)] and [s.slice(n)] for a non-negative [n]. *)
Definition slice_to (n : nat) (s : jsstring) : jsstring := firstn n s.
Definition slice_from (n : nat) (s : jsstring) : jsstring := skipn n s.

(** ** Buffer codecs *)

Definition byte_of_N (n : N) : byte :=
  match Byte.of_N (n mod 256) with
  | Some b => b
  | None => x00
  end.

Definition hex_value (c : N) : option N :=
  if (48 <=? c) && (c <=? 57) then Some (c - 48)
  else if (97 <=? c) && (c <=? 102) then Some (c - 87)
  else if (65 <=? c) && (c <=? 70) then Some (c - 55)
  else None.

(** [Buffer.from(s, "hex")]: the decoder reads the low byte of each code
    unit; pairs of hex digits are decoded until the first pair that is not
    two hex digits, and a trailing single character is dropped. *)
Fixpoint hex_decode (s : jsstring) : list byte :=
  match s with
  | a :: b :: s' =>
      match hex_value (N.land a 255), hex_value (N.land b 255) with
      | Some x, Some y => byte_of_N (16 * x + y) :: hex_decode s'
      | _, _ => []
      end
  | _ => []
  end.



(** The UTF-8 decoder of [buf.toString("utf8")]: ill-formed input is
    replaced by U+FFFD, one per maximal ill-formed subpart. The pending
    state is (code point so far, continuation bytes still needed, lower and
    upper bound of the next byte). *)
Definition utf8_pending : Type := N * nat * N * N.

Definition utf8_lead (b : N) : list N * option utf8_pending :=
  if b <=? 127 then ([b], None)
  else if (194 <=? b) && (b <=? 223) then ([], Some (N.land b 31, 1%nat, 128, 191))
  else if (224 <=? b) && (b <=? 239) then
    ([], Some (N.land b 15, 2%nat,
               (if b =? 224 then 160 else 128), (if b =? 237 then 159 else 191)))
  else if (240 <=? b) && (b <=? 244) then
    ([], Some (N.land b 7, 3%nat,
               (if b =? 240 then 144 else 128), (if b =? 244 then 143 else 191)))
  else ([65533], None).

Fixpoint utf8_code_points (st : option utf8_pending) (bs : list byte) : list N :=
  match bs with
  | [] => match st with None => [] | Some _ => [65533] end
  | b :: bs' =>
      let n := Byte.to_N b in
      match st with
      | None =>
          let '(out, st') := utf8_lead n in out ++ utf8_code_points st' bs'
      | Some (cp, needed, lo, hi) =>
          if (lo <=? n) && (n <=? hi) then
            let cp' := N.lor (N.shiftl cp 6) (N.land n 63) in
            match needed with
            | S (S k) => utf8_code_points (Some (cp', S k, 128, 191)) bs'
            | _ => cp' :: utf8_code_points None bs'
            end
          else
            let '(out, st') := utf8_lead n in
            65533 :: out ++ utf8_code_points st' bs'
      end
  end.

Definition utf16_of_code_point (cp : N) : jsstring :=
  if cp <? 65536 then [cp]
  else [55296 + N.shiftr (cp - 65536) 10; 56320 + N.land (cp - 65536) 1023].

(** [buf.toString("utf8")]. *)
Definition toString_utf8 (buf : list byte) : jsstring :=
  flat_map utf16_of_code_point (utf8_code_points None buf).

(** The code points of a string: a surrogate pair is one code point, a
    lone surrogate is encoded as U+FFFD. *)
Fixpoint code_points_of (s : jsstring) : list N :=
  match s with
  | [] => []
  | c :: s' =>
      if (55296 <=? c) && (c <=? 56319) then
        match s' with
        | d :: s'' =>
            if (56320 <=? d) && (d <=? 57343)
            then (65536 + (c - 55296) * 1024 + (d - 56320)) :: code_points_of s''
            else 65533 :: code_points_of s'
        | [] => [65533]
        end
      else if (56320 <=? c) && (c <=? 57343) then 65533 :: code_points_of s'
      else c :: code_points_of s'
  end.

Definition utf8_of_code_point (cp : N) : list byte :=
  if cp <? 128 then [byte_of_N cp]
  else if cp <? 2048 then
    [byte_of_N (192 + N.shiftr cp 6); byte_of_N (128 + N.land cp 63)]
  else if cp <? 65536 then
    [byte_of_N (224 + N.shiftr cp 12); byte_of_N (128 + N.land (N.shiftr cp 6) 63);
     byte_of_N (128 + N.land cp 63)]
  else
    [byte_of_N (240 + N.shiftr cp 18); byte_of_N (128 + N.land (N.shiftr cp 12) 63);
     byte_of_N (128 + N.land (N.shiftr cp 6) 63); byte_of_N (128 + N.land cp 63)].

(** [Buffer.from(s)] (UTF-8 is the default encoding). *)
Definition Buffer_from_utf8 (s : jsstring) : list byte :=
  flat_map utf8_of_code_point (code_points_of s).

(* ===================================================================== *)
(** * Part II. The ZooKeeper client                                        *)
(* ===================================================================== *)

(** ** Exceptions, console records, library events *)

Inductive Exn : Type :=
| TypeError_undefined (member : string)
    (** "Cannot read properties of undefined (reading 'member')" *)
| TypeError_not_a_function (callee : string)
    (** "callee is not a function" *)
| DecipherError
    (** thrown by [createDecipheriv] or by [decipher.final] of the module
        "node:crypto" *)
| LibraryError (method : string)
    (** thrown by a call into node-zookeeper-client *).

Inductive Result (A : Type) : Type :=
| Ok (a : A)
| Throw (e : Exn).
Arguments Ok {A} a.
Arguments Throw {A} e.

(** The kinds of watch notification and the numbers and names
    node-zookeeper-client gives them ([Event.NODE_CREATED] = 1, ...). *)
Inductive EventKind : Type :=
| NODE_CREATED | NODE_DELETED | NODE_DATA_CHANGED | NODE_CHILDREN_CHANGED.

Record WatchEvent : Type := {
  ev_type : N;
  ev_name : string;
  ev_path : jsstring
}.

Definition kind_code (k : EventKind) : N :=
  match k with
  | NODE_CREATED => 1
  | NODE_DELETED => 2
  | NODE_DATA_CHANGED => 3
  | NODE_CHILDREN_CHANGED => 4
  end.

Definition kind_name (k : EventKind) : string :=
  match k with
  | NODE_CREATED => "NODE_CREATED"
  | NODE_DELETED => "NODE_DELETED"
  | NODE_DATA_CHANGED => "NODE_DATA_CHANGED"
  | NODE_CHILDREN_CHANGED => "NODE_CHILDREN_CHANGED"
  end.

(** The event object the library hands to a watcher. *)
Definition watch_event (k : EventKind) (node : jsstring) : WatchEvent :=
  {| ev_type := kind_code k; ev_name := kind_name k; ev_path := node |}.

Inductive Level : Type := INFO | ERROR.

Inductive Message : Type :=
| msg_text (s : string)
| msg_exn (e : Exn)                 (** [(error as Error)?.message] *)
| msg_library (err : string)        (** an error the library reports *)
| msg_event (e : WatchEvent)        (** [JSON.stringify(event)] *)
| msg_run_zookeeper (e : Exn)       (** [`run zookeeper >>>> ${message}`] *).

Record LogRecord : Type := {
  log_type : string;
  level : Level;
  message : Message;
  description : string
}.

Definition zk_log (l : Level) (m : Message) (d : string) : LogRecord :=
  {| log_type := "ZOOKEEPER"; level := l; message := m; description := d |}.

(** ** Configuration and the client object *)

Record ZClientConfig : Type := {
  cfg_client : jsstring;
  connectionString : jsstring;
  cfg_username : jsstring;
  cfg_password : jsstring;
  cfg_path : jsstring;
  encryptionSecretKey : jsstring;
  cfg_logger : option nat;
  onUpdateConfigurations : option nat
}.

(** A [ZookeeperClient] object. [oid] is its identity (the number of the
    allocation that made it). [client] is [None] while the field is still
    undefined. The other fields are assigned from the configuration right
    after the object is registered as the singleton and never again. *)
Record ZookeeperClient : Type := {
  oid : nat;
  client : option nat;
  connection_string : jsstring;
  username : jsstring;
  password : jsstring;
  path : jsstring;
  encryption_secret_key : jsstring;
  logger : option nat;
  on_update_configurations : option nat
}.

Definition with_client (h : nat) (this : ZookeeperClient) : ZookeeperClient :=
  {| oid := oid this; client := Some h;
     connection_string := connection_string this; username := username this;
     password := password this; path := path this;
     encryption_secret_key := encryption_secret_key this;
     logger := logger this;
     on_update_configurations := on_update_configurations this |}.

(** ** Promises and suspended frames *)

Definition pid : Type := nat.

Inductive PState : Type := Pending | Fulfilled | Rejected.

(** A frame suspended at an [await]: what runs once the awaited promise is
    fulfilled. A constructor that carries a [pid] holds the [resolve]
    function of that promise. *)
Inductive Cont : Type :=
| run_after_connect (this : ZookeeperClient) (p : pid)
| run_after_events (this : ZookeeperClient) (p : pid)
| run_after_fetch (p : pid)
| run_after_retry
| connect_after_retry
| expired_after_retry
| retry_after_run (p : pid)
| watch_after_fetch
| completion_after_parse (p : pid)
| run_zookeeper_after_run (p : pid).

(** ** What the program does to the outside, in order *)

Inductive Item : Type :=
| call_constructor
| call_run
| call_connect
| call_events
| call_retry
| call_fetch_config
| call_parse_loaded_data
| call_decrypt_value
| call_run_zookeeper
| lib_createClient (h : nat) (cs : jsstring) (sessionTimeout : N)
| lib_addAuthInfo (h : nat) (scheme : string) (auth : list byte)
| lib_once (h : nat) (event : string)
| lib_on (h : nat) (event : string)
| lib_connect (h : nat)
| lib_close (h : nat)
| lib_getData (h : nat) (node : jsstring)
| env_set (key value : jsstring).

(** ** The state of the process *)

(** The client library, as far as the class can observe it. [faults] says
    for each coming call into the library whether it throws ([true]); past
    the end of the list no call throws. *)
Record Library : Type := {
  created : nat;
  faults : list bool;
  once_connected : list pid;
  on_disconnected : nat;
  on_expired : list ZookeeperClient;
  on_error : nat;
  requests : list (ZookeeperClient * pid);
  watchers : list ZookeeperClient
}.

Record World : Type := {
  instance : option ZookeeperClient;   (** [ZookeeperClient.instance] *)
  next_oid : nat;
  is_running_zookeeper : bool;
  env : gmap (list N) (list N);        (** [process.env] *)
  console : list LogRecord;            (** most recent first *)
  trace : list Item;                   (** most recent first *)
  promises : list PState;              (** promise [p] is at index [p] *)
  waiting : list (pid * Cont);         (** frames awaiting a pending promise *)
  microtasks : list Cont;              (** the job queue, next job first *)
  unhandled : list Exn;                (** rejections nobody observes *)
  exhausted : bool;                    (** the fuel of [run] ran out *)
  lib : Library
}.

Definition set_instance (x : option ZookeeperClient) (w : World) : World :=
  {| instance := x; next_oid := next_oid w;
     is_running_zookeeper := is_running_zookeeper w; env := env w;
     console := console w; trace := trace w; promises := promises w;
     waiting := waiting w; microtasks := microtasks w;
     unhandled := unhandled w; exhausted := exhausted w; lib := lib w |}.
Definition set_next_oid (x : nat) (w : World) : World :=
  {| instance := instance w; next_oid := x;
     is_running_zookeeper := is_running_zookeeper w; env := env w;
     console := console w; trace := trace w; promises := promises w;
     waiting := waiting w; microtasks := microtasks w;
     unhandled := unhandled w; exhausted := exhausted w; lib := lib w |}.
Definition set_env (x : gmap (list N) (list N)) (w : World) : World :=
  {| instance := instance w; next_oid := next_oid w;
     is_running_zookeeper := is_running_zookeeper w; env := x;
     console := console w; trace := trace w; promises := promises w;
     waiting := waiting w; microtasks := microtasks w;
     unhandled := unhandled w; exhausted := exhausted w; lib := lib w |}.
Definition set_console (x : list LogRecord) (w : World) : World :=
  {| instance := instance w; next_oid := next_oid w;
     is_running_zookeeper := is_running_zookeeper w; env := env w;
     console := x; trace := trace w; promises := promises w;
     waiting := waiting w; microtasks := microtasks w;
     unhandled := unhandled w; exhausted := exhausted w; lib := lib w |}.
Definition set_trace (x : list Item) (w : World) : World :=
  {| instance := instance w; next_oid := next_oid w;
     is_running_zookeeper := is_running_zookeeper w; env := env w;
     console := console w; trace := x; promises := promises w;
     waiting := waiting w; microtasks := microtasks w;
     unhandled := unhandled w; exhausted := exhausted w; lib := lib w |}.
Definition set_promises (x : list PState) (w : World) : World :=
  {| instance := instance w; next_oid := next_oid w;
     is_running_zookeeper := is_running_zookeeper w; env := env w;
     console := console w; trace := trace w; promises := x;
     waiting := waiting w; microtasks := microtasks w;
     unhandled := unhandled w; exhausted := exhausted w; lib := lib w |}.
Definition set_waiting (x : list (pid * Cont)) (w : World) : World :=
  {| instance := instance w; next_oid := next_oid w;
     is_running_zookeeper := is_running_zookeeper w; env := env w;
     console := console w; trace := trace w; promises := promises w;
     waiting := x; microtasks := microtasks w;
     unhandled := unhandled w; exhausted := exhausted w; lib := lib w |}.
Definition set_microtasks (x : list Cont) (w : World) : World :=
  {| instance := instance w; next_oid := next_oid w;
     is_running_zookeeper := is_running_zookeeper w; env := env w;
     console := console w; trace := trace w; promises := promises w;
     waiting := waiting w; microtasks := x;
     unhandled := unhandled w; exhausted := exhausted w; lib := lib w |}.
Definition set_unhandled (x : list Exn) (w : World) : World :=
  {| instance := instance w; next_oid := next_oid w;
     is_running_zookeeper := is_running_zookeeper w; env := env w;
     console := console w; trace := trace w; promises := promises w;
     waiting := waiting w; microtasks := microtasks w;
     unhandled := x; exhausted := exhausted w; lib := lib w |}.
Definition set_exhausted (x : bool) (w : World) : World :=
  {| instance := instance w; next_oid := next_oid w;
     is_running_zookeeper := is_running_zookeeper w; env := env w;
     console := console w; trace := trace w; promises := promises w;
     waiting := waiting w; microtasks := microtasks w;
     unhandled := unhandled w; exhausted := x; lib := lib w |}.
Definition set_lib (x : Library) (w : World) : World :=
  {| instance := instance w; next_oid := next_oid w;
     is_running_zookeeper := is_running_zookeeper w; env := env w;
     console := console w; trace := trace w; promises := promises w;
     waiting := waiting w; microtasks := microtasks w;
     unhandled := unhandled w; exhausted := exhausted w; lib := x |}.

Definition set_created (x : nat) (l : Library) : Library :=
  {| created := x; faults := faults l; once_connected := once_connected l;
     on_disconnected := on_disconnected l; on_expired := on_expired l;
     on_error := on_error l; requests := requests l; watchers := watchers l |}.
Definition set_faults (x : list bool) (l : Library) : Library :=
  {| created := created l; faults := x; once_connected := once_connected l;
     on_disconnected := on_disconnected l; on_expired := on_expired l;
     on_error := on_error l; requests := requests l; watchers := watchers l |}.
Definition set_once_connected (x : list pid) (l : Library) : Library :=
  {| created := created l; faults := faults l; once_connected := x;
     on_disconnected := on_disconnected l; on_expired := on_expired l;
     on_error := on_error l; requests := requests l; watchers := watchers l |}.
Definition set_on_disconnected (x : nat) (l : Library) : Library :=
  {| created := created l; faults := faults l; once_connected := once_connected l;
     on_disconnected := x; on_expired := on_expired l;
     on_error := on_error l; requests := requests l; watchers := watchers l |}.
Definition set_on_expired (x : list ZookeeperClient) (l : Library) : Library :=
  {| created := created l; faults := faults l; once_connected := once_connected l;
     on_disconnected := on_disconnected l; on_expired := x;
     on_error := on_error l; requests := requests l; watchers := watchers l |}.
Definition set_on_error (x : nat) (l : Library) : Library :=
  {| created := created l; faults := faults l; once_connected := once_connected l;
     on_disconnected := on_disconnected l; on_expired := on_expired l;
     on_error := x; requests := requests l; watchers := watchers l |}.
Definition set_requests (x : list (ZookeeperClient * pid)) (l : Library) : Library :=
  {| created := created l; faults := faults l; once_connected := once_connected l;
     on_disconnected := on_disconnected l; on_expired := on_expired l;
     on_error := on_error l; requests := x; watchers := watchers l |}.
Definition set_watchers (x : list ZookeeperClient) (l : Library) : Library :=
  {| created := created l; faults := faults l; once_connected := once_connected l;
     on_disconnected := on_disconnected l; on_expired := on_expired l;
     on_error := on_error l; requests := requests l; watchers := x |}.

(** ** State passing *)

Definition M (A : Type) : Type := World -> A * World.

Definition ret {A : Type} (a : A) : M A := fun w => (a, w).
Definition bind {A B : Type} (m : M A) (k : A -> M B) : M B :=
  fun w => let (a, w') := m w in k a w'.

Notation "x <- m ;; k" := (bind m (fun x => k))
  (at level 100, m at next level, right associativity).

Definition modify (f : World -> World) : M unit := fun w => (tt, f w).
Definition get {A : Type} (f : World -> A) : M A := fun w => (f w, w).

Fixpoint for_each {A : Type} (f : A -> M unit) (l : list A) : M unit :=
  match l with
  | [] => ret tt
  | x :: l' => _ <- f x ;; for_each f l'
  end.

(** [console.log]. *)
Definition console_log (r : LogRecord) : M unit :=
  modify (fun w => set_console (r :: console w) w).

Definition note (i : Item) : M unit :=
  modify (fun w => set_trace (i :: trace w) w).

(** ** Promises *)

Definition new_promise : M pid :=
  fun w => (length (promises w), set_promises (promises w ++ [Pending]) w).

Definition enqueue (k : Cont) : M unit :=
  modify (fun w => set_microtasks (microtasks w ++ [k]) w).

(** [await p]: the rest of the frame, [k], runs as a job once [p] is
    fulfilled. No promise this module awaits is ever rejected (only the
    promise of [run_zookeeper] has a [reject], and nothing here awaits it);
    for completeness a frame awaiting a rejected promise is dropped. *)
Definition await (p : pid) (k : Cont) : M unit :=
  fun w =>
    match promises w !! p with
    | Some Fulfilled => enqueue k w
    | Some Pending => (tt, set_waiting (waiting w ++ [(p, k)]) w)
    | _ => (tt, w)
    end.

Definition awaits (p : pid) (pk : pid * Cont) : bool := (fst pk =? p)%nat.

(** [resolve()] of promise [p]: the first call fulfils it and schedules
    the frames that await it; later calls do nothing. *)
Definition resolve (p : pid) : M unit :=
  fun w =>
    match promises w !! p with
    | Some Pending =>
        let ready := map snd (List.filter (awaits p) (waiting w)) in
        let rest := List.filter (fun pk => negb (awaits p pk)) (waiting w) in
        (tt, set_microtasks (microtasks w ++ ready)
               (set_waiting rest
                  (set_promises (<[p := Fulfilled]> (promises w)) w)))
    | _ => (tt, w)
    end.

(** [reject()] of promise [p]. *)
Definition reject (p : pid) : M unit :=
  fun w =>
    match promises w !! p with
    | Some Pending => (tt, set_promises (<[p := Rejected]> (promises w)) w)
    | _ => (tt, w)
    end.

(** An exception that leaves the async executor of a promise: the
    executor's own promise is rejected and nobody listens to it. *)
Definition unhandled_rejection (e : Exn) : M unit :=
  modify (fun w => set_unhandled (e :: unhandled w) w).

(** ** Calls into the library *)

(** Whether the call that is being made throws. *)
Definition throws : M bool :=
  fun w =>
    match faults (lib w) with
    | b :: fs => (b, set_lib (set_faults fs (lib w)) w)
    | [] => (false, w)
    end.

(** A method call [this.client.member(...)]: a [TypeError] when the field
    is undefined, otherwise the call is made and may throw. *)
Definition lib_call (this : ZookeeperClient) (member : string)
    (item : nat -> Item) : M (Result nat) :=
  match client this with
  | None => ret (Throw (TypeError_undefined member))
  | Some h =>
      _ <- note (item h) ;;
      b <- throws ;;
      ret (if b then Throw (LibraryError member) else Ok h)
  end.

Definition modify_lib (f : Library -> Library) : M unit :=
  modify (fun w => set_lib (f (lib w)) w).

(** ** The constructor (lines 39-60) *)

Definition colon : jsstring := [58].

Definition new_ZookeeperClient (config : ZClientConfig) : M (Result ZookeeperClient) :=
  _ <- note call_constructor ;;
  o <- get next_oid ;;
  _ <- modify (set_next_oid (S o)) ;;
  existing <- get instance ;;
  match existing with
  | Some registered => ret (Ok registered)
  | None =>
      let this :=
        {| oid := o; client := None;
           connection_string := connectionString config;
           username := cfg_username config;
           password := cfg_password config;
           path := cfg_path config;
           encryption_secret_key := encryptionSecretKey config;
           logger := cfg_logger config;
           on_update_configurations := onUpdateConfigurations config |} in
      _ <- modify (set_instance (Some this)) ;;
      h <- get (fun w => created (lib w)) ;;
      _ <- note (lib_createClient h (connection_string this) 30000) ;;
      b <- throws ;;
      if b then ret (Throw (LibraryError "createClient"))
      else
        let this := with_client h this in
        _ <- modify_lib (set_created (S h)) ;;
        _ <- modify (set_instance (Some this)) ;;
        r <- lib_call this "addAuthInfo"
               (fun h => lib_addAuthInfo h "digest"
                  (Buffer_from_utf8 (username this ++ colon ++ password this))) ;;
        match r with
        | Ok _ => ret (Ok this)
        | Throw e => ret (Throw e)
        end
  end.

(** ** connect, retry, run (lines 65-120 and 164-170) *)

Definition connect_with (retry : ZookeeperClient -> M pid)
    (this : ZookeeperClient) : M pid :=
  _ <- note call_connect ;;
  p <- new_promise ;;
  r <- (r1 <- lib_call this "once" (fun h => lib_once h "connected") ;;
        match r1 with
        | Ok _ =>
            _ <- modify_lib (fun l => set_once_connected (once_connected l ++ [p]) l) ;;
            lib_call this "connect" lib_connect
        | Throw e => ret (Throw e)
        end) ;;
  match r with
  | Ok _ => ret p
  | Throw e =>
      _ <- console_log (zk_log ERROR (msg_exn e) "connect") ;;
      pr <- retry this ;;
      _ <- await pr connect_after_retry ;;
      ret p
  end.

Definition retry_with (run : ZookeeperClient -> M pid)
    (this : ZookeeperClient) : M pid :=
  _ <- note call_retry ;;
  p <- new_promise ;;
  r <- lib_call this "close" lib_close ;;
  match r with
  | Ok _ =>
      pr <- run this ;;
      _ <- await pr (retry_after_run p) ;;
      ret p
  | Throw e =>
      _ <- unhandled_rejection e ;;
      ret p
  end.

Definition run_with (retry : ZookeeperClient -> M pid)
    (this : ZookeeperClient) : M pid :=
  _ <- note call_run ;;
  p <- new_promise ;;
  pc <- connect_with retry this ;;
  _ <- await pc (run_after_connect this p) ;;
  ret p.

(** [run] and [retry] call each other before any [await]; the recursion is
    cut by [n]. Each round of it needs a call into the library that throws,
    so more fuel than [faults] has entries is never used up (lemma
    [retry_fuel_enough]). *)
Definition out_of_fuel : M pid :=
  p <- new_promise ;;
  _ <- modify (set_exhausted true) ;;
  ret p.

Fixpoint run_fuel (n : nat) (this : ZookeeperClient) : M pid :=
  run_with (match n with
            | O => fun _ => out_of_fuel
            | S n' => retry_with (run_fuel n')
            end) this.

Definition retry_fuel (n : nat) : ZookeeperClient -> M pid :=
  match n with
  | O => fun _ => out_of_fuel
  | S n' => retry_with (run_fuel n')
  end.

Definition fuel (w : World) : nat := S (length (faults (lib w))).

Definition retry (this : ZookeeperClient) : M pid :=
  fun w => retry_fuel (fuel w) this w.

Definition run (this : ZookeeperClient) : M pid :=
  fun w => run_with retry this w.

Definition connect (this : ZookeeperClient) : M pid :=
  connect_with retry this.

(** ** events (lines 125-159) *)

Definition events (this : ZookeeperClient) : M (Result unit) :=
  _ <- note call_events ;;
  r <- lib_call this "on" (fun h => lib_on h "disconnected") ;;
  match r with
  | Throw e => ret (Throw e)
  | Ok _ =>
      _ <- modify_lib (fun l => set_on_disconnected (S (on_disconnected l)) l) ;;
      r <- lib_call this "on" (fun h => lib_on h "expired") ;;
      match r with
      | Throw e => ret (Throw e)
      | Ok _ =>
          _ <- modify_lib (fun l => set_on_expired (on_expired l ++ [this]) l) ;;
          r <- lib_call this "on" (fun h => lib_on h "error") ;;
          match r with
          | Throw e => ret (Throw e)
          | Ok _ =>
              _ <- modify_lib (fun l => set_on_error (S (on_error l)) l) ;;
              ret (Ok tt)
          end
      end
  end.

(** ** fetch_config (lines 175-234) *)

Definition fetch_config (this : ZookeeperClient) : M pid :=
  _ <- note call_fetch_config ;;
  p <- new_promise ;;
  r <- lib_call this "getData" (fun h => lib_getData h (path this)) ;;
  match r with
  | Ok _ =>
      _ <- modify_lib (fun l => set_requests (requests l ++ [(this, p)]) l) ;;
      ret p
  | Throw e =>
      _ <- console_log (zk_log ERROR (msg_exn e) "fetch config") ;;
      _ <- retry this ;;
      ret p
  end.

(** ** decrypt_value (lines 268-281) *)

Definition devEnc : jsstring := lit "devEnc:".

(** The module imports nothing named [crypto]: at line 276 the identifier
    is the global of the host, and the complaint of the compiler about
    [createDecipheriv] is silenced at line 275. In Node that global is the
    Web Crypto object ([subtle], [getRandomValues], [randomUUID]);
    [createDecipheriv] belongs to the module "node:crypto". *)
Inductive CryptoObject : Type :=
| web_crypto
| node_crypto.

Definition crypto : CryptoObject := web_crypto.

(** The member [createDecipheriv] of a crypto object, for the algorithm
    "aes-256-cbc", with [update] and [final] applied to its result;
    [None] when the object has no such member. *)
Definition createDecipheriv (c : CryptoObject)
    : option (list byte -> list byte -> list byte -> option (list byte)) :=
  match c with
  | web_crypto => None
  | node_crypto => Some aes_256_cbc_decrypt
  end.

(** The body of [decrypt_value], with the object that the identifier
    [crypto] stands for as [c]. *)
Definition decrypt_value_with (c : CryptoObject) (this : ZookeeperClient)
    (encryptedText : jsstring) : Result jsstring :=
  let encryptedText := replace encryptedText devEnc [] in
  let key := hex_decode (encryption_secret_key this) in
  let iv := hex_decode (slice_to 32 encryptedText) in
  let encrypted := hex_decode (slice_from 32 encryptedText) in
  match createDecipheriv c with
  | None => Throw (TypeError_not_a_function "crypto.createDecipheriv")
  | Some decipher =>
      match decipher key iv encrypted with
      | Some decrypted => Ok (toString_utf8 decrypted)
      | None => Throw DecipherError
      end
  end.

Definition decrypt_value : ZookeeperClient -> jsstring -> Result jsstring :=
  decrypt_value_with crypto.

(** ** parse_loaded_data (lines 239-263) *)

Definition CRLF : jsstring := [13; 10].
Definition equals_sign : jsstring := [61].
Definition hash_sign : jsstring := [35].

(** [Boolean(item) && !item.startsWith("#")]. *)
Definition keep_item (item : jsstring) : bool :=
  negb (match item with [] => true | _ => false end)
  && negb (startsWith item hash_sign).

(** [process.env] is the environment of the process. A write hands name
    and value to [setenv] as C strings in UTF-8: a lone surrogate becomes
    U+FFFD and each string ends at its first NUL. [setenv] refuses an
    empty name and a name with an equals sign, and the refusal is
    ignored. *)
Fixpoint c_string (s : jsstring) : jsstring :=
  match s with
  | [] => []
  | c :: s' => if c =? 0 then [] else c :: c_string s'
  end.

Definition env_text (s : jsstring) : jsstring :=
  toString_utf8 (Buffer_from_utf8 (c_string s)).

Definition env_name_ok (name : jsstring) : bool :=
  negb (match name with [] => true | _ => false end)
  && forallb (fun c => negb (c =? 61)) name.

Definition setenv (name value : jsstring) (m : gmap (list N) (list N))
    : gmap (list N) (list N) :=
  if env_name_ok name then <[name := value]> m else m.

(** [process.env[key] = value]. *)
Definition process_env_set (key value : jsstring) : M unit :=
  _ <- note (env_set key value) ;;
  modify (fun w => set_env (setenv (env_text key) (env_text value) (env w)) w).

(** The body of the [forEach] callback (lines 249-250). The destructuring
    takes the first two pieces of the split; the right-hand side of the
    assignment is evaluated, and may throw, before anything is written. *)
Definition item_entry (this : ZookeeperClient) (item : jsstring)
    : Result (jsstring * jsstring) :=
  let pieces := map trim (split item equals_sign) in
  let key := nth 0 pieces [] in
  match nth_error pieces 1 with
  | None => Throw (TypeError_undefined "startsWith")
  | Some value =>
      if startsWith value devEnc then
        match decrypt_value this value with
        | Ok decrypted => Ok (key, decrypted)
        | Throw e => Throw e
        end
      else Ok (key, value)
  end.

Definition parse_item (this : ZookeeperClient) (item : jsstring) : M (Result unit) :=
  match item_entry this item with
  | Ok (key, value) => _ <- process_env_set key value ;; ret (Ok tt)
  | Throw e => ret (Throw e)
  end.

(** [forEach] with a callback that may throw. *)
Fixpoint forEach {A : Type} (f : A -> M (Result unit)) (l : list A) : M (Result unit) :=
  match l with
  | [] => ret (Ok tt)
  | x :: l' =>
      r <- f x ;;
      match r with
      | Ok _ => forEach f l'
      | Throw e => ret (Throw e)
      end
  end.

Definition parsed_data (buf : list byte) : list jsstring :=
  List.filter keep_item (split (toString_utf8 buf) CRLF).

(** The [try] block of [parse_loaded_data] up to [resolve()]; [data] is
    [None] when the library hands over [undefined]. *)
Definition parse_body (this : ZookeeperClient) (data : option (list byte))
    : M (Result unit) :=
  match data with
  | None => ret (Throw (TypeError_undefined "toString"))
  | Some buf => forEach (parse_item this) (parsed_data buf)
  end.

Definition parse_loaded_data (this : ZookeeperClient) (data : option (list byte)) : M pid :=
  _ <- note call_parse_loaded_data ;;
  p <- new_promise ;;
  r <- parse_body this data ;;
  match r with
  | Ok _ => _ <- resolve p ;; ret p
  | Throw e =>
      _ <- console_log (zk_log ERROR (msg_exn e) "parse data") ;;
      ret p
  end.

(** ** Resuming a suspended frame *)

(** The [catch] block of [run] (lines 78-87). *)
Definition run_catch (this : ZookeeperClient) (e : Exn) : M unit :=
  _ <- console_log (zk_log ERROR (msg_exn e) "unhandled error") ;;
  pr <- retry this ;;
  await pr run_after_retry.

Definition resume (k : Cont) : M unit :=
  match k with
  | run_after_connect this p =>
      (* line 72: await this.events() *)
      r <- events this ;;
      match r with
      | Ok _ => enqueue (run_after_events this p)
      | Throw e => run_catch this e
      end
  | run_after_events this p =>
      (* line 75: await this.fetch_config() *)
      pf <- fetch_config this ;;
      await pf (run_after_fetch p)
  | run_after_fetch p => resolve p
  | run_after_retry => ret tt
  | connect_after_retry => ret tt
  | expired_after_retry => ret tt
  | retry_after_run p => resolve p
  | watch_after_fetch => ret tt
  | completion_after_parse p =>
      _ <- console_log (zk_log INFO (msg_text "parsed data") "") ;;
      resolve p
  | run_zookeeper_after_run p => resolve p
  end.

(** ** The callbacks the class hands to the library *)

(** Listener of "connected" (lines 97-106). *)
Definition on_connected_listener (p : pid) : M unit :=
  _ <- console_log (zk_log INFO (msg_text "✅ connected to zookeeper") "") ;;
  resolve p.

(** Listener of "expired" (lines 137-146). *)
Definition on_expired_listener (this : ZookeeperClient) : M unit :=
  _ <- console_log (zk_log INFO (msg_text "zookeeper session expired") "") ;;
  pr <- retry this ;;
  await pr expired_after_retry.

(** The watcher passed to [getData] (lines 180-191). *)
Definition watch_callback (this : ZookeeperClient) (event : WatchEvent) : M unit :=
  _ <- console_log (zk_log INFO (msg_event event) "event received in get data") ;;
  if (ev_type event =? 3) && String.eqb (ev_name event) "NODE_DATA_CHANGED"
  then pf <- fetch_config this ;; await pf watch_after_fetch
  else ret tt.

(** The completion callback passed to [getData] (lines 192-221); [p] is
    the promise of the [fetch_config] call that issued the read. *)
Definition completion_callback (this : ZookeeperClient) (p : pid)
    (error : option string) (data : option (list byte)) : M unit :=
  match error with
  | Some err =>
      _ <- console_log (zk_log ERROR (msg_library err) "error event received in get data") ;;
      _ <- retry this ;;
      ret tt
  | None =>
      _ <- console_log (zk_log INFO (msg_text "fetched data") "") ;;
      pp <- parse_loaded_data this data ;;
      await pp (completion_after_parse p)
  end.

(** ** The entry point (lines 288-310) *)

Definition run_zookeeper (config : ZClientConfig) : M pid :=
  _ <- note call_run_zookeeper ;;
  p <- new_promise ;;
  running <- get is_running_zookeeper ;;
  if negb running then
    r <- new_ZookeeperClient config ;;
    match r with
    | Ok zookeeperClient =>
        pr <- run zookeeperClient ;;
        _ <- await pr (run_zookeeper_after_run p) ;;
        ret p
    | Throw e =>
        _ <- console_log (zk_log ERROR (msg_run_zookeeper e) "") ;;
        _ <- reject p ;;
        ret p
    end
  else
    _ <- resolve p ;;
    ret p.

(** ** The event loop *)

(** What the library does to the class. A read completes with an error or
    with the node's data; on success the library registers the watcher
    before it calls back. A watcher fires once. *)
Inductive LibEvent : Type :=
| connected
| disconnected
| expired
| error (err : string)
| getData_done (i : nat) (err : option string) (data : option (list byte))
| watch_fired (i : nat) (event : WatchEvent).

Definition emit (ev : LibEvent) : M unit :=
  match ev with
  | connected =>
      listeners <- get (fun w => once_connected (lib w)) ;;
      _ <- modify_lib (set_once_connected []) ;;
      for_each on_connected_listener listeners
  | disconnected =>
      n <- get (fun w => on_disconnected (lib w)) ;;
      for_each
        (fun _ => console_log (zk_log INFO (msg_text "disconnected from zookeeper") ""))
        (seq 0 n)
  | expired =>
      listeners <- get (fun w => on_expired (lib w)) ;;
      for_each on_expired_listener listeners
  | error err =>
      n <- get (fun w => on_error (lib w)) ;;
      for_each
        (fun _ => console_log (zk_log INFO (msg_library err) "error on zookeeper"))
        (seq 0 n)
  | getData_done i err data =>
      request <- get (fun w => requests (lib w) !! i) ;;
      match request with
      | None => ret tt
      | Some (this, p) =>
          _ <- modify_lib (fun l => set_requests (delete i (requests l)) l) ;;
          _ <- match err with
               | Some _ => ret tt
               | None => modify_lib (fun l => set_watchers (watchers l ++ [this]) l)
               end ;;
          completion_callback this p err data
      end
  | watch_fired i event =>
      watcher <- get (fun w => watchers (lib w) !! i) ;;
      match watcher with
      | None => ret tt
      | Some this =>
          _ <- modify_lib (fun l => set_watchers (delete i (watchers l)) l) ;;
          watch_callback this event
      end
  end.

(** One turn of the process: the next job of the queue runs, the library
    emits an event, or the host calls into the module. *)
Inductive Step : Type :=
| tick
| lib_event (ev : LibEvent)
| host_run_zookeeper (config : ZClientConfig)
| host_new (config : ZClientConfig).

Definition step (s : Step) (w : World) : World :=
  match s with
  | tick =>
      match microtasks w with
      | [] => w
      | k :: ks => snd (resume k (set_microtasks ks w))
      end
  | lib_event ev => snd (emit ev w)
  | host_run_zookeeper config => snd (run_zookeeper config w)
  | host_new config => snd (new_ZookeeperClient config w)
  end.

Definition exec (script : list Step) (w : World) : World :=
  fold_left (fun w s => step s w) script w.

(** A fresh process; [fs] tells which calls into the library will throw. *)
Definition empty_library (fs : list bool) : Library :=
  {| created := 0; faults := fs; once_connected := []; on_disconnected := 0;
     on_expired := []; on_error := 0; requests := []; watchers := [] |}.

Definition fresh_process (fs : list bool) : World :=
  {| instance := None; next_oid := 0; is_running_zookeeper := false;
     env := ∅; console := []; trace := []; promises := []; waiting := [];
     microtasks := []; unhandled := []; exhausted := false;
     lib := empty_library fs |}.

(* ===================================================================== *)
(** * Part II-b. Notions used in the statements                            *)
(* ===================================================================== *)

(** The promise whose [resolve] a suspended frame holds. *)
Definition target (k : Cont) : option pid :=
  match k with
  | run_after_connect _ p => Some p
  | run_after_events _ p => Some p
  | run_after_fetch p => Some p
  | retry_after_run p => Some p
  | completion_after_parse p => Some p
  | run_zookeeper_after_run p => Some p
  | run_after_retry => None
  | connect_after_retry => None
  | expired_after_retry => None
  | watch_after_fetch => None
  end.

(** ** Invariants of the event loop, in general

    [I] is the invariant, [ok w p] says that in [w] the [resolve] of [p] may
    be handed to a frame or a callback, [okr w p] that [p] may be rejected,
    [allowed] which items may be added to the trace. [Stable] lists what
    the primitive operations must satisfy; every method of the class then
    keeps [I] (section [Invariant] in Part III). *)

Definition okc (ok : World -> pid -> Prop) (w : World) (k : Cont) : Prop :=
  forall p, target k = Some p -> ok w p.

Definition good (I : World -> Prop) (ok okr : World -> pid -> Prop)
    (w w' : World) : Prop :=
  I w' /\ (forall q, ok w q -> ok w' q) /\ (forall q, okr w q -> okr w' q).

Record Stable (I : World -> Prop) (ok okr : World -> pid -> Prop)
    (allowed : Item -> Prop) : Prop := {
  st_console : forall r w, I w -> good I ok okr w (set_console (r :: console w) w);
  st_trace : forall i w, allowed i -> I w ->
    good I ok okr w (set_trace (i :: trace w) w);
  st_new : forall w, I w ->
    good I ok okr w (snd (new_promise w))
    /\ ok (snd (new_promise w)) (length (promises w))
    /\ okr (snd (new_promise w)) (length (promises w));
  st_enqueue : forall k w, I w -> okc ok w k -> good I ok okr w (snd (enqueue k w));
  st_await : forall p k w, I w -> okc ok w k -> good I ok okr w (snd (await p k w));
  st_resolve : forall p w, I w -> ok w p -> good I ok okr w (snd (resolve p w));
  st_reject : forall p w, I w -> okr w p -> good I ok okr w (snd (reject p w));
  st_unhandled : forall e w, I w ->
    good I ok okr w (set_unhandled (e :: unhandled w) w);
  st_throws : forall w, I w -> good I ok okr w (snd (throws w));
  st_env : forall x w, I w -> good I ok okr w (set_env x w);
  st_once : forall p w, I w -> ok w p ->
    good I ok okr w
      (set_lib (set_once_connected (once_connected (lib w) ++ [p]) (lib w)) w);
  st_take_once : forall w, I w ->
    good I ok okr w (set_lib (set_once_connected [] (lib w)) w)
    /\ Forall (ok w) (once_connected (lib w));
  st_on_disconnected : forall n w, I w ->
    good I ok okr w (set_lib (set_on_disconnected n (lib w)) w);
  st_on_expired : forall x w, I w ->
    good I ok okr w (set_lib (set_on_expired x (lib w)) w);
  st_on_error : forall n w, I w ->
    good I ok okr w (set_lib (set_on_error n (lib w)) w);
  st_request : forall this p w, I w -> ok w p ->
    good I ok okr w
      (set_lib (set_requests (requests (lib w) ++ [(this, p)]) (lib w)) w);
  st_take_request : forall i this p w, I w ->
    requests (lib w) !! i = Some (this, p) ->
    good I ok okr w (set_lib (set_requests (delete i (requests (lib w))) (lib w)) w)
    /\ ok w p;
  st_watchers : forall x w, I w ->
    good I ok okr w (set_lib (set_watchers x (lib w)) w);
  st_pop : forall k ks w, I w -> microtasks w = k :: ks ->
    good I ok okr w (set_microtasks ks w) /\ okc ok w k
}.

(** [wp m w Q]: running [m] in [w] gives a result and a state that satisfy
    [Q]. *)
Definition wp {A : Type} (m : M A) (w : World) (Q : A -> World -> Prop) : Prop :=
  Q (fst (m w)) (snd (m w)).

(** Computations that keep the invariant; one that returns a promise also
    returns it [ok]. *)
Definition keeps (I : World -> Prop) (ok okr : World -> pid -> Prop)
    {A : Type} (m : M A) (w : World) : Prop :=
  wp m w (fun _ w' => good I ok okr w w').
Definition keeps_pid (I : World -> Prop) (ok okr : World -> pid -> Prop)
    (m : M pid) (w : World) : Prop :=
  wp m w (fun p w' => good I ok okr w w' /\ ok w' p).

(** The items [retry], [run] and [connect] add to the trace. *)
Definition retry_items_allowed (allowed : Item -> Prop) (this : ZookeeperClient) : Prop :=
  allowed call_retry /\ allowed call_run /\ allowed call_connect /\
  forall h, client this = Some h ->
    allowed (lib_close h) /\ allowed (lib_once h "connected") /\ allowed (lib_connect h).

(** ** Promises that can no longer be settled

    [dead D w]: the promises of [D] are pending and no job, no listener and
    no callback holds the [resolve] of one of them; a frame that does can
    only be awaiting a promise of [D]. *)

Definition free (D : list pid) (k : Cont) : Prop :=
  forall p, target k = Some p -> ~ In p D.

Record dead (D : list pid) (w : World) : Prop := {
  dead_pending : Forall (fun p => promises w !! p = Some Pending) D;
  dead_tasks : Forall (free D) (microtasks w);
  dead_once : Forall (fun p => ~ In p D) (once_connected (lib w));
  dead_requests : Forall (fun r => ~ In (snd r) D) (requests (lib w));
  dead_waiting : Forall (fun qk => In (fst qk) D \/ free D (snd qk)) (waiting w)
}.

(** A decision procedure for [dead] on a given state. *)
Definition memb (p : pid) (D : list pid) : bool := existsb (Nat.eqb p) D.

Definition freeb (D : list pid) (k : Cont) : bool :=
  match target k with
  | Some p => negb (memb p D)
  | None => true
  end.

Definition is_pending (w : World) (p : pid) : bool :=
  match promises w !! p with
  | Some Pending => true
  | _ => false
  end.

Definition deadb (D : list pid) (w : World) : bool :=
  forallb (is_pending w) D
  && forallb (freeb D) (microtasks w)
  && forallb (fun p => negb (memb p D)) (once_connected (lib w))
  && forallb (fun r => negb (memb (snd r) D)) (requests (lib w))
  && forallb (fun qk => memb (fst qk) D || freeb D (snd qk)) (waiting w).

(** ** Well-formed states: nothing refers to a promise that does not exist *)

Definition exists_in (w : World) (p : pid) : Prop := (p < length (promises w))%nat.

Record wf (w : World) : Prop := {
  wf_tasks : Forall (okc exists_in w) (microtasks w);
  wf_once : Forall (exists_in w) (once_connected (lib w));
  wf_requests : Forall (fun r => exists_in w (snd r)) (requests (lib w));
  wf_waiting : Forall (fun qk => okc exists_in w (snd qk)) (waiting w)
}.

(** A state the process can be in. *)
Definition reachable (w : World) : Prop :=
  exists fs script, w = exec script (fresh_process fs).

(** ** Reading the trace *)

(** [w'] continues [w] and [new] is what was added, most recent first. *)
Definition extends (w w' : World) (new : list Item) : Prop :=
  trace w' = new ++ trace w.

Definition is_fetch_config (i : Item) : bool :=
  match i with call_fetch_config => true | _ => false end.
Definition is_getData (i : Item) : bool :=
  match i with lib_getData _ _ => true | _ => false end.
Definition is_createClient (i : Item) : bool :=
  match i with lib_createClient _ _ _ => true | _ => false end.
Definition is_call_run (i : Item) : bool :=
  match i with call_run => true | _ => false end.
Definition is_call_constructor (i : Item) : bool :=
  match i with call_constructor => true | _ => false end.
Definition is_env_set (i : Item) : bool :=
  match i with env_set _ _ => true | _ => false end.

Definition count (f : Item -> bool) (l : list Item) : nat :=
  length (List.filter f l).

(** The handle a call into the library is made on. *)
Definition handle_of (i : Item) : option nat :=
  match i with
  | lib_addAuthInfo h _ _ => Some h
  | lib_once h _ => Some h
  | lib_on h _ => Some h
  | lib_connect h => Some h
  | lib_close h => Some h
  | lib_getData h _ => Some h
  | _ => None
  end.

(** What [retry] may add to the trace when it runs on handle [h]: calls of
    [retry], [run] and [connect], and calls into the library on [h] that
    close it, listen for "connected" or connect. *)
Definition retry_item (h : nat) (i : Item) : Prop :=
  match i with
  | call_retry | call_run | call_connect => True
  | lib_close h' => h' = h
  | lib_once h' ev => h' = h /\ ev = "connected"%string
  | lib_connect h' => h' = h
  | _ => False
  end.

(** The entries [forEach] writes before it stops, and the exception that
    stops it, if any. *)
Fixpoint applied_entries (this : ZookeeperClient) (items : list jsstring)
    : list (jsstring * jsstring) * option Exn :=
  match items with
  | [] => ([], None)
  | item :: rest =>
      match item_entry this item with
      | Ok entry =>
          let (entries, stop) := applied_entries this rest in
          (entry :: entries, stop)
      | Throw e => ([], Some e)
      end
  end.

Definition entry_item (entry : jsstring * jsstring) : Item :=
  env_set (fst entry) (snd entry).

Definition write_entry (m : gmap (list N) (list N)) (entry : jsstring * jsstring)
    : gmap (list N) (list N) :=
  setenv (env_text (fst entry)) (env_text (snd entry)) m.

(** What the [try] block of [parse_loaded_data] does with a payload. *)
Definition payload_outcome (this : ZookeeperClient) (data : option (list byte))
    : list (jsstring * jsstring) * option Exn :=
  match data with
  | None => ([], Some (TypeError_undefined "toString"))
  | Some buf => applied_entries this (parsed_data buf)
  end.

(** The trivial side conditions. *)
Definition yes (w : World) (p : pid) : Prop := True.
Definition any_item (i : Item) : Prop := True.

(** [w] continues [w0] with items that are all [allowed]. *)
Definition trace_extends (allowed : Item -> Prop) (w0 w : World) : Prop :=
  exists new, trace w = new ++ trace w0 /\ Forall allowed new.

(** The console of [w] continues that of [w0]. *)
Definition console_extends (w0 w : World) : Prop :=
  exists new, console w = new ++ console w0.

(** No promise of [w0] has been rejected since. *)
Definition no_new_rejection (w0 w : World) : Prop :=
  (length (promises w0) <= length (promises w))%nat
  /\ forall q, (q < length (promises w0))%nat ->
       promises w !! q = Some Rejected -> promises w0 !! q = Some Rejected.

Definition made_since (w0 w : World) (p : pid) : Prop :=
  (length (promises w0) <= p)%nat.

(** [p] is not one of the promises of [D]. *)
Definition outside (D : list pid) (w : World) (p : pid) : Prop := ~ In p D.

(** The state after the given entries have been written, in order. *)
Definition apply_entries (entries : list (jsstring * jsstring)) (w : World) : World :=
  fold_left (fun w entry => snd (process_env_set (fst entry) (snd entry) w)) entries w.

(** A handle that is used again after it was closed; [items] is in the
    order of time. *)
Definition used_after_close (h : nat) (items : list Item) : Prop :=
  exists before after later,
    items = before ++ lib_close h :: after /\ In later after
    /\ handle_of later = Some h.

(** How many entries of [faults] are still to come. *)
Definition remaining (w : World) : nat := length (faults (lib w)).

(** [w'] is no more exhausted than [w] and has no more faults to come. *)
Definition spends (w w' : World) : Prop :=
  exhausted w' = exhausted w /\ (remaining w' <= remaining w)%nat.

(** ** Examples used to instantiate the statements *)

Definition example_key_hex : jsstring :=
  lit "000102030405060708090a0b0c0d0e0f101112131415161718191a1b1c1d1e1f".
Definition example_iv_hex : jsstring := lit "000102030405060708090a0b0c0d0e0f".

Definition example_config : ZClientConfig :=
  {| cfg_client := lit "app"; connectionString := lit "zk:2181";
     cfg_username := lit "user"; cfg_password := lit "pass";
     cfg_path := lit "/config"; encryptionSecretKey := example_key_hex;
     cfg_logger := None; onUpdateConfigurations := None |}.

(** Another configuration, for a second construction attempt. *)
Definition other_config : ZClientConfig :=
  {| cfg_client := lit "other"; connectionString := lit "elsewhere:2181";
     cfg_username := lit "root"; cfg_password := lit "secret";
     cfg_path := lit "/other"; encryptionSecretKey := [];
     cfg_logger := None; onUpdateConfigurations := None |}.

(** The object the constructor builds from [example_config] in a fresh
    process. *)
Definition example_client : ZookeeperClient :=
  {| oid := 0; client := Some 0%nat;
     connection_string := lit "zk:2181"; username := lit "user";
     password := lit "pass"; path := lit "/config";
     encryption_secret_key := example_key_hex;
     logger := None; on_update_configurations := None |}.

(** The payload of the scenario of the specification. *)
Definition scenario_payload : list byte :=
  Buffer_from_utf8
    (lit "A=1" ++ CRLF ++ lit "#comment" ++ CRLF ++ CRLF ++ lit "B=2" ++ CRLF).

(** How many times a watch notification of a kind makes the client fetch
    again. *)
Definition refetches (kind : EventKind) : nat :=
  match kind with
  | NODE_DATA_CHANGED => 1
  | _ => 0
  end.

Definition is_connect (i : Item) : bool :=
  match i with lib_connect _ => true | _ => false end.
Definition is_call_retry (i : Item) : bool :=
  match i with call_retry => true | _ => false end.

(** A payload whose second line has no equals sign. *)
Definition broken_payload : list byte :=
  Buffer_from_utf8 (lit "A=1" ++ CRLF ++ lit "B" ++ CRLF ++ lit "C=3").

(** ** Scenarios *)

(** The entry point is called, and called again while the first cycle is
    waiting for the connection. *)
Definition first_call : list Step := [host_run_zookeeper example_config].
Definition duplicate_call : list Step := [host_run_zookeeper example_config].

(** A complete first cycle, after which the session expires. *)
Definition expired_scenario : list Step :=
  [ host_run_zookeeper example_config; lib_event connected; tick; tick;
    lib_event (getData_done 0 None (Some scenario_payload)); tick; tick; tick;
    lib_event expired ].

(** The library accepts the four calls up to [connect] and throws at the
    fifth, the registration of the first listener in [events]. *)
Definition events_fault : list bool := [false; false; false; false; true].

(** The first cycle fails in [events]; the cycle started by [retry] then
    runs to its end. *)
Definition failing_events_scenario : list Step :=
  [ host_run_zookeeper example_config; lib_event connected; tick;
    lib_event connected; tick; tick;
    lib_event (getData_done 0 None (Some scenario_payload));
    tick; tick; tick; tick ].

(** ** What a computation adds to a log

    [f] reads a log off the state, most recent entry first ([trace] or
    [console]). [grows f m Q]: from every state, [m] only adds entries
    to the log, and [Q] holds of its result and of what it added. *)
Definition grows {X A : Type} (f : World -> list X) (m : M A)
    (Q : A -> list X -> Prop) : Prop :=
  forall w, exists new, f (snd (m w)) = new ++ f w /\ Q (fst (m w)) new.

(** [m] leaves the log alone. *)
Definition frames {X A : Type} (f : World -> list X) (m : M A) : Prop :=
  forall w, f (snd (m w)) = f w.

(** The state in which the frame of [run] is resumed after [connect], in
    the scenario above: the job has been taken off the queue. *)
Definition before_events : World :=
  set_microtasks []
    (exec [host_run_zookeeper example_config; lib_event connected]
       (fresh_process events_fault)).

(** ** Well-formed strings

    A Unicode scalar value, and a string of UTF-16 code units in which
    every surrogate is half of a pair: the strings that [Buffer.from] and
    [toString] take to bytes and back unchanged. *)
Definition is_scalar (cp : N) : bool :=
  (cp <? 55296) || ((57344 <=? cp) && (cp <? 1114112)).

Fixpoint well_formed (s : jsstring) : bool :=
  match s with
  | [] => true
  | c :: s' =>
      if (55296 <=? c) && (c <=? 56319) then
        match s' with
        | d :: s'' => (56320 <=? d) && (d <=? 57343) && well_formed s''
        | [] => false
        end
      else negb ((56320 <=? c) && (c <=? 57343)) && (c <? 65536) && well_formed s'
  end.

(** ** Notions used for the parser *)

(** The value of the last entry written under [k], if any. *)
Fixpoint last_value (k : jsstring) (entries : list (jsstring * jsstring))
    : option jsstring :=
  match entries with
  | [] => None
  | entry :: rest =>
      match last_value k rest with
      | Some v => Some v
      | None => if bool_decide (fst entry = k) then Some (snd entry) else None
      end
  end.

(** What the environment keeps of an entry: the name and the value as
    [setenv] receives them, unless it refuses the name. *)
Definition stored (entry : jsstring * jsstring) : option (jsstring * jsstring) :=
  if env_name_ok (env_text (fst entry))
  then Some (env_text (fst entry), env_text (snd entry))
  else None.

(** [sep] occurs somewhere in [s]. *)
Fixpoint occursb (sep s : jsstring) : bool :=
  startsWith s sep
  || match s with
     | [] => false
     | _ :: s' => occursb sep s'
     end.

(** The object the constructor builds from [config] in a fresh process. *)
Definition object_of (config : ZClientConfig) : ZookeeperClient :=
  {| oid := 0; client := Some 0%nat;
     connection_string := connectionString config;
     username := cfg_username config;
     password := cfg_password config;
     path := cfg_path config;
     encryption_secret_key := encryptionSecretKey config;
     logger := cfg_logger config;
     on_update_configurations := onUpdateConfigurations config |}.

(** ** The singleton and the client of the library *)

(** How the registered instance and the number of clients the library has
    handed out go together: no instance and no client; an instance
    without a client (the call of [createClient] threw); or an instance
    that holds the only client, handle 0. *)
Definition singleton_state (x : nat * option ZookeeperClient) : Prop :=
  match snd x with
  | None => fst x = 0%nat
  | Some this =>
      (client this = None /\ fst x = 0%nat)
      \/ (client this = Some 0%nat /\ fst x = 1%nat)
  end.

(** ** One client for the whole process *)

(** The object a suspended frame goes on with. *)
Definition subject (k : Cont) : option ZookeeperClient :=
  match k with
  | run_after_connect this _ => Some this
  | run_after_events this _ => Some this
  | _ => None
  end.

(** An object that holds no client, or the client with handle 0. *)
Definition own (o : ZookeeperClient) : Prop :=
  client o = None \/ client o = Some 0%nat.

(** A call into the library that is made on handle [h], or an item that
    is no call into the library. *)
Definition on_handle (h : nat) (i : Item) : Prop :=
  match i with
  | lib_createClient h' _ _ => h' = h
  | _ => forall h', handle_of i = Some h' -> h' = h
  end.

(** Every object the process holds (the registered instance, the listeners and
    callbacks the library keeps, the suspended frames) holds the client
    with handle 0 or none, and every call into the library so far was
    made on that handle. *)
Record one_handle (w : World) : Prop := {
  oh_singleton : singleton_state (created (lib w), instance w);
  oh_expired : Forall own (on_expired (lib w));
  oh_requests : Forall (fun r => own (fst r)) (requests (lib w));
  oh_watchers : Forall own (watchers (lib w));
  oh_microtasks :
    Forall (fun k => forall o, subject k = Some o -> own o) (microtasks w);
  oh_waiting :
    Forall (fun pk => forall o, subject (snd pk) = Some o -> own o) (waiting w);
  oh_trace : Forall (on_handle 0) (trace w)
}.

(** A first cycle in which nothing goes wrong: the entry point is called,
    the library connects, and the read completes with the data [buf]. *)
Definition first_cycle (config : ZClientConfig) (buf : list byte) : list Step :=
  [ host_run_zookeeper config; lib_event connected; tick; tick;
    lib_event (getData_done 0 None (Some buf)); tick; tick; tick ].

(** The state of a first cycle that waits for its read to complete. *)
Definition waiting_for_data : World :=
  exec [host_run_zookeeper example_config; lib_event connected; tick; tick]
    (fresh_process []).

(** The state of a process whose cycles have all completed: the object
    [this] is registered and holds the only client, every promise is
    fulfilled, nothing is scheduled, no read is outstanding, and one watcher
    is armed. [m], [c] and [t] are the environment, the console and the
    trace. *)
Definition settled (this : ZookeeperClient) (m : gmap (list N) (list N))
    (c : list LogRecord) (t : list Item) (n : nat) : World :=
  {| instance := Some this; next_oid := 1; is_running_zookeeper := false;
     env := m; console := c; trace := t;
     promises := repeat Fulfilled n; waiting := []; microtasks := [];
     unhandled := []; exhausted := false;
     lib := {| created := 1; faults := []; once_connected := [];
               on_disconnected := 1; on_expired := [this]; on_error := 1;
               requests := []; watchers := [this] |} |}.

(** The library reports that the data of [node] changed, and the read that
    follows completes with the data [buf]. *)
Definition data_change (node : jsstring) (buf : list byte) : list Step :=
  [ lib_event (watch_fired 0 (watch_event NODE_DATA_CHANGED node));
    lib_event (getData_done 0 None (Some buf)); tick; tick ].

(* ===================================================================== *)
(** * Part III. Properties                                                 *)
(* ===================================================================== *)

Local Close Scope N_scope.
Local Open Scope nat_scope.

(** ** AES-256-CBC: decryption undoes encryption *)

Ltac bits_of b :=
  let a0 := fresh "a" in let a1 := fresh "a" in let a2 := fresh "a" in
  let a3 := fresh "a" in let a4 := fresh "a" in let a5 := fresh "a" in
  let a6 := fresh "a" in let a7 := fresh "a" in
  destruct b as [a0 [a1 [a2 [a3 [a4 [a5 [a6 a7]]]]]]].

Ltac bits_eq :=
  cbv [mix_column8 inv_mix_column8 mul2_8 mul3_8 mul9_8 mul11_8 mul13_8 mul14_8 xor8 xtime8];
  repeat match goal with |- (_, _) = (_, _) => apply f_equal2 end; btauto.

Lemma xor8_involutive (a k : bits8) : xor8 (xor8 a k) k = a.
Proof. bits_of a; bits_of k; bits_eq. Qed.

Lemma bxor_involutive (a k : byte) : bxor (bxor a k) k = a.
Proof.
  unfold bxor, lift2. rewrite Byte.to_bits_of_bits, xor8_involutive.
  apply Byte.of_bits_to_bits.
Qed.

Lemma inv_mix_column8_mix_column8 (a b c d : bits8) :
  (let '(a', b', c', d') := mix_column8 a b c d in inv_mix_column8 a' b' c' d')
  = (a, b, c, d).
Proof.
  bits_of a; bits_of b; bits_of c; bits_of d.
  bits_eq.
Qed.

Lemma inv_mix_column_mix_column (w : word) : inv_mix_column (mix_column w) = w.
Proof.
  destruct w as [[[a b] c] d].
  pose proof (inv_mix_column8_mix_column8 (Byte.to_bits a) (Byte.to_bits b)
                (Byte.to_bits c) (Byte.to_bits d)) as H.
  unfold mix_column, inv_mix_column.
  destruct (mix_column8 _ _ _ _) as [[[a' b'] c'] d'].
  cbn [word_of_bits]. rewrite !Byte.to_bits_of_bits, H.
  cbn [word_of_bits]. now rewrite !Byte.of_bits_to_bits.
Qed.

Lemma inv_sbox_sbox (a : byte) : inv_sbox (sbox a) = a.
Proof. destruct a; reflexivity. Qed.

Lemma xor_word_involutive (u k : word) : xor_word (xor_word u k) k = u.
Proof.
  destruct u as [[[a b] c] d], k as [[[a' b'] c'] d'].
  cbn [xor_word]. now rewrite !bxor_involutive.
Qed.

Lemma add_round_key_involutive (s k : state) :
  add_round_key (add_round_key s k) k = s.
Proof.
  destruct s as [[[s0 s1] s2] s3], k as [[[k0 k1] k2] k3].
  cbn [add_round_key]. now rewrite !xor_word_involutive.
Qed.

Lemma inv_sub_bytes_sub_bytes (s : state) : inv_sub_bytes (sub_bytes s) = s.
Proof.
  destruct s as [[[[[[a0 a1] a2] a3] [[[b0 b1] b2] b3]]
                   [[[c0 c1] c2] c3]] [[[d0 d1] d2] d3]].
  cbn [inv_sub_bytes sub_bytes map_state map_word].
  now rewrite !inv_sbox_sbox.
Qed.

Lemma inv_shift_rows_shift_rows (s : state) : inv_shift_rows (shift_rows s) = s.
Proof.
  destruct s as [[[[[[a0 a1] a2] a3] [[[b0 b1] b2] b3]]
                   [[[c0 c1] c2] c3]] [[[d0 d1] d2] d3]].
  reflexivity.
Qed.

Lemma inv_mix_columns_mix_columns (s : state) : inv_mix_columns (mix_columns s) = s.
Proof.
  destruct s as [[[c0 c1] c2] c3].
  cbn [inv_mix_columns mix_columns map_state].
  now rewrite !inv_mix_column_mix_column.
Qed.

Lemma inv_round_round (s k : state) : inv_round (round s k) k = s.
Proof.
  unfold inv_round, round.
  now rewrite add_round_key_involutive, inv_mix_columns_mix_columns,
    inv_shift_rows_shift_rows, inv_sub_bytes_sub_bytes.
Qed.

Lemma fold_inv_round (middle : list state) (s : state) :
  fold_left inv_round (rev middle) (fold_left round middle s) = s.
Proof.
  revert s. induction middle as [|k middle IH]; intros s; [reflexivity|].
  cbn [fold_left rev]. rewrite fold_left_app. cbn [fold_left].
  now rewrite IH, inv_round_round.
Qed.

Lemma inv_cipher_cipher (k0 : state) (middle : list state) (klast s : state) :
  inv_cipher k0 middle klast (cipher k0 middle klast s) = s.
Proof.
  unfold inv_cipher, cipher.
  now rewrite add_round_key_involutive, inv_shift_rows_shift_rows,
    inv_sub_bytes_sub_bytes, fold_inv_round, add_round_key_involutive.
Qed.

Lemma aes_decrypt_encrypt_block (ks : list state) (s : state) :
  aes_decrypt_block ks (aes_encrypt_block ks s) = s.
Proof.
  unfold aes_decrypt_block, aes_encrypt_block.
  destruct (split_schedule ks) as [[k0 middle] klast].
  apply inv_cipher_cipher.
Qed.

Lemma cbc_decrypt_encrypt (ks : list state) (prev : state) (bs : list state) :
  cbc_decrypt_blocks ks prev (cbc_encrypt_blocks ks prev bs) = bs.
Proof.
  revert prev. induction bs as [|b bs IH]; intros prev; [reflexivity|].
  cbn [cbc_encrypt_blocks cbc_decrypt_blocks].
  now rewrite aes_decrypt_encrypt_block, add_round_key_involutive, IH.
Qed.

Lemma blocks_of_bytes_of_blocks (bs : list state) :
  blocks_of (bytes_of_blocks bs) = Some bs.
Proof.
  induction bs as [|b bs IH]; [reflexivity|].
  destruct b as [[[[[[a0 a1] a2] a3] [[[b0 b1] b2] b3]]
                   [[[c0 c1] c2] c3]] [[[d0 d1] d2] d3]].
  unfold bytes_of_blocks in *. cbn [map concat state_to_list app blocks_of].
  now rewrite IH.
Qed.

Lemma bytes_of_blocks_of_le (n : nat) (l : list byte) (bs : list state) :
  (length l <= n)%nat -> blocks_of l = Some bs -> bytes_of_blocks bs = l.
Proof.
  revert l bs. induction n as [|n IH]; intros l bs Hn H.
  - destruct l; [now inversion H | cbn in Hn; lia].
  - destruct l as [|a0 l]; [now inversion H|].
    do 15 (destruct l as [|? l]; [discriminate H|]).
    cbn [blocks_of] in H.
    destruct (blocks_of l) as [bs'|] eqn:E; [|discriminate H].
    inversion H; subst bs. unfold bytes_of_blocks.
    cbn [map concat state_to_list app].
    do 16 f_equal.
    apply IH; [cbn in Hn; lia | assumption].
Qed.

Lemma bytes_of_blocks_of (l : list byte) (bs : list state) :
  blocks_of l = Some bs -> bytes_of_blocks bs = l.
Proof. apply (bytes_of_blocks_of_le (length l)). lia. Qed.

Lemma cbc_encrypt_blocks_nonempty ks prev bs :
  bs <> [] -> cbc_encrypt_blocks ks prev bs <> [].
Proof. destruct bs; [congruence | discriminate]. Qed.

Lemma byte_eqb_refl (b : byte) : byte_eqb b b = true.
Proof. destruct b; reflexivity. Qed.

Lemma pad_byte (n : nat) :
  (n <= 16)%nat ->
  Byte.to_nat (match Byte.of_nat n with Some b => b | None => x00 end) = n.
Proof.
  intros H. do 17 (destruct n as [|n]; [reflexivity|]). lia.
Qed.

Lemma pkcs7_unpad_pad (pt : list byte) : pkcs7_unpad (pkcs7_pad pt) = Some pt.
Proof.
  unfold pkcs7_pad, pkcs7_unpad.
  remember (16 - length pt mod 16)%nat as n eqn:En.
  assert (Hn : (1 <= n <= 16)%nat).
  { pose proof (Nat.mod_upper_bound (length pt) 16). lia. }
  remember (match Byte.of_nat n with Some b => b | None => x00 end) as b eqn:Eb.
  assert (Hb : Byte.to_nat b = n) by (subst b; apply pad_byte; lia).
  clear En Eb.
  rewrite rev_app_distr, rev_repeat.
  destruct n as [|n']; [lia|].
  cbn [repeat app]. rewrite Hb.
  change (b :: repeat b n') with (repeat b (S n')).
  rewrite length_app, repeat_length.
  replace (length pt + S n' - S n')%nat with (length pt) by lia.
  replace ((1 <=? S n') && (S n' <=? 16) && (S n' <=? length pt + S n'))%nat
    with true.
  2:{ symmetry. rewrite !andb_true_iff. repeat split; apply Nat.leb_le; lia. }
  rewrite firstn_app, Nat.sub_diag, firstn_all, firstn_O, app_nil_r.
  rewrite skipn_app, Nat.sub_diag, skipn_all, skipn_O. cbn [app].
  replace (forallb (byte_eqb b) (repeat b (S n'))) with true; [reflexivity|].
  symmetry. apply forallb_forall. intros x Hx.
  apply repeat_spec in Hx. subst x. apply byte_eqb_refl.
Qed.

Lemma blocks_of_total (n : nat) (l : list byte) :
  length l = (16 * n)%nat -> exists bs, blocks_of l = Some bs /\ length bs = n.
Proof.
  revert l. induction n as [|n IH]; intros l H.
  - destruct l; [eexists; split; reflexivity | cbn in H; lia].
  - do 16 (destruct l as [|? l]; [cbn in H; lia|]).
    destruct (IH l) as [bs [Hbs Hlen]]; [cbn in H; lia|].
    cbn [blocks_of]. rewrite Hbs. eexists; split; [reflexivity|].
    cbn. now rewrite Hlen.
Qed.

Lemma pkcs7_pad_length (pt : list byte) :
  exists n, length (pkcs7_pad pt) = (16 * S n)%nat.
Proof.
  unfold pkcs7_pad. rewrite length_app, repeat_length.
  exists (length pt / 16)%nat.
  pose proof (Nat.div_mod_eq (length pt) 16).
  pose proof (Nat.mod_upper_bound (length pt) 16). lia.
Qed.

(** Decryption undoes encryption, for every key, IV and plaintext the
    cipher accepts. *)
Lemma aes_256_cbc_decrypt_encrypt (key iv pt ct : list byte) :
  aes_256_cbc_encrypt key iv pt = Some ct ->
  aes_256_cbc_decrypt key iv ct = Some pt.
Proof.
  unfold aes_256_cbc_encrypt, aes_256_cbc_decrypt.
  destruct (negb (length key =? 32)%nat); [discriminate|].
  destruct (blocks_of iv) as [[|iv0 [|? ?]]|]; try discriminate.
  destruct (pkcs7_pad_length pt) as [n Hn].
  destruct (blocks_of_total _ _ Hn) as [bs [Hbs Hlen]].
  rewrite Hbs. intros H; inversion H; subst ct; clear H.
  rewrite blocks_of_bytes_of_blocks.
  destruct bs as [|b bs]; [discriminate Hlen|].
  cbn [cbc_encrypt_blocks].
  change (aes_encrypt_block (key_schedule key) (add_round_key b iv0)
            :: cbc_encrypt_blocks (key_schedule key)
                 (aes_encrypt_block (key_schedule key) (add_round_key b iv0)) bs)
    with (cbc_encrypt_blocks (key_schedule key) iv0 (b :: bs)).
  rewrite cbc_decrypt_encrypt.
  rewrite (bytes_of_blocks_of _ _ Hbs). apply pkcs7_unpad_pad.
Qed.


(** ** Strings and codecs *)

Lemma startsWith_app (p s : jsstring) : startsWith (p ++ s) p = true.
Proof.
  induction p as [|c p IH]; [reflexivity|].
  cbn [app startsWith]. now rewrite N.eqb_refl, IH.
Qed.

Lemma replace_unfold (s pat rep : jsstring) :
  replace s pat rep =
  if startsWith s pat then rep ++ skipn (length pat) s
  else match s with
       | [] => []
       | c :: s' => c :: replace s' pat rep
       end.
Proof. destruct s; reflexivity. Qed.

(** Replacing a prefix by the empty string removes it. *)
Lemma replace_prefix (p s : jsstring) : replace (p ++ s) p [] = s.
Proof.
  rewrite replace_unfold, startsWith_app. cbn [app].
  rewrite skipn_app, Nat.sub_diag, skipn_all. reflexivity.
Qed.

Lemma slice_to_app (n : nat) (a b : jsstring) :
  length a = n -> slice_to n (a ++ b) = a.
Proof.
  intros <-. unfold slice_to.
  rewrite firstn_app, Nat.sub_diag, firstn_all, firstn_O. apply app_nil_r.
Qed.

Lemma slice_from_app (n : nat) (a b : jsstring) :
  length a = n -> slice_from n (a ++ b) = b.
Proof.
  intros <-. unfold slice_from.
  rewrite skipn_app, Nat.sub_diag, skipn_all. reflexivity.
Qed.

(** ** UTF-8: encoding and decoding a well-formed string *)

Section Utf8.

Local Open Scope N_scope.
Local Ltac Zify.zify_post_hook ::= Z.to_euclidean_division_equations.

Lemma to_N_byte_of_N (n : N) : n < 256 -> Byte.to_N (byte_of_N n) = n.
Proof.
  intros H. unfold byte_of_N. rewrite N.mod_small by exact H.
  destruct (Byte.of_N n) as [b|] eqn:E.
  - now apply Byte.to_of_N.
  - apply Byte.of_N_None_iff in E. lia.
Qed.

Lemma lor_shiftl_6 (x l : N) : l < 64 -> N.lor (N.shiftl x 6) l = 64 * x + l.
Proof.
  intros H.
  assert (Hz : N.land (N.shiftl x 6) l = 0).
  { apply N.bits_inj. intros n. rewrite N.land_spec, N.bits_0.
    destruct (N.lt_ge_cases n 6) as [Hn|Hn].
    - now rewrite N.shiftl_spec_low.
    - rewrite <- (N.mod_small l (2 ^ 6)) by exact H.
      rewrite N.mod_pow2_bits_high by exact Hn. apply andb_false_r. }
  rewrite <- N.lxor_lor, <- N.add_nocarry_lxor by exact Hz.
  rewrite N.shiftl_mul_pow2. change (2 ^ 6) with 64. lia.
Qed.

Lemma land_63 (n : N) : N.land n 63 = n mod 64.
Proof. change 63 with (N.ones 6). now rewrite N.land_ones. Qed.
Lemma land_31 (n : N) : N.land n 31 = n mod 32.
Proof. change 31 with (N.ones 5). now rewrite N.land_ones. Qed.
Lemma land_15 (n : N) : N.land n 15 = n mod 16.
Proof. change 15 with (N.ones 4). now rewrite N.land_ones. Qed.
Lemma land_7 (n : N) : N.land n 7 = n mod 8.
Proof. change 7 with (N.ones 3). now rewrite N.land_ones. Qed.
Lemma land_1023 (n : N) : N.land n 1023 = n mod 1024.
Proof. change 1023 with (N.ones 10). now rewrite N.land_ones. Qed.

Lemma shiftr_6 (n : N) : N.shiftr n 6 = n / 64.
Proof. now rewrite N.shiftr_div_pow2. Qed.
Lemma shiftr_10 (n : N) : N.shiftr n 10 = n / 1024.
Proof. now rewrite N.shiftr_div_pow2. Qed.
Lemma shiftr_12 (n : N) : N.shiftr n 12 = n / 4096.
Proof. now rewrite N.shiftr_div_pow2. Qed.
Lemma shiftr_18 (n : N) : N.shiftr n 18 = n / 262144.
Proof. now rewrite N.shiftr_div_pow2. Qed.

(** One continuation byte. *)
Lemma utf8_continuation (cp : N) (needed : nat) (lo hi l : N)
    (rest : list byte) :
  l < 64 -> lo <= 128 + l -> 128 + l <= hi ->
  utf8_code_points (Some (cp, needed, lo, hi)) (byte_of_N (128 + l) :: rest)
  = match needed with
    | S (S k) => utf8_code_points (Some (64 * cp + l, S k, 128, 191)) rest
    | _ => (64 * cp + l) :: utf8_code_points None rest
    end.
Proof.
  intros Hl Hlo Hhi. cbn [utf8_code_points].
  rewrite to_N_byte_of_N by lia.
  replace ((lo <=? 128 + l) && (128 + l <=? hi)) with true
    by (symmetry; apply andb_true_iff; split; apply N.leb_le; assumption).
  rewrite land_63, lor_shiftl_6 by lia.
  replace ((128 + l) mod 64) with l by lia.
  reflexivity.
Qed.

Lemma utf8_start (b : byte) (rest : list byte) :
  utf8_code_points None (b :: rest)
  = fst (utf8_lead (Byte.to_N b))
    ++ utf8_code_points (snd (utf8_lead (Byte.to_N b))) rest.
Proof. cbn [utf8_code_points]. now destruct (utf8_lead _). Qed.

Ltac decide_leb :=
  repeat match goal with
  | |- context [?a <=? ?b] =>
      first [ replace (a <=? b) with true by (symmetry; apply N.leb_le; lia)
            | replace (a <=? b) with false by (symmetry; apply N.leb_gt; lia) ]
  | |- context [?a =? ?b] =>
      first [ replace (a =? b) with true by (symmetry; apply N.eqb_eq; lia)
            | replace (a =? b) with false by (symmetry; apply N.eqb_neq; lia) ]
  end.

Lemma utf8_decode_encode (cp : N) (rest : list byte) :
  is_scalar cp = true ->
  utf8_code_points None (utf8_of_code_point cp ++ rest)
  = cp :: utf8_code_points None rest.
Proof.
  unfold is_scalar, utf8_of_code_point. intros Hs.
  assert (Hcp : cp < 55296 \/ 57344 <= cp < 1114112).
  { apply orb_true_iff in Hs. destruct Hs as [Hs|Hs]; [left; now apply N.ltb_lt|].
    apply andb_true_iff in Hs. destruct Hs as [Ha Hb].
    apply N.leb_le in Ha. apply N.ltb_lt in Hb. right. lia. }
  clear Hs.
  rewrite ?shiftr_6, ?shiftr_12, ?shiftr_18, ?land_63.
  destruct (N.ltb_spec cp 128) as [H1|H1];
    [|destruct (N.ltb_spec cp 2048) as [H2|H2];
      [|destruct (N.ltb_spec cp 65536) as [H3|H3]]];
    cbn [app]; rewrite utf8_start, to_N_byte_of_N by lia; unfold utf8_lead.
  - decide_leb. reflexivity.
  - decide_leb. cbn [andb fst snd app]. rewrite land_31.
    rewrite utf8_continuation by lia. f_equal. lia.
  - decide_leb. cbn [andb fst snd app]. rewrite land_15.
    destruct (N.eqb_spec (224 + cp / 4096) 224), (N.eqb_spec (224 + cp / 4096) 237);
      rewrite utf8_continuation by lia; rewrite utf8_continuation by lia;
      f_equal; lia.
  - decide_leb. cbn [andb fst snd app]. rewrite land_7.
    destruct (N.eqb_spec (240 + cp / 262144) 240), (N.eqb_spec (240 + cp / 262144) 244);
      rewrite utf8_continuation by lia; rewrite utf8_continuation by lia;
      rewrite utf8_continuation by lia; f_equal; lia.
Qed.

Lemma utf8_decode_encode_all (cps : list N) :
  forallb is_scalar cps = true ->
  utf8_code_points None (flat_map utf8_of_code_point cps) = cps.
Proof.
  induction cps as [|cp cps IH]; [reflexivity|].
  cbn [forallb flat_map]. intros H. apply andb_true_iff in H. destruct H as [H1 H2].
  rewrite utf8_decode_encode by exact H1. now rewrite IH.
Qed.

(** A well-formed string is the UTF-16 form of its code points, which are
    scalar values. *)
Lemma well_formed_code_points (s : jsstring) :
  well_formed s = true ->
  forallb is_scalar (code_points_of s) = true
  /\ flat_map utf16_of_code_point (code_points_of s) = s.
Proof.
  remember (length s) as n eqn:Hn. revert s Hn.
  induction n as [n IH] using lt_wf_ind. intros s Hn.
  destruct s as [|c s]; [split; reflexivity|].
  cbn [well_formed code_points_of].
  destruct ((55296 <=? c) && (c <=? 56319)) eqn:Hhigh.
  - destruct s as [|d s]; [discriminate|].
    intros H. apply andb_true_iff in H. destruct H as [Hlow Hwf].
    rewrite Hlow.
    apply andb_true_iff in Hhigh. destruct Hhigh as [Hc1 Hc2].
    apply andb_true_iff in Hlow. destruct Hlow as [Hd1 Hd2].
    apply N.leb_le in Hc1, Hc2, Hd1, Hd2.
    destruct (IH (length s)) with (s := s) as [IH1 IH2];
      [cbn [length] in Hn; lia | reflexivity | exact Hwf |].
    cbn [forallb flat_map]. rewrite IH1, IH2. split.
    + rewrite andb_true_r. unfold is_scalar. apply orb_true_iff. right.
      apply andb_true_iff. split; [apply N.leb_le | apply N.ltb_lt]; lia.
    + unfold utf16_of_code_point.
      replace (65536 + (c - 55296) * 1024 + (d - 56320) <? 65536) with false
        by (symmetry; apply N.ltb_ge; lia).
      rewrite shiftr_10, land_1023. cbn [app]. f_equal; [lia|]. f_equal. lia.
  - destruct ((56320 <=? c) && (c <=? 57343)) eqn:Hlow; [discriminate|].
    cbn [negb andb]. intros H. apply andb_true_iff in H. destruct H as [Hc Hwf].
    apply N.ltb_lt in Hc.
    destruct (IH (length s)) with (s := s) as [IH1 IH2];
      [cbn [length] in Hn; lia | reflexivity | exact Hwf |].
    cbn [forallb flat_map]. rewrite IH1, IH2. split.
    + rewrite andb_true_r. unfold is_scalar.
      apply andb_false_iff in Hhigh. apply andb_false_iff in Hlow.
      rewrite !N.leb_gt in Hhigh, Hlow.
      destruct (N.ltb_spec c 55296) as [Hb|Hb]; [reflexivity|]. cbn [orb].
      apply andb_true_iff. split; [apply N.leb_le | apply N.ltb_lt]; lia.
    + unfold utf16_of_code_point.
      replace (c <? 65536) with true by (symmetry; apply N.ltb_lt; lia).
      reflexivity.
Qed.

(** [Buffer.from(s).toString()] is [s] when [s] is well formed. *)
Lemma toString_utf8_Buffer_from (s : jsstring) :
  well_formed s = true -> toString_utf8 (Buffer_from_utf8 s) = s.
Proof.
  intros H. destruct (well_formed_code_points s H) as [Hs Hr].
  unfold toString_utf8, Buffer_from_utf8.
  now rewrite utf8_decode_encode_all.
Qed.

End Utf8.

(** ** Stepping through a computation *)

Lemma bind_eq {A B : Type} (m : M A) (k : A -> M B) (w : World) :
  bind m k w = k (fst (m w)) (snd (m w)).
Proof. unfold bind. now destruct (m w). Qed.

Lemma wp_bind {A B : Type} (m : M A) (k : A -> M B) w Q :
  wp m w (fun a w' => wp (k a) w' Q) -> wp (bind m k) w Q.
Proof. unfold wp. now rewrite bind_eq. Qed.

Lemma wp_conseq {A : Type} (m : M A) w (R Q : A -> World -> Prop) :
  wp m w R -> (forall a w', R a w' -> Q a w') -> wp m w Q.
Proof. unfold wp. auto. Qed.

Lemma wp_ret {A : Type} (a : A) w (Q : A -> World -> Prop) :
  Q a w -> wp (ret a) w Q.
Proof. auto. Qed.

Lemma wp_snd {A : Type} (m : M A) w (Q : World -> Prop) :
  wp m w (fun _ w' => Q w') -> Q (snd (m w)).
Proof. auto. Qed.

Lemma wp_of_snd {A : Type} (m : M A) w (Q : World -> Prop) :
  Q (snd (m w)) -> wp m w (fun _ w' => Q w').
Proof. auto. Qed.

Lemma wp_pair {A : Type} (m : M A) w (Q : A -> World -> Prop) :
  wp m w Q -> Q (fst (m w)) (snd (m w)).
Proof. auto. Qed.

Lemma wp_of_pair {A : Type} (m : M A) w (Q : A -> World -> Prop) :
  Q (fst (m w)) (snd (m w)) -> wp m w Q.
Proof. auto. Qed.

Lemma wp_get {A B : Type} (f : World -> A) (k : A -> M B) w Q :
  wp (k (f w)) w Q -> wp (bind (get f) k) w Q.
Proof. intros H. apply wp_bind. exact H. Qed.

Ltac wp_step lem :=
  apply wp_bind; eapply wp_conseq; [ lem | cbv beta ].

Section Invariant.
Variable I : World -> Prop.
Variables ok okr : World -> pid -> Prop.
Variable allowed : Item -> Prop.
Hypothesis S : Stable I ok okr allowed.

Local Abbreviation G := (good I ok okr).

Lemma good_refl w : I w -> G w w.
Proof. intros H. split; [assumption|]. split; auto. Qed.

Lemma good_trans w1 w2 w3 : G w1 w2 -> G w2 w3 -> G w1 w3.
Proof.
  intros (_ & H1 & H1') (H2 & H3 & H3'). split; [assumption|]. split; auto.
Qed.

Lemma good_I w w' : G w w' -> I w'.
Proof. now intros [H _]. Qed.

Lemma good_ok w w' p : G w w' -> ok w p -> ok w' p.
Proof. intros (_ & H & _). apply H. Qed.

Lemma good_okr w w' p : G w w' -> okr w p -> okr w' p.
Proof. intros (_ & _ & H). apply H. Qed.

Lemma good_okc w w' k : G w w' -> okc ok w k -> okc ok w' k.
Proof. intros HG H p Hp. eapply good_ok; eauto. Qed.

Lemma okc_None w k : target k = None -> okc ok w k.
Proof. intros H p Hp. congruence. Qed.

Lemma okc_Some w k p : target k = Some p -> ok w p -> okc ok w k.
Proof. intros H Hok q Hq. congruence. Qed.

(** The primitives. *)

Lemma note_good i w : allowed i -> I w -> G w (snd (note i w)).
Proof. intros. now apply (st_trace _ _ _ _ S). Qed.

Lemma console_log_good r w : I w -> G w (snd (console_log r w)).
Proof. intros. now apply (st_console _ _ _ _ S). Qed.

Lemma unhandled_rejection_good e w : I w -> G w (snd (unhandled_rejection e w)).
Proof. intros. now apply (st_unhandled _ _ _ _ S). Qed.

Lemma lib_call_good this member item w :
  (forall h, client this = Some h -> allowed (item h)) ->
  I w -> G w (snd (lib_call this member item w)).
Proof.
  intros Ha HI. unfold lib_call.
  destruct (client this) as [h|]; [|now apply good_refl].
  rewrite !bind_eq. cbn [ret snd fst].
  eapply good_trans; [apply note_good; auto|].
  apply (st_throws _ _ _ _ S). eapply good_I, note_good; auto.
Qed.

Lemma lib_call_client this member item w h :
  fst (lib_call this member item w) = Ok h -> client this = Some h.
Proof.
  unfold lib_call. destruct (client this) as [h'|]; [|discriminate].
  rewrite !bind_eq. cbn [ret fst]. destruct (fst (throws _)); [discriminate|].
  now intros [= ->].
Qed.

Local Abbreviation Keeps := (keeps I ok okr).
Local Abbreviation KeepsPid := (keeps_pid I ok okr).

Lemma keeps_note i w : allowed i -> I w -> Keeps (note i) w.
Proof. intros. now apply note_good. Qed.

Lemma keeps_console_log r w : I w -> Keeps (console_log r) w.
Proof. intros. now apply console_log_good. Qed.

Lemma keeps_unhandled_rejection e w : I w -> Keeps (unhandled_rejection e) w.
Proof. intros. now apply unhandled_rejection_good. Qed.

Lemma keeps_new_promise w :
  I w -> wp new_promise w (fun p w' => G w w' /\ ok w' p /\ okr w' p).
Proof. intros HI. exact (st_new _ _ _ _ S w HI). Qed.

Lemma keeps_await p k w : I w -> okc ok w k -> Keeps (await p k) w.
Proof. intros. now apply (st_await _ _ _ _ S). Qed.

Lemma keeps_enqueue k w : I w -> okc ok w k -> Keeps (enqueue k) w.
Proof. intros. now apply (st_enqueue _ _ _ _ S). Qed.

Lemma keeps_resolve p w : I w -> ok w p -> Keeps (resolve p) w.
Proof. intros. now apply (st_resolve _ _ _ _ S). Qed.

Lemma keeps_reject p w : I w -> okr w p -> Keeps (reject p) w.
Proof. intros. now apply (st_reject _ _ _ _ S). Qed.

Lemma keeps_lib_call this member item w :
  (forall h, client this = Some h -> allowed (item h)) ->
  I w ->
  wp (lib_call this member item) w
     (fun r w' => G w w' /\ forall h, r = Ok h -> client this = Some h).
Proof.
  intros Ha HI. split; [now apply lib_call_good|].
  intros h. apply lib_call_client.
Qed.

Lemma keeps_throws w : I w -> Keeps throws w.
Proof. intros. now apply (st_throws _ _ _ _ S). Qed.

Lemma keeps_modify f w : G w (f w) -> Keeps (modify f) w.
Proof. intros H. exact H. Qed.

Lemma keeps_modify_lib f w :
  I w -> G w (set_lib (f (lib w)) w) -> Keeps (modify_lib f) w.
Proof. intros _ H. exact H. Qed.

Ltac chain :=
  repeat match goal with
         | H : I ?a |- I ?a => exact H
         | H : ok ?c ?p |- ok ?c ?p => exact H
         | H : okr ?c ?p |- okr ?c ?p => exact H
         | H : G ?a ?b |- G ?a ?b => exact H
         | |- G ?a ?a => apply good_refl
         | H : G ?a ?b |- I ?b => exact (good_I _ _ H)
         | H : G ?a ?b |- G ?a ?c => apply (good_trans _ _ _ H)
         | H : G ?b ?c |- ok ?c ?p => apply (good_ok _ _ _ H)
         | H : G ?b ?c |- okr ?c ?p => apply (good_okr _ _ _ H)
         end.

Lemma retry_with_keeps run this w :
  retry_items_allowed allowed this ->
  (forall w', I w' -> KeepsPid (run this) w') ->
  I w -> KeepsPid (retry_with run this) w.
Proof.
  intros (Ha1 & Ha2 & Ha3 & Hh) Hrun HI. unfold keeps_pid, retry_with.
  wp_step ltac:(apply keeps_note; eassumption). intros _ w1 G1.
  wp_step ltac:(apply keeps_new_promise; chain). intros p w2 (G2 & Hp & _).
  wp_step ltac:(apply keeps_lib_call; [intros h Hc; apply (Hh h Hc) | chain]).
  intros r w3 (G3 & _).
  destruct r as [h|e].
  - wp_step ltac:(apply Hrun; chain). intros pr w4 (G4 & Hpr).
    wp_step ltac:(apply keeps_await;
                  [chain | apply (okc_Some _ _ p); [reflexivity | chain]]).
    intros _ w5 G5. apply wp_ret. split; chain.
  - wp_step ltac:(apply keeps_unhandled_rejection; chain). intros _ w4 G4.
    apply wp_ret. split; chain.
Qed.

Ltac s_note := wp_step ltac:(apply keeps_note; [solve [auto] | chain]); intros _ ? ?.
Ltac s_log := wp_step ltac:(apply keeps_console_log; chain); intros _ ? ?.
Tactic Notation "s_new" ident(p) :=
  wp_step ltac:(apply keeps_new_promise; chain); intros p ? (? & ? & ?).
Ltac s_await p :=
  wp_step ltac:(apply keeps_await;
                [chain | first [ apply okc_None; reflexivity
                               | apply (okc_Some _ _ p); [reflexivity | chain] ] ]);
  intros _ ? ?.
Ltac s_end lem :=
  eapply wp_conseq;
  [ lem
  | cbv beta; intros;
    repeat match goal with H : _ /\ _ |- _ => destruct H end;
    repeat match goal with |- _ /\ _ => split end; chain ].
Ltac s_get := apply wp_get; cbv beta.
Ltac s_done :=
  apply wp_ret; cbv beta;
  repeat match goal with |- _ /\ _ => split end; chain.

Lemma connect_with_keeps retry this w :
  retry_items_allowed allowed this ->
  (forall w', I w' -> KeepsPid (retry this) w') ->
  I w -> KeepsPid (connect_with retry this) w.
Proof.
  intros (Ha1 & Ha2 & Ha3 & Hh) Hretry HI. unfold keeps_pid, connect_with.
  s_note. s_new p.
  apply wp_bind. apply wp_bind.
  eapply wp_conseq;
    [apply keeps_lib_call; [intros h Hc; apply (Hh h Hc) | chain] | cbv beta].
  intros r1 w3 (G3 & _).
  assert (Hcatch : forall e w4, G w3 w4 ->
            wp (_ <- console_log (zk_log ERROR (msg_exn e) "connect") ;;
                pr <- retry this ;;
                _ <- await pr connect_after_retry ;;
                ret p) w4 (fun p w' => G w w' /\ ok w' p)).
  { intros e w4 G4. s_log.
    wp_step ltac:(apply Hretry; chain). intros pr ? (? & ?).
    s_await pr. s_done. }
  destruct r1 as [h|e].
  - wp_step ltac:(apply keeps_modify_lib;
                  [chain | apply (st_once _ _ _ _ S); chain]).
    intros _ w4 G4.
    eapply wp_conseq;
      [apply keeps_lib_call; [intros h' Hc; apply (Hh h' Hc) | chain] | cbv beta].
    intros r w5 (G5 & _).
    destruct r as [h'|e].
    + s_done.
    + apply Hcatch. chain.
  - apply wp_ret. apply Hcatch. chain.
Qed.

Lemma run_with_keeps retry this w :
  retry_items_allowed allowed this ->
  (forall w', I w' -> KeepsPid (retry this) w') ->
  I w -> KeepsPid (run_with retry this) w.
Proof.
  intros Ha Hretry HI. unfold keeps_pid, run_with.
  pose proof Ha as (Ha1 & Ha2 & Ha3 & Hh).
  s_note. s_new p.
  wp_step ltac:(apply connect_with_keeps; [exact Ha | assumption | chain]).
  intros pc ? (? & ?).
  s_await p. s_done.
Qed.

Hypothesis Hfuel : forall w, I w -> G w (set_exhausted true w).

Lemma out_of_fuel_keeps w : I w -> KeepsPid out_of_fuel w.
Proof.
  intros HI. unfold keeps_pid, out_of_fuel.
  s_new p.
  wp_step ltac:(apply keeps_modify; apply Hfuel; chain).
  intros _ ? ?.
  s_done.
Qed.

Lemma retry_fuel_keeps n this :
  retry_items_allowed allowed this ->
  forall w, I w -> KeepsPid (retry_fuel n this) w.
Proof.
  intros Ha. induction n as [|n IH]; intros w HI.
  - now apply out_of_fuel_keeps.
  - cbn [retry_fuel]. apply retry_with_keeps; [assumption| |assumption].
    intros w' HI'. destruct n as [|n']; cbn [run_fuel].
    + apply run_with_keeps; [assumption| |assumption].
      intros; now apply out_of_fuel_keeps.
    + apply run_with_keeps; [assumption| |assumption]. exact IH.
Qed.

Lemma retry_keeps this w :
  retry_items_allowed allowed this -> I w -> KeepsPid (retry this) w.
Proof. intros Ha HI. unfold retry. now apply retry_fuel_keeps. Qed.

(** From here on every item may be added to the trace. *)
Hypothesis Hall : forall i, allowed i.
Hypothesis Hretry : forall this w, I w -> KeepsPid (retry this) w.

Lemma all_retry_items this : retry_items_allowed allowed this.
Proof. repeat split; intros; apply Hall. Qed.

Ltac s_lib_call :=
  wp_step ltac:(apply keeps_lib_call; [intros; apply Hall | chain]);
  intros ? ? (? & ?).
Ltac s_modify_lib lem :=
  wp_step ltac:(apply keeps_modify_lib; [chain | apply (lem _ _ _ _ S); chain]);
  intros _ ? ?.
Ltac s_retry :=
  wp_step ltac:(apply Hretry; chain);
  intros ? ? (? & ?).

Lemma run_keeps this w : I w -> KeepsPid (run this) w.
Proof.
  intros HI. unfold run.
  apply run_with_keeps; [apply all_retry_items | | assumption].
  intros; now apply Hretry.
Qed.

Lemma connect_keeps this w : I w -> KeepsPid (connect this) w.
Proof.
  intros HI. unfold connect.
  apply connect_with_keeps; [apply all_retry_items | | assumption].
  intros; now apply Hretry.
Qed.

Lemma events_keeps this w : I w -> Keeps (events this) w.
Proof.
  intros HI. unfold keeps, events.
  s_note. s_lib_call. destruct a as [h|e]; [|s_done].
  s_modify_lib st_on_disconnected.
  s_lib_call. destruct a as [h'|e]; [|s_done].
  s_modify_lib st_on_expired.
  s_lib_call. destruct a as [h''|e]; [|s_done].
  s_modify_lib st_on_error.
  s_done.
Qed.

Lemma fetch_config_keeps this w : I w -> KeepsPid (fetch_config this) w.
Proof.
  intros HI. unfold keeps_pid, fetch_config.
  s_note. s_new p. s_lib_call. destruct a as [h|e].
  - s_modify_lib st_request. s_done.
  - s_log. s_retry. s_done.
Qed.

Lemma process_env_set_keeps key value w : I w -> Keeps (process_env_set key value) w.
Proof.
  intros HI. unfold keeps, process_env_set.
  s_note.
  eapply wp_conseq;
    [apply keeps_modify; apply (st_env _ _ _ _ S); chain | cbv beta].
  intros _ ? ?. chain.
Qed.

Lemma parse_item_keeps this item w : I w -> Keeps (parse_item this item) w.
Proof.
  intros HI. unfold keeps, parse_item.
  destruct (item_entry this item) as [[key value]|e]; [|s_done].
  wp_step ltac:(apply process_env_set_keeps; chain). intros _ ? ?. s_done.
Qed.

Lemma forEach_keeps this items w : I w -> Keeps (forEach (parse_item this) items) w.
Proof.
  revert w. induction items as [|item items IH]; intros w HI; [s_done|].
  unfold keeps. cbn [forEach].
  wp_step ltac:(apply parse_item_keeps; chain). intros r w1 G1.
  destruct r as [[]|e]; [|s_done].
  eapply wp_conseq; [apply IH; chain|]. cbv beta. intros _ w2 G2. chain.
Qed.

Lemma parse_body_keeps this data w : I w -> Keeps (parse_body this data) w.
Proof.
  intros HI. unfold parse_body. destruct data as [buf|].
  - now apply forEach_keeps.
  - unfold keeps. s_done.
Qed.

Lemma parse_loaded_data_keeps this data w :
  I w -> KeepsPid (parse_loaded_data this data) w.
Proof.
  intros HI. unfold keeps_pid, parse_loaded_data.
  s_note. s_new p.
  wp_step ltac:(apply parse_body_keeps; chain). intros r ? ?.
  destruct r as [[]|e].
  - wp_step ltac:(apply keeps_resolve; chain). intros _ ? ?. s_done.
  - s_log. s_done.
Qed.

Lemma run_catch_keeps this e w : I w -> Keeps (run_catch this e) w.
Proof.
  intros HI. unfold keeps, run_catch.
  s_log. s_retry.
  eapply wp_conseq;
    [apply keeps_await; [chain | apply okc_None; reflexivity] | cbv beta].
  intros _ ? ?. chain.
Qed.

Lemma resume_keeps k w : I w -> okc ok w k -> Keeps (resume k) w.
Proof.
  intros HI Hk. unfold keeps.
  destruct k as [this p|this p|p| | | |p| |p|p]; cbn [resume];
    try (specialize (Hk p eq_refl));
    try (apply wp_ret; now apply good_refl);
    try (now apply keeps_resolve).
  - wp_step ltac:(apply events_keeps; chain). intros r w1 G1.
    destruct r as [[]|e].
    + s_end ltac:(apply keeps_enqueue;
                  [chain | apply (okc_Some _ _ p); [reflexivity | chain]]).
    + eapply wp_conseq; [apply run_catch_keeps; chain | cbv beta].
      intros _ ? ?. chain.
  - wp_step ltac:(apply fetch_config_keeps; chain). intros pf w1 (G1 & Hpf).
    eapply wp_conseq;
      [apply keeps_await; [chain | apply (okc_Some _ _ p); [reflexivity | chain]]
      | cbv beta].
    intros _ ? ?. chain.
  - s_log.
    eapply wp_conseq; [apply keeps_resolve; chain | cbv beta].
    intros _ ? ?. chain.
Qed.

Lemma on_connected_listener_keeps p w :
  I w -> ok w p -> Keeps (on_connected_listener p) w.
Proof.
  intros HI Hp. unfold keeps, on_connected_listener.
  s_log.
  eapply wp_conseq; [apply keeps_resolve; chain | cbv beta].
  intros _ ? ?. chain.
Qed.

Lemma on_expired_listener_keeps this w : I w -> Keeps (on_expired_listener this) w.
Proof.
  intros HI. unfold keeps, on_expired_listener.
  s_log. s_retry.
  eapply wp_conseq;
    [apply keeps_await; [chain | apply okc_None; reflexivity] | cbv beta].
  intros _ ? ?. chain.
Qed.

Lemma watch_callback_keeps this event w : I w -> Keeps (watch_callback this event) w.
Proof.
  intros HI. unfold keeps, watch_callback.
  s_log.
  destruct ((ev_type event =? 3)%N && String.eqb (ev_name event) "NODE_DATA_CHANGED").
  - wp_step ltac:(apply fetch_config_keeps; chain). intros pf ? (? & ?).
    eapply wp_conseq;
      [apply keeps_await; [chain | apply okc_None; reflexivity] | cbv beta].
    intros _ ? ?. chain.
  - s_done.
Qed.

Lemma completion_callback_keeps this p err data w :
  I w -> ok w p -> Keeps (completion_callback this p err data) w.
Proof.
  intros HI Hp. unfold keeps, completion_callback.
  destruct err as [err|].
  - s_log. s_retry. s_done.
  - s_log.
    wp_step ltac:(apply parse_loaded_data_keeps; chain). intros pp ? (? & ?).
    eapply wp_conseq;
      [apply keeps_await; [chain | apply (okc_Some _ _ p); [reflexivity | chain]]
      | cbv beta].
    intros _ ? ?. chain.
Qed.

Lemma for_each_keeps {A : Type} (f : A -> M unit) (pre : World -> A -> Prop) :
  (forall w w' x, G w w' -> pre w x -> pre w' x) ->
  (forall x w, I w -> pre w x -> Keeps (f x) w) ->
  forall l w, I w -> Forall (pre w) l -> Keeps (for_each f l) w.
Proof.
  intros Hmono Hf l. induction l as [|x l IH]; intros w HI Hl.
  - unfold keeps. s_done.
  - inversion Hl as [|? ? Hx Hl']; subst. unfold keeps. cbn [for_each].
    wp_step ltac:(apply Hf; [chain | assumption]). intros _ w1 G1.
    eapply wp_conseq; [apply IH; [chain|] | cbv beta].
    + eapply Forall_impl; [exact Hl'|]. intros y Hy. eapply Hmono; eassumption.
    + intros _ ? ?. chain.
Qed.

Lemma emit_keeps ev w : I w -> Keeps (emit ev) w.
Proof.
  intros HI. unfold keeps.
  destruct ev as [| | |err|i err data|i event]; cbn [emit].
  - s_get.
    destruct (st_take_once _ _ _ _ S w HI) as [G0 Hl].
    wp_step ltac:(apply keeps_modify_lib; [chain | exact G0]). intros _ w1 G1.
    s_end ltac:(apply (for_each_keeps on_connected_listener (fun w p => ok w p));
       [ intros; eapply good_ok; eassumption
       | intros; now apply on_connected_listener_keeps
       | chain
       | eapply Forall_impl; [exact Hl|]; intros p Hp; chain ]).
  - s_get.
    apply (for_each_keeps _ (fun _ _ => True)); auto.
    + intros; now apply keeps_console_log.
    + now apply Forall_forall.
  - s_get.
    apply (for_each_keeps _ (fun _ _ => True)); auto.
    + intros; now apply on_expired_listener_keeps.
    + now apply Forall_forall.
  - s_get.
    apply (for_each_keeps _ (fun _ _ => True)); auto.
    + intros; now apply keeps_console_log.
    + now apply Forall_forall.
  - s_get.
    destruct (requests (lib w) !! i) as [[this p]|] eqn:E; [|s_done].
    destruct (st_take_request _ _ _ _ S i this p w HI E) as [G0 Hp].
    wp_step ltac:(apply keeps_modify_lib; [chain | exact G0]). intros _ w1 G1.
    apply wp_bind. eapply wp_conseq with (R := fun _ w' => G w1 w').
    + destruct err; [apply wp_ret; chain|].
      apply keeps_modify_lib; [chain|]. apply (st_watchers _ _ _ _ S). chain.
    + cbv beta. intros _ w2 G2.
      s_end ltac:(apply completion_callback_keeps; chain).
  - s_get.
    destruct (watchers (lib w) !! i) as [this|] eqn:E; [|s_done].
    wp_step ltac:(apply keeps_modify_lib; [chain | apply (st_watchers _ _ _ _ S); chain]).
    intros _ w1 G1.
    s_end ltac:(apply watch_callback_keeps; chain).
Qed.

(** The constructor, for invariants that the three fields only it writes
    do not disturb. *)
Lemma constructor_keeps config w :
  (forall x w, I w -> G w (set_next_oid x w)) ->
  (forall x w, I w -> G w (set_instance x w)) ->
  (forall x w, I w -> G w (set_lib (set_created x (lib w)) w)) ->
  I w -> Keeps (new_ZookeeperClient config) w.
Proof.
  intros Hoid Hinst Hcreated HI. unfold keeps, new_ZookeeperClient.
  s_note. s_get.
  wp_step ltac:(apply keeps_modify; apply Hoid; chain). intros _ ? ?.
  s_get.
  match goal with |- context [match ?x with _ => _ end] => destruct x end;
    [s_done|].
  wp_step ltac:(apply keeps_modify; apply Hinst; chain). intros _ ? ?.
  s_get. s_note.
  wp_step ltac:(apply keeps_throws; chain). intros b ? ?.
  destruct b; [s_done|].
  wp_step ltac:(apply keeps_modify_lib; [chain | apply Hcreated; chain]).
  intros _ ? ?.
  wp_step ltac:(apply keeps_modify; apply Hinst; chain). intros _ ? ?.
  s_lib_call.
  match goal with |- context [match ?x with _ => _ end] => destruct x end; s_done.
Qed.

Hypothesis Hctor : forall config w, I w -> Keeps (new_ZookeeperClient config) w.

Lemma run_zookeeper_keeps config w : I w -> KeepsPid (run_zookeeper config) w.
Proof.
  intros HI. unfold keeps_pid, run_zookeeper.
  s_note. s_new p. s_get.
  destruct (negb _).
  - wp_step ltac:(apply Hctor; chain). intros r w1 G1.
    destruct r as [zk|e].
    + wp_step ltac:(apply run_keeps; chain).
      intros pr ? (? & ?).
      s_await p. s_done.
    + s_log.
      wp_step ltac:(apply keeps_reject; chain). intros _ ? ?.
      s_done.
  - wp_step ltac:(apply keeps_resolve; chain). intros _ ? ?.
    s_done.
Qed.

Lemma step_good s w : I w -> G w (step s w).
Proof.
  intros HI. destruct s as [|ev|config|config]; cbn [step].
  - destruct (microtasks w) as [|k ks] eqn:E; [now apply good_refl|].
    destruct (st_pop _ _ _ _ S k ks w HI E) as [G0 Hk].
    eapply good_trans; [exact G0|].
    apply resume_keeps; [chain|]. eapply good_okc; eassumption.
  - now apply emit_keeps.
  - now apply run_zookeeper_keeps.
  - now apply Hctor.
Qed.

Lemma exec_good script w : I w -> G w (exec script w).
Proof.
  revert w. induction script as [|s script IH]; intros w HI.
  - now apply good_refl.
  - cbn [exec fold_left]. eapply good_trans; [apply (step_good s); assumption|].
    apply IH. eapply good_I, step_good. assumption.
Qed.
End Invariant.

(** A stable invariant holds along every run of the event loop. *)
Lemma exec_invariant (I : World -> Prop) (ok okr : World -> pid -> Prop)
    (allowed : Item -> Prop) :
  Stable I ok okr allowed ->
  (forall i, allowed i) ->
  (forall w, I w -> good I ok okr w (set_exhausted true w)) ->
  (forall config w, I w -> keeps I ok okr (new_ZookeeperClient config) w) ->
  forall script w, I w -> I (exec script w).
Proof.
  intros HS Hall Hfuel Hctor script w HI.
  eapply good_I.
  apply (exec_good I ok okr allowed HS Hall); [|assumption|assumption].
  intros this w' HI'. apply (retry_keeps I ok okr allowed HS); auto.
  repeat split; intros; apply Hall.
Qed.

(** ** Invariants that only read fields no primitive writes *)

Ltac prim_cases :=
  repeat (first
    [ progress unfold new_promise, enqueue, modify, await, resolve, reject, throws
    | match goal with
      | |- context [match ?x with _ => _ end] => destruct x
      end ]);
  cbn [fst snd].

Lemma Stable_frame {X : Type} (f : World -> X) (P : X -> Prop)
    (allowed : Item -> Prop) :
  (forall x w, f (set_console x w) = f w) ->
  (forall x w, f (set_trace x w) = f w) ->
  (forall x w, f (set_promises x w) = f w) ->
  (forall x w, f (set_waiting x w) = f w) ->
  (forall x w, f (set_microtasks x w) = f w) ->
  (forall x w, f (set_unhandled x w) = f w) ->
  (forall x w, f (set_env x w) = f w) ->
  (forall x w, f (set_lib (set_faults x (lib w)) w) = f w) ->
  (forall x w, f (set_lib (set_once_connected x (lib w)) w) = f w) ->
  (forall x w, f (set_lib (set_on_disconnected x (lib w)) w) = f w) ->
  (forall x w, f (set_lib (set_on_expired x (lib w)) w) = f w) ->
  (forall x w, f (set_lib (set_on_error x (lib w)) w) = f w) ->
  (forall x w, f (set_lib (set_requests x (lib w)) w) = f w) ->
  (forall x w, f (set_lib (set_watchers x (lib w)) w) = f w) ->
  Stable (fun w => P (f w)) yes yes allowed.
Proof.
  intros H1 H2 H3 H4 H5 H6 H7 H8 H9 H10 H11 H12 H13 H14.
  constructor; intros;
    repeat match goal with |- _ /\ _ => split end;
    try (unfold yes; exact Logic.I);
    try (apply Forall_forall; intros; exact Logic.I);
    try (intros ? ?; exact Logic.I);
    unfold good, yes; prim_cases;
    repeat match goal with |- _ /\ _ => split end; auto;
    rewrite ?H5, ?H4, ?H3, ?H1, ?H2, ?H6, ?H7, ?H8, ?H9, ?H10, ?H11, ?H12, ?H13, ?H14;
    auto.
Qed.

Lemma good_yes (I : World -> Prop) w w' : I w' -> good I yes yes w w'.
Proof. intros H. repeat split; auto. Qed.


(** A field that nothing but the constructor and the fuel touch is the same
    after any run of the event loop, provided the constructor and the fuel
    leave it alone too. *)
Lemma exec_frame {X : Type} (f : World -> X) :
  (forall x w, f (set_console x w) = f w) ->
  (forall x w, f (set_trace x w) = f w) ->
  (forall x w, f (set_promises x w) = f w) ->
  (forall x w, f (set_waiting x w) = f w) ->
  (forall x w, f (set_microtasks x w) = f w) ->
  (forall x w, f (set_unhandled x w) = f w) ->
  (forall x w, f (set_env x w) = f w) ->
  (forall x w, f (set_lib (set_faults x (lib w)) w) = f w) ->
  (forall x w, f (set_lib (set_once_connected x (lib w)) w) = f w) ->
  (forall x w, f (set_lib (set_on_disconnected x (lib w)) w) = f w) ->
  (forall x w, f (set_lib (set_on_expired x (lib w)) w) = f w) ->
  (forall x w, f (set_lib (set_on_error x (lib w)) w) = f w) ->
  (forall x w, f (set_lib (set_requests x (lib w)) w) = f w) ->
  (forall x w, f (set_lib (set_watchers x (lib w)) w) = f w) ->
  (forall x w, f (set_exhausted x w) = f w) ->
  (forall x w, f (set_next_oid x w) = f w) ->
  (forall x w, f (set_instance x w) = f w) ->
  (forall x w, f (set_lib (set_created x (lib w)) w) = f w) ->
  forall script w, f (exec script w) = f w.
Proof.
  intros H1 H2 H3 H4 H5 H6 H7 H8 H9 H10 H11 H12 H13 H14 H15 H16 H17 H18 script w.
  pose proof (Stable_frame f (fun x => x = f w) any_item
                H1 H2 H3 H4 H5 H6 H7 H8 H9 H10 H11 H12 H13 H14) as HS.
  apply (exec_invariant _ yes yes any_item HS).
  - intros i. exact Logic.I.
  - intros w' H. apply good_yes. now rewrite H15.
  - intros config w' H.
    apply (constructor_keeps _ yes yes any_item HS); auto;
      intros; try exact Logic.I; apply good_yes; now rewrite ?H16, ?H17, ?H18.
  - reflexivity.
Qed.

(** [is_running_zookeeper] is never assigned. *)
Lemma is_running_zookeeper_constant (script : list Step) (w : World) :
  is_running_zookeeper (exec script w) = is_running_zookeeper w.
Proof. apply (exec_frame is_running_zookeeper); reflexivity. Qed.

(** The same for what [retry] does: it creates no client and leaves the
    singleton alone. *)
Lemma retry_keeps_client (this : ZookeeperClient) (w : World) :
  created (lib (snd (retry this w))) = created (lib w)
  /\ instance (snd (retry this w)) = instance w.
Proof.
  assert (HS : Stable (fun w' => (created (lib w'), instance w')
                                 = (created (lib w), instance w))
                      yes yes any_item).
  { apply (Stable_frame (fun w' => (created (lib w'), instance w'))
             (fun x => x = (created (lib w), instance w)) any_item);
      reflexivity. }
  assert (H : (created (lib (snd (retry this w))), instance (snd (retry this w)))
              = (created (lib w), instance w)).
  { eapply good_I.
    apply (retry_keeps _ yes yes any_item HS); try reflexivity.
    - intros w' H'. apply good_yes. exact H'.
    - repeat split; intros; exact Logic.I. }
  inversion H. auto.
Qed.

(** ** The trace and the console only grow *)

Ltac stable_start :=
  constructor; intros;
  repeat match goal with |- _ /\ _ => split end;
  try (unfold yes; exact Logic.I);
  try (apply Forall_forall; intros; exact Logic.I);
  try (intros ? ?; exact Logic.I).

Lemma Stable_trace (allowed : Item -> Prop) (w0 : World) :
  Stable (trace_extends allowed w0) yes yes allowed.
Proof.
  stable_start; apply good_yes;
    match goal with H : trace_extends _ _ _ |- _ => destruct H as (new & E & F) end;
    prim_cases;
    try (exists new; split; [exact E | exact F]).
  exists (i :: new). split; [cbn; now rewrite E | now constructor].
Qed.

Lemma Stable_console (w0 : World) : Stable (console_extends w0) yes yes any_item.
Proof.
  stable_start; apply good_yes;
    match goal with H : console_extends _ _ |- _ => destruct H as (new & E) end;
    prim_cases;
    try (exists new; exact E).
  exists (r :: new). cbn. now rewrite E.
Qed.

(** ** Only [run_zookeeper] rejects, and only its own promise *)

Lemma Stable_no_new_rejection (w0 : World) :
  Stable (no_new_rejection w0) yes (made_since w0) any_item.
Proof.
  constructor; intros;
    repeat match goal with |- _ /\ _ => split end;
    try (unfold yes; exact Logic.I);
    try (apply Forall_forall; intros; exact Logic.I);
    try (intros ? ?; exact Logic.I);
    try (unfold made_since in *; cbn; lia);
    match goal with H : no_new_rejection _ _ |- _ => destruct H as (Hlen & Hrej) end.
  all: try (split; [|split; [intros; exact Logic.I | unfold made_since; auto]]).
  all: try (split; [exact Hlen | exact Hrej]).
  - (* new_promise *)
    unfold new_promise, no_new_rejection; cbn [fst snd promises set_promises].
    split; [rewrite length_app; lia|].
    intros q Hq Hr. apply Hrej; [assumption|].
    rewrite lookup_app_l in Hr by lia. exact Hr.
  - unfold made_since. exact Hlen.
  - (* await *)
    unfold await, enqueue, modify.
    destruct (promises w !! p) as [[]|]; split; assumption.
  - (* resolve *)
    unfold resolve, no_new_rejection.
    destruct (promises w !! p) as [[]|] eqn:E;
      cbn [fst snd promises set_waiting set_microtasks set_promises];
      try (split; assumption).
    split; [now rewrite length_insert|].
    intros q Hq Hr. apply Hrej; [assumption|].
    destruct (decide (p = q)) as [->|Hne].
    + rewrite list_lookup_insert_eq in Hr; [discriminate|].
      apply lookup_lt_Some in E. exact E.
    + now rewrite list_lookup_insert_ne in Hr.
  - (* reject *)
    unfold reject, no_new_rejection.
    destruct (promises w !! p) as [[]|] eqn:E;
      cbn [fst snd promises set_promises];
      try (split; assumption).
    split; [now rewrite length_insert|].
    intros q Hq Hr. apply Hrej; [assumption|].
    rewrite list_lookup_insert_ne in Hr; [assumption|].
    unfold made_since in *. lia.
  - (* throws *)
    unfold throws. destruct (faults (lib w)); split; assumption.
Qed.

(** ** Promises that can no longer be settled stay pending *)

Lemma dead_same (D : list pid) (w w' : World) :
  promises w' = promises w ->
  microtasks w' = microtasks w ->
  once_connected (lib w') = once_connected (lib w) ->
  requests (lib w') = requests (lib w) ->
  waiting w' = waiting w ->
  dead D w -> dead D w'.
Proof.
  intros E1 E2 E3 E4 E5 [H1 H2 H3 H4 H5].
  constructor; rewrite ?E1, ?E2, ?E3, ?E4, ?E5; assumption.
Qed.

Lemma good_outside (D : list pid) (w w' : World) :
  dead D w' -> good (dead D) (outside D) (outside D) w w'.
Proof. intros H. split; [assumption|]. split; auto. Qed.

Lemma dead_lookup (D : list pid) (w : World) (p : pid) :
  dead D w -> In p D -> promises w !! p = Some Pending.
Proof.
  intros [H _ _ _ _] Hp. rewrite Forall_forall in H. apply H.
  now apply list_elem_of_In.
Qed.

Lemma Forall_delete {A : Type} (P : A -> Prop) (i : nat) (l : list A) :
  Forall P l -> Forall P (delete i l).
Proof.
  intros H. revert i. induction H as [|x l Hx Hl IH]; intros [|i]; cbn; auto.
Qed.

Lemma dead_update (D : list pid) (w : World) (p : pid) (st : PState) :
  dead D w -> ~ In p D ->
  Forall (fun q => <[p := st]> (promises w) !! q = Some Pending) D.
Proof.
  intros Hd Hp. apply Forall_forall. intros q Hq.
  apply list_elem_of_In in Hq.
  rewrite list_lookup_insert_ne; [now apply (dead_lookup D w)|].
  intros ->. contradiction.
Qed.

Lemma Stable_dead (D : list pid) :
  Stable (dead D) (outside D) (outside D) any_item.
Proof.
  constructor; intros.
  - apply good_outside. now apply (dead_same D w).
  - apply good_outside. now apply (dead_same D w).
  - (* new_promise *)
    assert (Hfresh : ~ In (length (promises w)) D).
    { intros Hin. apply (dead_lookup D w) in Hin; [|assumption].
      apply lookup_lt_Some in Hin. lia. }
    split; [|split; exact Hfresh].
    apply good_outside. destruct H as [H1 H2 H3 H4 H5].
    constructor; cbn [new_promise snd promises microtasks waiting lib set_promises];
      try assumption.
    eapply Forall_impl; [exact H1|]. intros q Hq. cbn beta in *.
    rewrite lookup_app_l; [assumption|]. now apply lookup_lt_Some in Hq.
  - (* enqueue *)
    apply good_outside. destruct H as [H1 H2 H3 H4 H5].
    constructor; cbn [enqueue modify snd promises microtasks waiting lib set_microtasks];
      try assumption.
    apply Forall_app. split; [assumption|]. constructor; [exact H0 | constructor].
  - (* await *)
    apply good_outside. unfold await, enqueue, modify.
    destruct H as [H1 H2 H3 H4 H5].
    destruct (promises w !! p) as [[]|];
      constructor;
      cbn [snd promises microtasks waiting lib set_microtasks set_waiting];
      try assumption.
    + apply Forall_app. split; [assumption|].
      constructor; [|constructor]. right. exact H0.
    + apply Forall_app. split; [assumption|]. constructor; [exact H0 | constructor].
  - (* resolve *)
    apply good_outside. unfold resolve.
    destruct (promises w !! p) as [[]|] eqn:E; try assumption.
    pose proof (dead_update D w p Fulfilled H H0) as Hup.
    destruct H as [H1 H2 H3 H4 H5].
    constructor;
      cbn [snd promises microtasks waiting lib set_microtasks set_waiting set_promises];
      try assumption.
    + apply Forall_app. split; [assumption|].
      apply Forall_forall. intros k Hk.
      apply list_elem_of_In, in_map_iff in Hk. destruct Hk as ([q k'] & <- & Hin).
      apply filter_In in Hin. destruct Hin as [Hin Hq].
      unfold awaits in Hq. cbn [fst] in Hq. apply Nat.eqb_eq in Hq. subst q.
      rewrite Forall_forall in H5.
      destruct (H5 (p, k')) as [Hbad|Hfree]; [now apply list_elem_of_In| |exact Hfree].
      cbn [fst] in Hbad. contradiction.
    + apply Forall_forall. intros qk Hqk.
      apply list_elem_of_In, filter_In in Hqk. destruct Hqk as [Hin _].
      rewrite Forall_forall in H5. apply H5. now apply list_elem_of_In.
  - (* reject *)
    apply good_outside. unfold reject.
    destruct (promises w !! p) as [[]|] eqn:E; try assumption.
    pose proof (dead_update D w p Rejected H H0) as Hup.
    destruct H as [H1 H2 H3 H4 H5].
    constructor; cbn [snd promises microtasks waiting lib set_promises];
      assumption.
  - apply good_outside. now apply (dead_same D w).
  - (* throws *)
    apply good_outside. unfold throws.
    destruct (faults (lib w)); [assumption|]. now apply (dead_same D w).
  - apply good_outside. now apply (dead_same D w).
  - (* once *)
    apply good_outside. destruct H as [H1 H2 H3 H4 H5].
    constructor; cbn [promises microtasks waiting lib set_lib once_connected
                        requests set_once_connected]; try assumption.
    apply Forall_app. split; [assumption|]. constructor; [exact H0 | constructor].
  - (* take once *)
    split.
    + apply good_outside. destruct H as [H1 H2 H3 H4 H5].
      constructor; cbn [promises microtasks waiting lib set_lib once_connected
                          requests set_once_connected]; try assumption.
      constructor.
    + now destruct H.
  - apply good_outside. now apply (dead_same D w).
  - apply good_outside. now apply (dead_same D w).
  - apply good_outside. now apply (dead_same D w).
  - (* request *)
    apply good_outside. destruct H as [H1 H2 H3 H4 H5].
    constructor; cbn [promises microtasks waiting lib set_lib once_connected
                        requests set_requests]; try assumption.
    apply Forall_app. split; [assumption|]. constructor; [exact H0 | constructor].
  - (* take request *)
    destruct H as [H1 H2 H3 H4 H5]. split.
    + apply good_outside.
      constructor; cbn [promises microtasks waiting lib set_lib once_connected
                          requests set_requests]; try assumption.
      now apply Forall_delete.
    + rewrite Forall_forall in H4.
      apply (H4 (this, p)). eapply list_elem_of_lookup_2. eassumption.
  - apply good_outside. now apply (dead_same D w).
  - (* pop *)
    destruct H as [H1 H2 H3 H4 H5]. rewrite H0 in H2.
    inversion H2 as [|? ? Hk Hks]; subst. split; [|exact Hk].
    apply good_outside.
    constructor; cbn [promises microtasks waiting lib set_microtasks]; assumption.
Qed.

Lemma dead_forever (D : list pid) (script : list Step) (w : World) :
  dead D w -> dead D (exec script w).
Proof.
  apply (exec_invariant (dead D) (outside D) (outside D) any_item).
  - apply Stable_dead.
  - intros i. exact Logic.I.
  - intros w' H. apply good_outside. now apply (dead_same D w').
  - intros config w' H.
    apply (constructor_keeps _ _ _ any_item (Stable_dead D)); auto;
      intros; try exact Logic.I; apply good_outside;
      match goal with Hd : dead D ?v |- _ => now apply (dead_same D v) end.
Qed.

(** A promise of a dead set is pending after every run of the event loop:
    it is never fulfilled and never rejected. *)
Lemma never_settles (D : list pid) (p : pid) (w : World) :
  dead D w -> In p D ->
  forall script, promises (exec script w) !! p = Some Pending.
Proof.
  intros Hd Hp script. apply (dead_lookup D); [|assumption].
  now apply dead_forever.
Qed.

Lemma memb_In (p : pid) (D : list pid) : memb p D = true <-> In p D.
Proof.
  unfold memb. rewrite existsb_exists. split.
  - intros (q & Hq & E). apply Nat.eqb_eq in E. now subst.
  - intros H. exists p. split; [assumption | apply Nat.eqb_refl].
Qed.

Lemma freeb_free (D : list pid) (k : Cont) : freeb D k = true -> free D k.
Proof.
  unfold freeb, free. intros H p Hp. rewrite Hp in H.
  intros Hin. apply memb_In in Hin. rewrite Hin in H. discriminate.
Qed.

Lemma deadb_sound (D : list pid) (w : World) : deadb D w = true -> dead D w.
Proof.
  unfold deadb. rewrite !andb_true_iff, !forallb_forall.
  intros ((((H1 & H2) & H3) & H4) & H5).
  constructor; apply Forall_forall; intros x Hx; apply list_elem_of_In in Hx.
  - specialize (H1 x Hx). unfold is_pending in H1.
    destruct (promises w !! x) as [[]|]; congruence.
  - apply freeb_free. auto.
  - specialize (H3 x Hx). intros Hin. apply memb_In in Hin.
    rewrite Hin in H3. discriminate.
  - specialize (H4 x Hx). intros Hin. apply memb_In in Hin.
    rewrite Hin in H4. discriminate.
  - specialize (H5 x Hx). apply orb_true_iff in H5. destruct H5 as [H5|H5].
    + left. now apply memb_In.
    + right. now apply freeb_free.
Qed.

(** ** Well-formed states *)

Lemma wf_same (w w' : World) :
  promises w' = promises w ->
  microtasks w' = microtasks w ->
  once_connected (lib w') = once_connected (lib w) ->
  requests (lib w') = requests (lib w) ->
  waiting w' = waiting w ->
  wf w -> wf w'.
Proof.
  intros E1 E2 E3 E4 E5 [H1 H2 H3 H4].
  constructor; unfold okc, exists_in in *; rewrite ?E1, ?E2, ?E3, ?E4, ?E5;
    assumption.
Qed.

Lemma wf_grow (w w' : World) :
  length (promises w) <= length (promises w') ->
  microtasks w' = microtasks w ->
  once_connected (lib w') = once_connected (lib w) ->
  requests (lib w') = requests (lib w) ->
  waiting w' = waiting w ->
  wf w -> wf w'.
Proof.
  intros E1 E2 E3 E4 E5 [H1 H2 H3 H4].
  constructor; rewrite ?E2, ?E3, ?E4, ?E5;
    (eapply Forall_impl; [eassumption|]); unfold okc, exists_in;
    intros; cbn beta in *.
  - intros. specialize (H _ H0). lia.
  - lia.
  - lia.
  - intros. specialize (H _ H0). lia.
Qed.

Lemma good_wf (w w' : World) :
  length (promises w) <= length (promises w') ->
  wf w' -> good wf exists_in yes w w'.
Proof.
  intros Hlen H. split; [assumption|]. split; [|auto].
  unfold exists_in. intros q Hq. lia.
Qed.

Lemma Stable_wf : Stable wf exists_in yes any_item.
Proof.
  constructor; intros.
  - apply good_wf; [reflexivity | now apply (wf_same w)].
  - apply good_wf; [reflexivity | now apply (wf_same w)].
  - (* new_promise *)
    assert (Hlen : length (promises w) <= length (promises (snd (new_promise w)))).
    { cbn [new_promise snd promises set_promises]. rewrite length_app. lia. }
    split; [|split; [|exact Logic.I]].
    + apply good_wf; [exact Hlen|]. now apply (wf_grow w).
    + unfold exists_in. cbn [new_promise snd promises set_promises].
      rewrite length_app. cbn. lia.
  - (* enqueue *)
    apply good_wf; [reflexivity|]. destruct H as [H1 H2 H3 H4].
    constructor; cbn [enqueue modify snd promises microtasks waiting lib set_microtasks];
      try assumption.
    apply Forall_app. split; [assumption|]. constructor; [exact H0 | constructor].
  - (* await *)
    unfold await, enqueue, modify.
    destruct H as [H1 H2 H3 H4].
    destruct (promises w !! p) as [[]|];
      (apply good_wf; [reflexivity|]);
      constructor;
      cbn [snd promises microtasks waiting lib set_microtasks set_waiting];
      try assumption.
    + apply Forall_app. split; [assumption|]. constructor; [exact H0 | constructor].
    + apply Forall_app. split; [assumption|]. constructor; [exact H0 | constructor].
  - (* resolve *)
    unfold resolve.
    destruct (promises w !! p) as [[]|] eqn:E;
      try (apply good_wf; [reflexivity | assumption]).
    apply good_wf;
      [cbn [snd promises set_microtasks set_waiting set_promises];
       now rewrite length_insert|].
    destruct H as [H1 H2 H3 H4].
    constructor; unfold okc, exists_in in *;
      cbn [snd promises microtasks waiting lib set_microtasks set_waiting set_promises];
      rewrite ?length_insert; try assumption.
    + apply Forall_app. split; [assumption|].
      apply Forall_forall. intros k Hk.
      apply list_elem_of_In, in_map_iff in Hk. destruct Hk as ([q k'] & <- & Hin).
      apply filter_In in Hin. destruct Hin as [Hin _].
      rewrite Forall_forall in H4. apply (H4 (q, k')). now apply list_elem_of_In.
    + apply Forall_forall. intros qk Hqk.
      apply list_elem_of_In, filter_In in Hqk. destruct Hqk as [Hin _].
      rewrite Forall_forall in H4. apply H4. now apply list_elem_of_In.
  - (* reject *)
    unfold reject.
    destruct (promises w !! p) as [[]|] eqn:E;
      try (apply good_wf; [reflexivity | assumption]).
    apply good_wf; [cbn [snd promises set_promises]; now rewrite length_insert|].
    apply (wf_grow w); try reflexivity; [|assumption].
    cbn [snd promises set_promises]. now rewrite length_insert.
  - apply good_wf; [reflexivity | now apply (wf_same w)].
  - (* throws *)
    unfold throws.
    destruct (faults (lib w));
      (apply good_wf; [reflexivity|]); [assumption|]. now apply (wf_same w).
  - apply good_wf; [reflexivity | now apply (wf_same w)].
  - (* once *)
    apply good_wf; [reflexivity|]. destruct H as [H1 H2 H3 H4].
    constructor; cbn [promises microtasks waiting lib set_lib once_connected
                        requests set_once_connected]; try assumption.
    apply Forall_app. split; [assumption|]. constructor; [exact H0 | constructor].
  - (* take once *)
    split.
    + apply good_wf; [reflexivity|]. destruct H as [H1 H2 H3 H4].
      constructor; cbn [promises microtasks waiting lib set_lib once_connected
                          requests set_once_connected]; try assumption.
      constructor.
    + now destruct H.
  - apply good_wf; [reflexivity | now apply (wf_same w)].
  - apply good_wf; [reflexivity | now apply (wf_same w)].
  - apply good_wf; [reflexivity | now apply (wf_same w)].
  - (* request *)
    apply good_wf; [reflexivity|]. destruct H as [H1 H2 H3 H4].
    constructor; cbn [promises microtasks waiting lib set_lib once_connected
                        requests set_requests]; try assumption.
    apply Forall_app. split; [assumption|]. constructor; [exact H0 | constructor].
  - (* take request *)
    destruct H as [H1 H2 H3 H4]. split.
    + apply good_wf; [reflexivity|].
      constructor; cbn [promises microtasks waiting lib set_lib once_connected
                          requests set_requests]; try assumption.
      now apply Forall_delete.
    + rewrite Forall_forall in H3.
      apply (H3 (this, p)). eapply list_elem_of_lookup_2. eassumption.
  - apply good_wf; [reflexivity | now apply (wf_same w)].
  - (* pop *)
    destruct H as [H1 H2 H3 H4]. rewrite H0 in H1.
    inversion H1 as [|? ? Hk Hks]; subst. split; [|exact Hk].
    apply good_wf; [reflexivity|].
    constructor; cbn [promises microtasks waiting lib set_microtasks]; assumption.
Qed.

Lemma wf_forever (script : list Step) (w : World) : wf w -> wf (exec script w).
Proof.
  apply (exec_invariant wf exists_in yes any_item).
  - apply Stable_wf.
  - intros i. exact Logic.I.
  - intros w' H. apply good_wf; [reflexivity | now apply (wf_same w')].
  - intros config w' H.
    apply (constructor_keeps _ _ _ any_item Stable_wf); auto;
      intros; try exact Logic.I; (apply good_wf; [reflexivity|]);
      match goal with Hd : wf ?v |- _ => now apply (wf_same v) end.
Qed.

Lemma wf_fresh_process (fs : list bool) : wf (fresh_process fs).
Proof. constructor; constructor. Qed.

(** Every state the process can be in is well formed. *)
Lemma reachable_wf (w : World) : reachable w -> wf w.
Proof.
  intros (fs & script & ->). apply wf_forever, wf_fresh_process.
Qed.

(** ** Splitting a line *)

Lemma split_from_absent (c : N) (s cur : jsstring) :
  ~ In c s -> split_from [c] s 0 cur = [rev cur ++ s].
Proof.
  revert cur. induction s as [|d s IH]; intros cur Hc.
  - cbn. now rewrite app_nil_r.
  - cbn [split_from startsWith].
    destruct (N.eqb_spec d c) as [->|Hne]; [exfalso; apply Hc; now left|].
    cbn [andb]. rewrite IH by (intros H; apply Hc; now right).
    cbn [rev]. now rewrite <- app_assoc.
Qed.

(** A line without "=" is a single piece. *)
Lemma split_absent (item : jsstring) :
  ~ In 61%N item -> split item equals_sign = [item].
Proof. intros H. unfold split, equals_sign. now rewrite split_from_absent. Qed.

Lemma split_from_first (c : N) (a b cur : jsstring) :
  ~ In c a ->
  split_from [c] (a ++ c :: b) 0 cur = (rev cur ++ a) :: split_from [c] b 0 [].
Proof.
  revert cur. induction a as [|d a IH]; intros cur Hc.
  - cbn [app split_from startsWith length Nat.sub]. rewrite N.eqb_refl. cbn [andb].
    now rewrite app_nil_r.
  - cbn [app split_from startsWith].
    destruct (N.eqb_spec d c) as [->|Hne]; [exfalso; apply Hc; now left|].
    cbn [andb]. rewrite IH by (intros H; apply Hc; now right).
    cbn [rev]. now rewrite <- app_assoc.
Qed.

(** The first piece is the text before the first "=", the rest is the
    split of what follows it. *)
Lemma split_first (a b : jsstring) :
  ~ In 61%N a ->
  split (a ++ 61%N :: b) equals_sign = a :: split b equals_sign.
Proof.
  intros H. unfold split, equals_sign. now rewrite split_from_first.
Qed.

Lemma split_from_nonempty (sep s : jsstring) (skip : nat) (cur : jsstring) :
  split_from sep s skip cur <> [].
Proof.
  revert skip cur. induction s as [|c s IH]; intros skip cur;
    [cbn; intros H; discriminate H|].
  cbn [split_from]. destruct skip; [|apply IH].
  destruct (startsWith (c :: s) sep); [intros H; discriminate H | apply IH].
Qed.

Lemma split_nonempty (s : jsstring) : split s equals_sign <> [].
Proof. unfold split, equals_sign. apply split_from_nonempty. Qed.

(** ** What a line does *)

(** A line without "=" throws: [value] is undefined when [startsWith] is
    called on it. *)
Lemma item_entry_without_equals (this : ZookeeperClient) (item : jsstring) :
  ~ In 61%N item ->
  item_entry this item = Throw (TypeError_undefined "startsWith").
Proof. intros H. unfold item_entry. now rewrite split_absent. Qed.

(** ** What a payload does *)

Lemma apply_entries_app (es1 es2 : list (jsstring * jsstring)) (w : World) :
  apply_entries (es1 ++ es2) w = apply_entries es2 (apply_entries es1 w).
Proof. unfold apply_entries. apply fold_left_app. Qed.

Lemma forEach_spec (this : ZookeeperClient) (items : list jsstring) (w : World) :
  forEach (parse_item this) items w =
  (match snd (applied_entries this items) with
   | None => Ok tt
   | Some e => Throw e
   end,
   apply_entries (fst (applied_entries this items)) w).
Proof.
  revert w. induction items as [|item items IH]; intros w; [reflexivity|].
  cbn [forEach applied_entries]. unfold parse_item at 1.
  destruct (item_entry this item) as [[key value]|e]; [|reflexivity].
  rewrite !bind_eq. cbn [ret fst snd]. rewrite IH.
  destruct (applied_entries this items) as [entries stop]. reflexivity.
Qed.

Lemma apply_entries_cons (e : jsstring * jsstring)
    (es : list (jsstring * jsstring)) (w : World) :
  apply_entries (e :: es) w =
  apply_entries es (snd (process_env_set (fst e) (snd e) w)).
Proof. reflexivity. Qed.

Lemma apply_entries_trace (entries : list (jsstring * jsstring)) (w : World) :
  trace (apply_entries entries w) = rev (map entry_item entries) ++ trace w.
Proof.
  revert w. induction entries as [|e es IH]; intros w; [reflexivity|].
  rewrite apply_entries_cons, IH. cbn [map rev].
  rewrite <- app_assoc. reflexivity.
Qed.

Lemma apply_entries_env (entries : list (jsstring * jsstring)) (w : World) :
  env (apply_entries entries w) = fold_left write_entry entries (env w).
Proof.
  revert w. induction entries as [|e es IH]; intros w; [reflexivity|].
  rewrite apply_entries_cons, IH. reflexivity.
Qed.

Lemma apply_entries_frame (entries : list (jsstring * jsstring)) (w : World) :
  promises (apply_entries entries w) = promises w
  /\ microtasks (apply_entries entries w) = microtasks w
  /\ waiting (apply_entries entries w) = waiting w
  /\ lib (apply_entries entries w) = lib w
  /\ console (apply_entries entries w) = console w.
Proof.
  revert w. induction entries as [|e es IH]; intros w; [repeat split|].
  rewrite apply_entries_cons.
  destruct (IH (snd (process_env_set (fst e) (snd e) w))) as (H1 & H2 & H3 & H4 & H5).
  rewrite H1, H2, H3, H4, H5. repeat split.
Qed.

(** The lines whose entries were written come first, in order, and the
    line that stopped the loop follows them. *)
Lemma applied_entries_stop (this : ZookeeperClient) (items : list jsstring)
    (entries : list (jsstring * jsstring)) (e : Exn) :
  applied_entries this items = (entries, Some e) ->
  exists pre item post,
    items = pre ++ item :: post
    /\ Forall2 (fun it entry => item_entry this it = Ok entry) pre entries
    /\ item_entry this item = Throw e.
Proof.
  revert entries. induction items as [|item items IH]; intros entries H.
  - discriminate.
  - cbn [applied_entries] in H.
    destruct (item_entry this item) as [entry|e'] eqn:E.
    + destruct (applied_entries this items) as [es stop] eqn:Ea.
      inversion H; subst.
      destruct (IH es eq_refl) as (pre & it & post & -> & Hpre & Hit).
      exists (item :: pre), it, post. repeat split; auto.
    + inversion H; subst. exists [], item, items. repeat split; auto.
Qed.

Lemma applied_entries_all (this : ZookeeperClient) (items : list jsstring) :
  Forall (fun entry => exists item, In item items /\ item_entry this item = Ok entry)
         (fst (applied_entries this items)).
Proof.
  induction items as [|item items IH]; [constructor|].
  cbn [applied_entries].
  destruct (item_entry this item) as [entry|e] eqn:E; [|constructor].
  destruct (applied_entries this items) as [es stop]. cbn [fst] in *.
  constructor.
  - exists item. split; [now left | assumption].
  - eapply Forall_impl; [exact IH|]. intros en (it & Hin & Hit).
    exists it. split; [now right | assumption].
Qed.

(** A line that throws stops the loop at the latest there: the entries
    written are those of lines before it. *)
Lemma applied_entries_throwing_line (this : ZookeeperClient)
    (pre : list jsstring) (item : jsstring) (post : list jsstring) (e : Exn) :
  item_entry this item = Throw e ->
  exists applied rest entries e',
    pre = applied ++ rest
    /\ Forall2 (fun it entry => item_entry this it = Ok entry) applied entries
    /\ applied_entries this (pre ++ item :: post) = (entries, Some e')
    /\ (rest = [] -> e' = e).
Proof.
  intros Hit. induction pre as [|it pre IH].
  - exists [], [], [], e. cbn [app applied_entries]. rewrite Hit.
    repeat split; auto.
  - cbn [app applied_entries].
    destruct (item_entry this it) as [entry|e1] eqn:E.
    + destruct IH as (applied & rest & entries & e' & -> & Hap & Hae & He).
      rewrite Hae. exists (it :: applied), rest, (entry :: entries), e'.
      repeat split; auto.
    + exists [], (it :: pre), [], e1. repeat split; auto. discriminate.
Qed.

(** [parse_loaded_data], as a function of the payload. *)
Lemma parse_loaded_data_spec (this : ZookeeperClient) (data : option (list byte))
    (w : World) :
  let p := length (promises w) in
  let w1 := apply_entries (fst (payload_outcome this data))
              (set_promises (promises w ++ [Pending])
                 (set_trace (call_parse_loaded_data :: trace w) w)) in
  parse_loaded_data this data w =
  match snd (payload_outcome this data) with
  | None => (p, snd (resolve p w1))
  | Some e =>
      (p, set_console (zk_log ERROR (msg_exn e) "parse data" :: console w1) w1)
  end.
Proof.
  cbv zeta. unfold parse_loaded_data. rewrite !bind_eq.
  cbn [note modify new_promise fst snd promises set_trace].
  unfold parse_body, payload_outcome.
  destruct data as [buf|].
  - rewrite forEach_spec. cbn [fst snd].
    destruct (applied_entries this (parsed_data buf)) as [entries [e|]];
      cbn [fst snd]; rewrite !bind_eq; reflexivity.
  - cbn [ret fst snd apply_entries fold_left]. rewrite !bind_eq. reflexivity.
Qed.

(** A promise made in a well-formed state and handed to nobody is dead. *)
Lemma fresh_promise_dead (w w' : World) :
  wf w ->
  promises w' = promises w ++ [Pending] ->
  microtasks w' = microtasks w ->
  waiting w' = waiting w ->
  lib w' = lib w ->
  dead [length (promises w)] w'.
Proof.
  intros [H1 H2 H3 H4] Ep Em Ew El.
  assert (Hfree : forall k, okc exists_in w k -> free [length (promises w)] k).
  { intros k Hk p Hp [<-|[]]. specialize (Hk _ Hp). unfold exists_in in Hk. lia. }
  constructor; rewrite ?Ep, ?Em, ?Ew, ?El.
  - constructor; [|constructor].
    rewrite lookup_app_r by lia. now rewrite Nat.sub_diag.
  - eapply Forall_impl; [exact H1|]. exact Hfree.
  - eapply Forall_impl; [exact H2|]. unfold exists_in. intros p Hp [<-|[]]. lia.
  - eapply Forall_impl; [exact H3|]. unfold exists_in. intros r Hr [E|[]].
    rewrite <- E in Hr. lia.
  - eapply Forall_impl; [exact H4|]. intros qk Hqk. right. now apply Hfree.
Qed.

(** ** The fuel of [run] is never used up *)

Lemma run_fuel_unfold (n : nat) (this : ZookeeperClient) :
  run_fuel n this = run_with (retry_fuel n) this.
Proof. destruct n; reflexivity. Qed.

Lemma spends_note i w : wp (note i) w (fun _ w' => spends w w').
Proof. split; reflexivity. Qed.

Lemma spends_console_log r w : wp (console_log r) w (fun _ w' => spends w w').
Proof. split; reflexivity. Qed.

Lemma spends_unhandled_rejection e w :
  wp (unhandled_rejection e) w (fun _ w' => spends w w').
Proof. split; reflexivity. Qed.

Lemma spends_new_promise w : wp new_promise w (fun _ w' => spends w w').
Proof. split; reflexivity. Qed.

Lemma spends_await p k w : wp (await p k) w (fun _ w' => spends w w').
Proof.
  unfold wp, await, enqueue, modify.
  destruct (promises w !! p) as [[]|]; split; reflexivity.
Qed.

Lemma spends_once p w :
  wp (modify_lib (fun l => set_once_connected (once_connected l ++ [p]) l)) w
     (fun _ w' => spends w w').
Proof. split; reflexivity. Qed.

Lemma spends_throws w :
  wp throws w (fun b w' => spends w w' /\ (b = true -> remaining w' < remaining w)).
Proof.
  unfold wp, throws, spends, remaining.
  destruct (faults (lib w)) as [|b fs] eqn:Ef; cbn; repeat split; auto;
    intros; try discriminate; rewrite ?Ef; cbn; lia.
Qed.

Lemma spends_lib_call this member item h w :
  client this = Some h ->
  wp (lib_call this member item) w
     (fun r w' => spends w w' /\ (forall e, r = Throw e -> remaining w' < remaining w)).
Proof.
  intros Hc. unfold lib_call. rewrite Hc.
  wp_step ltac:(apply spends_note). intros _ w1 [E1 L1].
  wp_step ltac:(apply spends_throws). intros b w2 ([E2 L2] & Hb).
  apply wp_ret. unfold spends in *. repeat split; try congruence; try lia.
  intros e He. destruct b; [|discriminate]. specialize (Hb eq_refl). lia.
Qed.

Ltac spend lem :=
  wp_step ltac:(apply lem); intros ? ? ?;
  repeat match goal with
         | H : spends _ _ |- _ => destruct H
         | H : _ /\ _ |- _ => destruct H
         end.

(** [connect] on a client that exists: its [catch] runs only after a call
    into the library threw, that is after a fault was used up. *)
Lemma connect_with_fuel (retry : ZookeeperClient -> M pid)
    (this : ZookeeperClient) (h : nat) (n : nat) (w : World) :
  client this = Some h ->
  (forall w', exhausted w' = false -> remaining w' < n ->
     wp (retry this) w'
        (fun _ w'' => exhausted w'' = false /\ remaining w'' <= remaining w')) ->
  exhausted w = false -> remaining w <= n ->
  wp (connect_with retry this) w
     (fun _ w' => exhausted w' = false /\ remaining w' <= remaining w).
Proof.
  intros Hc Hretry He Hn. unfold connect_with.
  spend spends_note.
  wp_step ltac:(apply spends_new_promise). intros p w2 [E2 L2].
  apply wp_bind. apply wp_bind.
  eapply wp_conseq; [apply (spends_lib_call _ _ _ h); exact Hc | cbv beta].
  intros r1 w3 ([E3 L3] & T3).
  assert (Hcatch : forall e w4, exhausted w4 = false -> remaining w4 < remaining w ->
            wp (_ <- console_log (zk_log ERROR (msg_exn e) "connect") ;;
                pr <- retry this ;;
                _ <- await pr connect_after_retry ;;
                ret p) w4
               (fun _ w' => exhausted w' = false /\ remaining w' <= remaining w)).
  { intros e w4 E4 L4. spend spends_console_log.
    wp_step ltac:(apply Hretry; [congruence | lia]). intros pr w6 [E6 L6].
    spend spends_await. apply wp_ret. split; [congruence | lia]. }
  destruct r1 as [h'|e].
  - spend spends_once.
    eapply wp_conseq; [apply (spends_lib_call _ _ _ h); exact Hc | cbv beta].
    intros r w5 ([E5 L5] & T5).
    destruct r as [h''|e].
    + apply wp_ret. split; [congruence | lia].
    + apply Hcatch; [congruence | specialize (T5 e eq_refl); lia].
  - apply wp_ret. apply Hcatch; [congruence | specialize (T3 e eq_refl); lia].
Qed.

Lemma run_with_fuel (retry : ZookeeperClient -> M pid)
    (this : ZookeeperClient) (h : nat) (n : nat) (w : World) :
  client this = Some h ->
  (forall w', exhausted w' = false -> remaining w' < n ->
     wp (retry this) w'
        (fun _ w'' => exhausted w'' = false /\ remaining w'' <= remaining w')) ->
  exhausted w = false -> remaining w <= n ->
  wp (run_with retry this) w
     (fun _ w' => exhausted w' = false /\ remaining w' <= remaining w).
Proof.
  intros Hc Hretry He Hn. unfold run_with.
  spend spends_note. spend spends_new_promise.
  wp_step ltac:(apply (connect_with_fuel retry this h n);
                [exact Hc | exact Hretry | congruence | lia]).
  intros pc w3 [E3 L3].
  spend spends_await. apply wp_ret. split; [congruence | lia].
Qed.

(** With more fuel than faults to come, [retry] does not run out of it. *)
Lemma retry_fuel_enough (n : nat) (this : ZookeeperClient) (w : World) :
  exhausted w = false -> remaining w < n ->
  wp (retry_fuel n this) w
     (fun _ w' => exhausted w' = false /\ remaining w' <= remaining w).
Proof.
  revert w. induction n as [|n IH]; intros w He Hn; [lia|].
  cbn [retry_fuel]. unfold retry_with.
  spend spends_note. spend spends_new_promise.
  destruct (client this) as [h|] eqn:Hc.
  - wp_step ltac:(apply (spends_lib_call _ _ _ h); exact Hc).
    intros r w4 ([E4 L4] & _).
    destruct r as [h'|e].
    + rewrite run_fuel_unfold.
      wp_step ltac:(apply (run_with_fuel (retry_fuel n) this h n);
                    [exact Hc | intros; now apply IH | congruence | lia]).
      intros pr w5 [E5 L5].
      spend spends_await. apply wp_ret. split; [congruence | lia].
    + spend spends_unhandled_rejection. apply wp_ret. split; [congruence | lia].
  - unfold lib_call. rewrite Hc. apply wp_bind. apply wp_ret.
    spend spends_unhandled_rejection. apply wp_ret. split; [congruence | lia].
Qed.

Lemma retry_not_exhausted (this : ZookeeperClient) (w : World) :
  exhausted w = false -> exhausted (snd (retry this w)) = false.
Proof.
  intros He. unfold retry.
  apply (retry_fuel_enough (fuel w) this w He). unfold fuel, remaining. lia.
Qed.

(** Along every run of the event loop the recursion of [run] and [retry]
    ends by itself: the cut of [run_fuel] is never reached. *)
Lemma never_exhausted (script : list Step) (w : World) :
  exhausted w = false -> exhausted (exec script w) = false.
Proof.
  intros He.
  assert (HS : Stable (fun w' => exhausted w' = false) yes yes any_item).
  { apply (Stable_frame exhausted (fun x => x = false)); reflexivity. }
  eapply good_I.
  apply (exec_good _ yes yes any_item HS); [| | |exact He].
  - intros i. exact Logic.I.
  - intros this w' H. split; [|exact Logic.I].
    apply good_yes. now apply retry_not_exhausted.
  - intros config w' H.
    apply (constructor_keeps _ yes yes any_item HS); auto;
      intros; try exact Logic.I; now apply good_yes.
Qed.

(** ** Following a log through a method *)

Lemma grows_bind {X A B : Type} (f : World -> list X) (m : M A) (k : A -> M B)
    (Q1 : A -> list X -> Prop) (Q : B -> list X -> Prop) :
  grows f m Q1 ->
  (forall a new1, Q1 a new1 -> grows f (k a) (fun b new2 => Q b (new2 ++ new1))) ->
  grows f (bind m k) Q.
Proof.
  intros Hm Hk w. rewrite bind_eq.
  destruct (Hm w) as (n1 & E1 & H1).
  destruct (Hk _ _ H1 (snd (m w))) as (n2 & E2 & H2).
  exists (n2 ++ n1). rewrite E2, E1, app_assoc. split; [reflexivity | exact H2].
Qed.

Lemma grows_assoc {X A B C : Type} (f : World -> list X) (m : M A)
    (k1 : A -> M B) (k2 : B -> M C) (Q : C -> list X -> Prop) :
  grows f (bind m (fun a => bind (k1 a) k2)) Q -> grows f (bind (bind m k1) k2) Q.
Proof. intros H w. specialize (H w). now rewrite !bind_eq in *. Qed.

Lemma grows_conseq {X A : Type} (f : World -> list X) (m : M A)
    (Q Q' : A -> list X -> Prop) :
  grows f m Q -> (forall a new, Q a new -> Q' a new) -> grows f m Q'.
Proof. intros H HQ w. destruct (H w) as (new & E & HQw). exists new. auto. Qed.

Lemma grows_frames {X A : Type} (f : World -> list X) (m : M A)
    (Q : A -> list X -> Prop) :
  frames f m -> (forall a, Q a []) -> grows f m Q.
Proof. intros H HQ w. exists []. split; [apply H | apply HQ]. Qed.

Lemma grows_ret {X A : Type} (f : World -> list X) (a : A)
    (Q : A -> list X -> Prop) :
  Q a [] -> grows f (ret a) Q.
Proof. intros HQ w. exists []. split; [reflexivity | exact HQ]. Qed.

(** A step that leaves the log alone, then the rest. *)
Lemma grows_skip {X A B : Type} (f : World -> list X) (m : M A) (k : A -> M B)
    (Q : B -> list X -> Prop) :
  frames f m -> (forall a, grows f (k a) Q) -> grows f (bind m k) Q.
Proof.
  intros H Hk. apply (grows_bind f m k (fun _ new => new = [])).
  - apply grows_frames; [exact H | reflexivity].
  - intros a new1 ->. eapply grows_conseq; [apply Hk|].
    intros b new HQ. now rewrite app_nil_r.
Qed.

(** A step that adds one entry, then the rest. *)
Lemma grows_push {X A B : Type} (f : World -> list X) (m : M A) (k : A -> M B)
    (x : X) (Q : B -> list X -> Prop) :
  (forall w, f (snd (m w)) = x :: f w) ->
  (forall a, grows f (k a) (fun b new => Q b (new ++ [x]))) ->
  grows f (bind m k) Q.
Proof.
  intros H Hk. apply (grows_bind f m k (fun _ new => new = [x])).
  - intros w. exists [x]. split; [apply H | reflexivity].
  - intros a new1 ->. apply Hk.
Qed.

Lemma frames_new_promise {X : Type} (f : World -> list X) :
  (forall ps w, f (set_promises ps w) = f w) -> frames f new_promise.
Proof. intros H w. apply H. Qed.

Lemma frames_await {X : Type} (f : World -> list X) (p : pid) (k : Cont) :
  (forall x w, f (set_waiting x w) = f w) ->
  (forall x w, f (set_microtasks x w) = f w) ->
  frames f (await p k).
Proof.
  intros H1 H2 w. unfold await, enqueue, modify.
  destruct (promises w !! p) as [[]|]; cbn [snd]; auto.
Qed.

Lemma frames_throws {X : Type} (f : World -> list X) :
  (forall x w, f (set_lib x w) = f w) -> frames f throws.
Proof. intros H w. unfold throws. destruct (faults (lib w)); cbn [snd]; auto. Qed.

(** A call into the library on the handle the object holds: one entry of
    the trace, and the call returns or throws. *)
Lemma grows_lib_call {B : Type} (this : ZookeeperClient) (h : nat)
    (member : string) (item : nat -> Item) (k : Result nat -> M B)
    (Q : B -> list Item -> Prop) :
  client this = Some h ->
  (forall r, grows trace (k r) (fun b new => Q b (new ++ [item h]))) ->
  grows trace (bind (lib_call this member item) k) Q.
Proof.
  intros Hc Hk. unfold lib_call. rewrite Hc.
  apply grows_assoc. apply (grows_push _ _ _ (item h)); [reflexivity|]. intros _.
  apply grows_assoc. apply grows_skip; [apply frames_throws; reflexivity|].
  intros b. apply (grows_bind _ _ _ (fun _ new => new = [])).
  - apply grows_ret. reflexivity.
  - intros r new1 ->. eapply grows_conseq; [apply Hk|].
    intros b' new HQ. now rewrite app_nil_r.
Qed.

(** The same call leaves the console alone. *)
Lemma frames_lib_call_console (this : ZookeeperClient) (member : string)
    (item : nat -> Item) :
  frames console (lib_call this member item).
Proof.
  intros w. unfold lib_call. destruct (client this); [|reflexivity].
  rewrite !bind_eq. cbn [ret snd].
  now rewrite (frames_throws console (fun _ _ => eq_refl)).
Qed.

Lemma grows_ret_bind {X A B : Type} (f : World -> list X) (a : A) (k : A -> M B)
    (Q : B -> list X -> Prop) :
  grows f (k a) Q -> grows f (bind (ret a) k) Q.
Proof. intros H w. exact (H w). Qed.

(** Stepping through a method, one statement at a time. *)
Ltac frames_tac :=
  first [ apply frames_new_promise; reflexivity
        | apply frames_await; reflexivity
        | apply frames_throws; reflexivity
        | apply frames_lib_call_console
        | intros ?; reflexivity ].

Ltac g_step :=
  cbv beta iota;
  lazymatch goal with
  | |- grows _ (bind (bind _ _) _) _ => apply grows_assoc
  | |- grows _ (bind (ret _) _) _ => apply grows_ret_bind
  | H : grows ?f ?m _ |- grows ?f (bind ?m _) _ =>
      eapply grows_bind; [exact H | cbv beta; intros ? ? ?]
  | |- grows trace (bind (note ?i) _) _ =>
      apply (grows_push trace (note i) _ i); [reflexivity | intros _]
  | |- grows trace (bind (lib_call _ _ _) _) _ =>
      eapply grows_lib_call; [eassumption | intros [?|?]]
  | |- grows console (bind (console_log ?r) _) _ =>
      apply (grows_push console (console_log r) _ r); [reflexivity | intros _]
  | |- grows _ (bind (match ?r with _ => _ end) _) _ => destruct r
  | |- grows _ (match ?r with _ => _ end) _ => destruct r
  | |- grows _ (bind _ _) _ => apply grows_skip; [frames_tac | intros ?]
  | |- grows _ (ret _) _ => apply grows_ret
  | |- grows _ _ _ => apply grows_frames; [frames_tac | intros ?]
  end.
(** ** One client for the whole process

    [one_handle] holds along every run: each method keeps it, given that
    the object it runs on holds the client with handle 0 or none. *)

Section OneHandle.

Lemma one_handle_frame (w w' : World) :
  created (lib w') = created (lib w) ->
  instance w' = instance w ->
  on_expired (lib w') = on_expired (lib w) ->
  requests (lib w') = requests (lib w) ->
  watchers (lib w') = watchers (lib w) ->
  microtasks w' = microtasks w ->
  waiting w' = waiting w ->
  trace w' = trace w ->
  one_handle w -> one_handle w'.
Proof.
  intros E1 E2 E3 E4 E5 E6 E7 E8 [H1 H2 H3 H4 H5 H6 H7].
  constructor; rewrite ?E1, ?E2, ?E3, ?E4, ?E5, ?E6, ?E7, ?E8; assumption.
Qed.

Ltac oh_frame :=
  match goal with
  | H : one_handle ?w |- one_handle _ =>
      apply (one_handle_frame w); [..|exact H];
      try reflexivity;
      destruct w as [? ? ? ? ? ? ? ? ? ? ? []]; reflexivity
  end.

Local Abbreviation K m w Q := (wp m w (fun r w' => one_handle w' /\ Q r)).

Lemma oh_console_log r w : one_handle w -> K (console_log r) w (fun _ => True).
Proof. intros H. split; [|exact I]. cbn. oh_frame. Qed.

Lemma oh_unhandled e w : one_handle w -> K (unhandled_rejection e) w (fun _ => True).
Proof. intros H. split; [|exact I]. cbn. oh_frame. Qed.

Lemma oh_new_promise w : one_handle w -> K new_promise w (fun _ => True).
Proof. intros H. split; [|exact I]. cbn. oh_frame. Qed.

Lemma oh_throws w : one_handle w -> K throws w (fun _ => True).
Proof.
  intros H. unfold wp, throws. cbv beta. split; [|exact I].
  destruct (faults (lib w)) eqn:E; cbn [snd]; [exact H|]. oh_frame.
Qed.

Lemma oh_note i w : on_handle 0 i -> one_handle w -> K (note i) w (fun _ => True).
Proof.
  intros Hi [H1 H2 H3 H4 H5 H6 H7]. split; [|exact I].
  destruct w as [? ? ? ? ? ? ? ? ? ? ? []]. constructor; cbn in *; auto.
Qed.

Lemma oh_enqueue k w :
  (forall o, subject k = Some o -> own o) ->
  one_handle w -> K (enqueue k) w (fun _ => True).
Proof.
  intros Hk [H1 H2 H3 H4 H5 H6 H7]. split; [|exact I].
  destruct w as [? ? ? ? ? ? ? ? ? ? ? []]. constructor; cbn in *; auto.
  apply Forall_app. split; [assumption | apply List.Forall_cons; [assumption | apply List.Forall_nil]].
Qed.

Lemma oh_await p k w :
  (forall o, subject k = Some o -> own o) ->
  one_handle w -> K (await p k) w (fun _ => True).
Proof.
  intros Hk H. unfold wp, await. cbv beta.
  destruct (promises w !! p) as [[]|]; try (split; [exact H | exact I]).
  - destruct H as [H1 H2 H3 H4 H5 H6 H7]. split; [|exact I].
    destruct w as [? ? ? ? ? ? ? ? ? ? ? []]. constructor; cbn in *; auto.
    apply Forall_app. split; [assumption | apply List.Forall_cons; [assumption | apply List.Forall_nil]].
  - now apply oh_enqueue.
Qed.

Lemma oh_resolve p w : one_handle w -> K (resolve p) w (fun _ => True).
Proof.
  intros H. unfold wp, resolve. cbv beta.
  destruct (promises w !! p) as [[]|]; try (split; [exact H | exact I]).
  destruct H as [H1 H2 H3 H4 H5 H6 H7]. split; [|exact I].
  destruct w as [? ? ? ? ? ? ? ? ? ? ? []]. constructor; cbn in *; auto.
  - apply Forall_app. split; [assumption|].
    apply Forall_map. apply List.Forall_forall. intros pk Hin.
    apply filter_In in Hin. destruct Hin as [Hin _].
    rewrite List.Forall_forall in H6. exact (H6 pk Hin).
  - apply List.Forall_forall. intros pk Hin.
    apply filter_In in Hin. destruct Hin as [Hin _].
    rewrite List.Forall_forall in H6. exact (H6 pk Hin).
Qed.

Lemma oh_reject p w : one_handle w -> K (reject p) w (fun _ => True).
Proof.
  intros H. unfold wp, reject. cbv beta.
  destruct (promises w !! p) as [[]|]; try (split; [exact H | exact I]).
  split; [|exact I]. cbn. oh_frame.
Qed.

Lemma oh_modify_lib_same (f : Library -> Library) w :
  (forall l, created (f l) = created l /\ on_expired (f l) = on_expired l
             /\ requests (f l) = requests l /\ watchers (f l) = watchers l) ->
  one_handle w -> K (modify_lib f) w (fun _ => True).
Proof.
  intros Hf H. split; [|exact I]. cbn.
  destruct (Hf (lib w)) as (E1 & E2 & E3 & E4).
  apply (one_handle_frame w); auto; now destruct w.
Qed.

Lemma oh_add_once p w :
  one_handle w ->
  K (modify_lib (fun l => set_once_connected (once_connected l ++ [p]) l)) w
    (fun _ => True).
Proof. apply oh_modify_lib_same. now intros []. Qed.

Lemma oh_take_once w :
  one_handle w -> K (modify_lib (set_once_connected [])) w (fun _ => True).
Proof. apply oh_modify_lib_same. now intros []. Qed.

Lemma oh_add_disconnected w :
  one_handle w ->
  K (modify_lib (fun l => set_on_disconnected (S (on_disconnected l)) l)) w
    (fun _ => True).
Proof. apply oh_modify_lib_same. now intros []. Qed.

Lemma oh_add_error w :
  one_handle w ->
  K (modify_lib (fun l => set_on_error (S (on_error l)) l)) w (fun _ => True).
Proof. apply oh_modify_lib_same. now intros []. Qed.

Lemma oh_add_expired this w :
  own this -> one_handle w ->
  K (modify_lib (fun l => set_on_expired (on_expired l ++ [this]) l)) w
    (fun _ => True).
Proof.
  intros Ho [H1 H2 H3 H4 H5 H6 H7]. split; [|exact I].
  destruct w as [? ? ? ? ? ? ? ? ? ? ? []]. constructor; cbn in *; auto.
  apply Forall_app. split; [assumption|].
  apply List.Forall_cons; [assumption | apply List.Forall_nil].
Qed.

Lemma oh_add_request this p w :
  own this -> one_handle w ->
  K (modify_lib (fun l => set_requests (requests l ++ [(this, p)]) l)) w
    (fun _ => True).
Proof.
  intros Ho [H1 H2 H3 H4 H5 H6 H7]. split; [|exact I].
  destruct w as [? ? ? ? ? ? ? ? ? ? ? []]. constructor; cbn in *; auto.
  apply Forall_app. split; [assumption|].
  apply List.Forall_cons; [assumption | apply List.Forall_nil].
Qed.

Lemma oh_take_request i w :
  one_handle w ->
  K (modify_lib (fun l => set_requests (delete i (requests l)) l)) w
    (fun _ => True).
Proof.
  intros [H1 H2 H3 H4 H5 H6 H7]. split; [|exact I].
  destruct w as [? ? ? ? ? ? ? ? ? ? ? []]. constructor; cbn in *; auto.
  now apply Forall_delete.
Qed.

Lemma oh_add_watcher this w :
  own this -> one_handle w ->
  K (modify_lib (fun l => set_watchers (watchers l ++ [this]) l)) w
    (fun _ => True).
Proof.
  intros Ho [H1 H2 H3 H4 H5 H6 H7]. split; [|exact I].
  destruct w as [? ? ? ? ? ? ? ? ? ? ? []]. constructor; cbn in *; auto.
  apply Forall_app. split; [assumption|].
  apply List.Forall_cons; [assumption | apply List.Forall_nil].
Qed.

Lemma oh_take_watcher i w :
  one_handle w ->
  K (modify_lib (fun l => set_watchers (delete i (watchers l)) l)) w
    (fun _ => True).
Proof.
  intros [H1 H2 H3 H4 H5 H6 H7]. split; [|exact I].
  destruct w as [? ? ? ? ? ? ? ? ? ? ? []]. constructor; cbn in *; auto.
  now apply Forall_delete.
Qed.

Lemma oh_lib_call this member item w :
  own this -> on_handle 0 (item 0) ->
  one_handle w -> K (lib_call this member item) w (fun _ => True).
Proof.
  intros Ho Hi H. unfold lib_call.
  destruct Ho as [-> | ->]; [split; [exact H | exact I]|].
  apply wp_bind. eapply wp_conseq; [apply oh_note; assumption | cbv beta].
  intros _ w1 [H1 _].
  apply wp_bind. eapply wp_conseq; [apply oh_throws; assumption | cbv beta].
  intros b w2 [H2 _]. apply wp_ret. auto.
Qed.

Create HintDb oh discriminated.
#[local] Hint Resolve oh_console_log oh_unhandled oh_new_promise oh_throws oh_note
  oh_enqueue oh_await oh_resolve oh_reject oh_add_once oh_take_once
  oh_add_disconnected oh_add_error oh_add_expired oh_add_request
  oh_take_request oh_add_watcher oh_take_watcher oh_lib_call : oh.
#[local] Hint Extern 1 (on_handle _ _) =>
  cbn [on_handle handle_of]; first [exact I | reflexivity | intros ? [= <-]; reflexivity | intros ? ?; discriminate] : oh.
#[local] Hint Extern 1 (forall o, subject _ = Some o -> own o) =>
  cbn [subject]; first [intros ? [= <-]; assumption | intros ? ?; discriminate] : oh.

Ltac oh_step :=
  lazymatch goal with
  | |- wp (bind (get _) _) _ _ => apply wp_get; cbv beta
  | |- wp (bind _ _) _ _ =>
      apply wp_bind; eapply wp_conseq;
      [ solve [eauto 6 with oh] | cbv beta; intros ? ? [? ?] ]
  | |- wp (ret _) _ _ => apply wp_ret; cbv beta; split; [assumption | exact I]
  | |- wp (match ?r with _ => _ end) _ _ => destruct r
  | |- wp _ _ _ =>
      eapply wp_conseq;
      [ solve [eauto 6 with oh]
      | cbv beta; intros ? ? [? ?]; split; [assumption | exact I] ]
  end.

Lemma oh_connect_with retry this w :
  own this ->
  (forall w', one_handle w' -> K (retry this) w' (fun _ => True)) ->
  one_handle w -> K (connect_with retry this) w (fun _ => True).
Proof.
  intros Ho Hr H. unfold connect_with.
  oh_step. oh_step.
  apply wp_bind. apply wp_bind.
  eapply wp_conseq; [solve [eauto 6 with oh] | cbv beta; intros r1 ? [? _]].
  destruct r1 as [h|e].
  - oh_step. eapply wp_conseq; [solve [eauto 6 with oh] | cbv beta; intros r ? [? _]].
    destruct r; repeat oh_step.
  - apply wp_ret. repeat oh_step.
Qed.

Lemma oh_retry_with run this w :
  own this ->
  (forall w', one_handle w' -> K (run this) w' (fun _ => True)) ->
  one_handle w -> K (retry_with run this) w (fun _ => True).
Proof. intros Ho Hr H. unfold retry_with. repeat oh_step. Qed.

Lemma oh_run_with retry this w :
  own this ->
  (forall w', one_handle w' -> K (retry this) w' (fun _ => True)) ->
  one_handle w -> K (run_with retry this) w (fun _ => True).
Proof.
  intros Ho Hr H. unfold run_with.
  oh_step. oh_step.
  apply wp_bind. eapply wp_conseq; [apply oh_connect_with; eassumption | cbv beta].
  intros ? ? [? _]. repeat oh_step.
Qed.

Lemma oh_out_of_fuel w : one_handle w -> K out_of_fuel w (fun _ => True).
Proof.
  intros H. unfold out_of_fuel. oh_step.
  apply wp_bind. eapply wp_conseq with (R := fun _ w' => one_handle w' /\ True).
  - split; [|exact I]. cbn. oh_frame.
  - cbv beta. intros ? ? [? _]. oh_step.
Qed.

Lemma oh_retry_fuel n this :
  own this -> forall w, one_handle w -> K (retry_fuel n this) w (fun _ => True).
Proof.
  intros Ho. induction n as [|n IH]; intros w H.
  - now apply oh_out_of_fuel.
  - cbn [retry_fuel]. apply oh_retry_with; [assumption| |assumption].
    intros w' H'. destruct n as [|n']; cbn [run_fuel].
    + apply oh_run_with; [assumption| |assumption].
      intros; now apply oh_out_of_fuel.
    + apply oh_run_with; [assumption| |assumption]. exact IH.
Qed.

Lemma oh_retry this w :
  own this -> one_handle w -> K (retry this) w (fun _ => True).
Proof. intros Ho H. unfold retry. now apply oh_retry_fuel. Qed.

Lemma oh_run this w :
  own this -> one_handle w -> K (run this) w (fun _ => True).
Proof.
  intros Ho H. unfold run. apply oh_run_with; [assumption| |assumption].
  intros; now apply oh_retry.
Qed.

#[local] Hint Resolve oh_retry oh_run : oh.

Lemma oh_events this w :
  own this -> one_handle w -> K (events this) w (fun _ => True).
Proof. intros Ho H. unfold events. repeat oh_step. Qed.

Lemma oh_fetch_config this w :
  own this -> one_handle w -> K (fetch_config this) w (fun _ => True).
Proof. intros Ho H. unfold fetch_config. repeat oh_step. Qed.

Lemma oh_process_env_set key value w :
  one_handle w -> K (process_env_set key value) w (fun _ => True).
Proof.
  intros H. unfold process_env_set. oh_step.
  split; [|exact I]. cbn. oh_frame.
Qed.

Lemma oh_forEach this items w :
  one_handle w -> K (forEach (parse_item this) items) w (fun _ => True).
Proof.
  revert w. induction items as [|item items IH]; intros w H;
    [cbn [forEach]; oh_step|].
  cbn [forEach]. apply wp_bind.
  eapply wp_conseq with (R := fun _ w' => one_handle w' /\ True).
  - unfold parse_item. destruct (item_entry this item) as [[key value]|e].
    + apply wp_bind. eapply wp_conseq; [apply oh_process_env_set; assumption|].
      cbv beta. intros ? ? [? _]. oh_step.
    + oh_step.
  - cbv beta. intros r w1 [H1 _]. destruct r as [[]|e]; [now apply IH | oh_step].
Qed.

Lemma oh_parse_loaded_data this data w :
  one_handle w -> K (parse_loaded_data this data) w (fun _ => True).
Proof.
  intros H. unfold parse_loaded_data. oh_step. oh_step.
  apply wp_bind. eapply wp_conseq with (R := fun _ w' => one_handle w' /\ True).
  - unfold parse_body. destruct data as [buf|]; [now apply oh_forEach | oh_step].
  - cbv beta. intros r ? [? _]. destruct r as [[]|e]; repeat oh_step.
Qed.

#[local] Hint Resolve oh_events oh_fetch_config oh_parse_loaded_data : oh.

Lemma oh_run_catch this e w :
  own this -> one_handle w -> K (run_catch this e) w (fun _ => True).
Proof. intros Ho H. unfold run_catch. repeat oh_step. Qed.

#[local] Hint Resolve oh_run_catch : oh.

Lemma oh_resume k w :
  (forall o, subject k = Some o -> own o) ->
  one_handle w -> K (resume k) w (fun _ => True).
Proof.
  intros Hk H.
  destruct k as [this p|this p|p| | | |p| |p|p]; cbn [resume];
    try specialize (Hk this eq_refl); repeat oh_step.
Qed.

Lemma oh_for_each {A : Type} (f : A -> M unit) (P : A -> Prop) :
  (forall x w, P x -> one_handle w -> K (f x) w (fun _ => True)) ->
  forall l w, Forall P l -> one_handle w -> K (for_each f l) w (fun _ => True).
Proof.
  intros Hf l. induction l as [|x l IH]; intros w Hl H;
    [cbn [for_each]; oh_step|].
  inversion Hl as [|? ? Hx Hl']; subst. cbn [for_each].
  apply wp_bind. eapply wp_conseq; [apply Hf; assumption | cbv beta].
  intros ? ? [? _]. now apply IH.
Qed.

Lemma oh_emit ev w : one_handle w -> K (emit ev) w (fun _ => True).
Proof.
  intros H. destruct ev as [| | |err|i err data|i event]; cbn [emit].
  - oh_step. oh_step.
    apply (oh_for_each on_connected_listener (fun _ => True)).
    + intros p v _ Hv. unfold on_connected_listener. repeat oh_step.
    + now apply List.Forall_forall.
    + assumption.
  - oh_step. apply (oh_for_each _ (fun _ => True)); auto with oh.
    now apply List.Forall_forall.
  - oh_step. apply (oh_for_each on_expired_listener own).
    + intros this v Ho Hv. unfold on_expired_listener. repeat oh_step.
    + exact (oh_expired w H).
    + assumption.
  - oh_step. apply (oh_for_each _ (fun _ => True)); auto with oh.
    now apply List.Forall_forall.
  - oh_step. destruct (requests (lib w) !! i) as [[this p]|] eqn:E; [|oh_step].
    assert (Ho : own this)
      by exact (Forall_lookup_1 _ _ _ _ (oh_requests w H) E).
    oh_step.
    apply wp_bind. eapply wp_conseq with (R := fun _ w' => one_handle w' /\ True).
    + destruct err; repeat oh_step.
    + cbv beta. intros ? ? [? _]. unfold completion_callback.
      destruct err; repeat oh_step.
  - oh_step. destruct (watchers (lib w) !! i) as [this|] eqn:E; [|oh_step].
    assert (Ho : own this)
      by exact (Forall_lookup_1 _ _ _ _ (oh_watchers w H) E).
    oh_step. unfold watch_callback. oh_step.
    destruct (_ && _); repeat oh_step.
Qed.

Lemma own_with_client (this : ZookeeperClient) : own (with_client 0 this).
Proof. right. reflexivity. Qed.

Ltac oh_items :=
  repeat (apply List.Forall_cons;
          [ cbn [on_handle handle_of];
            first [ reflexivity | intros ? [= <-]; reflexivity
                  | intros ? ?; discriminate ]
          | ]);
  assumption.

Lemma oh_constructor config w :
  one_handle w ->
  K (new_ZookeeperClient config) w (fun r => forall o, r = Ok o -> own o).
Proof.
  intros [H1 H2 H3 H4 H5 H6 H7]. unfold wp.
  destruct w as [inst o running e c t ps wt ms un ex l].
  destruct l as [cr fs oc od oe oerr rq wa].
  cbn [lib created instance on_expired requests watchers microtasks waiting trace]
    in *.
  unfold singleton_state in H1. cbn [fst snd] in H1.
  destruct inst as [registered|].
  - split.
    + constructor; cbn; auto. oh_items.
    + cbn. intros o' [= <-]. destruct H1 as [[E _]|[E _]]; [left | right]; exact E.
  - subst cr.
    destruct fs as [|[|] [|[|] fs]]; (split; [constructor; cbn; auto|]);
      try (cbn; intros o' E; first [discriminate E | injection E as <-; right; reflexivity]);
      try (unfold singleton_state; cbn; now auto);
      oh_items.
Qed.

Lemma oh_run_zookeeper config w :
  one_handle w -> K (run_zookeeper config) w (fun _ => True).
Proof.
  intros H. unfold run_zookeeper. oh_step. oh_step. oh_step.
  destruct (negb _); [|repeat oh_step].
  apply wp_bind. eapply wp_conseq; [apply oh_constructor; assumption | cbv beta].
  intros r ? [? Hr]. destruct r as [zk|e]; [|repeat oh_step].
  specialize (Hr zk eq_refl). repeat oh_step.
Qed.

Lemma one_handle_step s w : one_handle w -> one_handle (step s w).
Proof.
  intros H. destruct s as [|ev|config|config]; cbn [step].
  - destruct (microtasks w) as [|k ks] eqn:E; [exact H|].
    pose proof (oh_microtasks w H) as F. rewrite E in F.
    inversion F as [|? ? Hk Hks]; subst.
    apply (oh_resume k); [exact Hk|].
    destruct H as [H1 H2 H3 H4 H5 H6 H7].
    destruct w as [? ? ? ? ? ? ? ? ? ? ? []]. cbn in *. subst.
    constructor; cbn; auto.
  - now apply oh_emit.
  - now apply oh_run_zookeeper.
  - now apply oh_constructor.
Qed.

Lemma one_handle_exec script w : one_handle w -> one_handle (exec script w).
Proof.
  revert w. induction script as [|s script IH]; intros w H; [exact H|].
  cbn [exec fold_left]. apply IH. now apply one_handle_step.
Qed.

Lemma one_handle_fresh fs : one_handle (fresh_process fs).
Proof. constructor; cbn; auto. Qed.

End OneHandle.


(** ** parse_loaded_data: what is written (C1, C2) *)

Lemma resolve_frame (p : pid) (w : World) :
  trace (snd (resolve p w)) = trace w
  /\ env (snd (resolve p w)) = env w
  /\ console (snd (resolve p w)) = console w
  /\ lib (snd (resolve p w)) = lib w.
Proof.
  unfold resolve. destruct (promises w !! p) as [[]|]; repeat split.
Qed.

(** What [parse_loaded_data] does to the trace, the environment and the
    console. *)
Lemma parse_loaded_data_effect (this : ZookeeperClient)
    (data : option (list byte)) (w : World) :
  let w' := snd (parse_loaded_data this data w) in
  let entries := fst (payload_outcome this data) in
  trace w' = rev (map entry_item entries) ++ call_parse_loaded_data :: trace w
  /\ env w' = fold_left write_entry entries (env w)
  /\ console w' =
       match snd (payload_outcome this data) with
       | None => console w
       | Some e => zk_log ERROR (msg_exn e) "parse data" :: console w
       end.
Proof.
  cbv zeta. rewrite parse_loaded_data_spec.
  set (w0 := set_promises _ _).
  destruct (apply_entries_frame (fst (payload_outcome this data)) w0)
    as (_ & _ & _ & _ & Hc).
  destruct (snd (payload_outcome this data)) as [e|]; cbn [snd].
  - cbn [trace env console set_console].
    rewrite apply_entries_trace, apply_entries_env, Hc. repeat split.
  - destruct (resolve_frame (length (promises w)) (apply_entries (fst (payload_outcome this data)) w0))
      as (Ht & He & Hco & _).
    rewrite Ht, He, Hco, apply_entries_trace, apply_entries_env, Hc.
    repeat split.
Qed.

Lemma keep_item_spec (item : jsstring) :
  keep_item item = true -> item <> [] /\ startsWith item hash_sign = false.
Proof.
  unfold keep_item. destruct item as [|c item]; [discriminate|].
  rewrite andb_true_iff. intros [_ H]. apply negb_true_iff in H.
  split; [intros E; discriminate E | exact H].
Qed.

(** C1. For every payload, [parse_loaded_data] decodes it as UTF-8, splits
    it on CRLF and discards the empty lines and the lines that begin with
    "#": every entry it writes to the environment is the entry of a line
    of the payload that is not empty and does not begin with "#". For the
    payload "A=1\r\n#comment\r\n\r\nB=2\r\n" exactly A="1" and then B="2"
    are written, and nothing else. *)
Theorem C1_blank_and_comment_lines_write_nothing
    (this : ZookeeperClient) (buf : list byte) (w : World) :
  (exists entries,
     trace (snd (parse_loaded_data this (Some buf) w))
       = rev (map entry_item entries) ++ call_parse_loaded_data :: trace w
     /\ env (snd (parse_loaded_data this (Some buf) w))
          = fold_left write_entry entries (env w)
     /\ Forall (fun entry =>
                  exists item,
                    In item (split (toString_utf8 buf) CRLF)
                    /\ item <> []
                    /\ startsWith item hash_sign = false
                    /\ item_entry this item = Ok entry) entries)
  /\ trace (snd (parse_loaded_data this (Some scenario_payload) w))
       = [env_set (lit "B") (lit "2"); env_set (lit "A") (lit "1");
          call_parse_loaded_data] ++ trace w
  /\ env (snd (parse_loaded_data this (Some scenario_payload) w))
       = <[lit "B" := lit "2"]> (<[lit "A" := lit "1"]> (env w)).
Proof.
  split.
  - exists (fst (payload_outcome this (Some buf))).
    destruct (parse_loaded_data_effect this (Some buf) w) as (Ht & He & _).
    split; [exact Ht|]. split; [exact He|].
    cbn [payload_outcome].
    eapply Forall_impl; [apply applied_entries_all|].
    intros entry (item & Hin & Hit). exists item.
    unfold parsed_data in Hin. apply filter_In in Hin. destruct Hin as [Hin Hk].
    destruct (keep_item_spec item Hk) as [Hne Hs]. auto.
  - destruct (parse_loaded_data_effect this (Some scenario_payload) w) as (Ht & He & _).
    assert (Ho : fst (payload_outcome this (Some scenario_payload))
                 = [(lit "A", lit "1"); (lit "B", lit "2")])
      by (vm_compute; reflexivity).
    rewrite Ho in Ht, He. split; [exact Ht | exact He].
Qed.

(** C2 (the code departs from the claim). The destructuring takes the
    first two pieces of [item.split("=")]: what follows a second "=" is
    dropped. For the line "A=b=c" the value written is "b", not "b=c". *)
Theorem C2_value_is_cut_at_the_second_equals_sign
    (this : ZookeeperClient) (w : World) :
  item_entry this (lit "A=b=c") = Ok (lit "A", lit "b")
  /\ trace (snd (parse_loaded_data this
                   (Some (Buffer_from_utf8 (lit "A=b=c" ++ CRLF))) w))
       = [env_set (lit "A") (lit "b"); call_parse_loaded_data] ++ trace w
  /\ env (snd (parse_loaded_data this
                 (Some (Buffer_from_utf8 (lit "A=b=c" ++ CRLF))) w))
       !! lit "A" = Some (lit "b").
Proof.
  split; [vm_compute; reflexivity|].
  destruct (parse_loaded_data_effect this
              (Some (Buffer_from_utf8 (lit "A=b=c" ++ CRLF))) w) as (Ht & He & _).
  assert (Ho : fst (payload_outcome this
                      (Some (Buffer_from_utf8 (lit "A=b=c" ++ CRLF))))
               = [(lit "A", lit "b")])
    by (vm_compute; reflexivity).
  rewrite Ho in Ht, He. split; [exact Ht|].
  rewrite He. cbn [fold_left write_entry fst snd]. apply lookup_insert_eq.
Qed.

(** ** decrypt_value (C3) *)

(** What [decrypt_value] would return if [crypto] were the module
    "node:crypto": a value made of the marker "devEnc:", thirty-two hex
    characters that spell the IV, and hex characters that spell the
    AES-256-CBC encryption of a plaintext under the configured key and
    that IV, is decrypted to the UTF-8 reading of that plaintext. *)
Lemma decrypt_value_with_node_crypto
    (this : ZookeeperClient) (plaintext : list byte) (ivhex cthex : jsstring) :
  length ivhex = 32 ->
  aes_256_cbc_encrypt (hex_decode (encryption_secret_key this))
    (hex_decode ivhex) plaintext = Some (hex_decode cthex) ->
  decrypt_value_with node_crypto this (devEnc ++ ivhex ++ cthex)
  = Ok (toString_utf8 plaintext).
Proof.
  intros Hiv Henc. unfold decrypt_value_with. cbn [createDecipheriv].
  rewrite replace_prefix, (slice_to_app 32), (slice_from_app 32) by assumption.
  now rewrite (aes_256_cbc_decrypt_encrypt _ _ _ _ Henc).
Qed.

(** C3 (the code departs from the claim). The value "devEnc:" followed by
    the IV of the examples and by the AES-256-CBC encryption of "s3cret"
    under the key of the examples is not decrypted: [decrypt_value]
    throws, because the global [crypto] has no [createDecipheriv]. The
    same body with the module "node:crypto" in the place of [crypto]
    returns "s3cret". As the module stands, [decrypt_value] throws on every
    input. *)
Theorem C3_decrypt_value_throws_on_an_encrypted_value :
  aes_256_cbc_encrypt (hex_decode example_key_hex) (hex_decode example_iv_hex)
    (Buffer_from_utf8 (lit "s3cret"))
  = Some (hex_decode (lit "7886fda5f5344d473b62d093627b29fb"))
  /\ decrypt_value example_client
       (devEnc ++ example_iv_hex ++ lit "7886fda5f5344d473b62d093627b29fb")
     = Throw (TypeError_not_a_function "crypto.createDecipheriv")
  /\ decrypt_value_with node_crypto example_client
       (devEnc ++ example_iv_hex ++ lit "7886fda5f5344d473b62d093627b29fb")
     = Ok (lit "s3cret")
  /\ forall (this : ZookeeperClient) (encryptedText : jsstring),
       decrypt_value this encryptedText
       = Throw (TypeError_not_a_function "crypto.createDecipheriv").
Proof.
  assert (Henc : aes_256_cbc_encrypt (hex_decode example_key_hex)
                   (hex_decode example_iv_hex) (Buffer_from_utf8 (lit "s3cret"))
                 = Some (hex_decode (lit "7886fda5f5344d473b62d093627b29fb")))
    by (vm_compute; reflexivity).
  split; [exact Henc|]. split; [reflexivity|]. split; [|reflexivity].
  rewrite (decrypt_value_with_node_crypto example_client
             (Buffer_from_utf8 (lit "s3cret")) example_iv_hex
             (lit "7886fda5f5344d473b62d093627b29fb") eq_refl Henc).
  now rewrite toString_utf8_Buffer_from.
Qed.

(** ** The singleton (C4) *)

(** The first construction registers the object it builds from its
    configuration, also when the library throws half-way. *)
Lemma constructor_registers (config : ZClientConfig) (w : World) :
  instance w = None ->
  exists first,
    instance (snd (new_ZookeeperClient config w)) = Some first
    /\ (forall r, fst (new_ZookeeperClient config w) = Ok r -> r = first)
    /\ oid first = next_oid w
    /\ connection_string first = connectionString config
    /\ username first = cfg_username config
    /\ password first = cfg_password config
    /\ path first = cfg_path config
    /\ encryption_secret_key first = encryptionSecretKey config
    /\ logger first = cfg_logger config
    /\ on_update_configurations first = onUpdateConfigurations config.
Proof.
  destruct w as [inst o running e c t ps wt ms un ex l].
  destruct l as [cr fs oc od oe oerr rq wa].
  cbn [instance]. intros ->.
  destruct fs as [|[|] [|[|] fs]]; cbn;
    eexists; (split; [reflexivity|]);
    (split; [intros r Hr; try discriminate Hr; now inversion Hr|]);
    repeat split.
Qed.

(** Once an object is registered, every construction returns it and
    changes nothing about it. *)
Lemma constructor_returns_registered (config : ZClientConfig) (w : World)
    (first : ZookeeperClient) :
  instance w = Some first ->
  fst (new_ZookeeperClient config w) = Ok first
  /\ instance (snd (new_ZookeeperClient config w)) = Some first.
Proof.
  destruct w as [inst o running e c t ps wt ms un ex l].
  cbn [instance]. intros ->. split; reflexivity.
Qed.

Lemma instance_stays (first : ZookeeperClient) (script : list Step) (w : World) :
  instance w = Some first -> instance (exec script w) = Some first.
Proof.
  assert (HS : Stable (fun w' => instance w' = Some first) yes yes any_item).
  { apply (Stable_frame instance (fun x => x = Some first)); reflexivity. }
  apply (exec_invariant _ yes yes any_item HS).
  - intros i. exact Logic.I.
  - intros w' H. now apply good_yes.
  - intros config w' H. apply good_yes.
    now apply constructor_returns_registered.
Qed.

(** C4. At most one [ZookeeperClient] is ever in use: in a process where
    none is registered yet, the first construction registers the object it
    builds from its configuration; from then on, whatever the process does
    (further constructions, calls of [run_zookeeper], events), every
    construction returns that same object, with the fields the first call
    gave it, and ignores its own argument. *)
Theorem C4_singleton (config0 : ZClientConfig) (w0 : World) :
  instance w0 = None ->
  exists first,
    instance (snd (new_ZookeeperClient config0 w0)) = Some first
    /\ (forall r, fst (new_ZookeeperClient config0 w0) = Ok r -> r = first)
    /\ connection_string first = connectionString config0
    /\ username first = cfg_username config0
    /\ password first = cfg_password config0
    /\ path first = cfg_path config0
    /\ encryption_secret_key first = encryptionSecretKey config0
    /\ forall script config,
         let w := exec script (snd (new_ZookeeperClient config0 w0)) in
         instance w = Some first
         /\ fst (new_ZookeeperClient config w) = Ok first
         /\ instance (snd (new_ZookeeperClient config w)) = Some first.
Proof.
  intros Hnone.
  destruct (constructor_registers config0 w0 Hnone)
    as (first & Hi & Hr & _ & H1 & H2 & H3 & H4 & H5 & _).
  exists first. repeat (split; [assumption|]).
  intros script config w.
  assert (Hw : instance w = Some first) by (now apply instance_stays).
  split; [exact Hw|]. now apply constructor_returns_registered.
Qed.

(** An instance: a fresh process. *)
Lemma C4_singleton_witness :
  exists first,
    instance (snd (new_ZookeeperClient example_config (fresh_process []))) = Some first
    /\ (forall r, fst (new_ZookeeperClient example_config (fresh_process [])) = Ok r
                  -> r = first)
    /\ connection_string first = connectionString example_config
    /\ username first = cfg_username example_config
    /\ password first = cfg_password example_config
    /\ path first = cfg_path example_config
    /\ encryption_secret_key first = encryptionSecretKey example_config
    /\ forall script config,
         let w := exec script
                    (snd (new_ZookeeperClient example_config (fresh_process []))) in
         instance w = Some first
         /\ fst (new_ZookeeperClient config w) = Ok first
         /\ instance (snd (new_ZookeeperClient config w)) = Some first.
Proof. apply (C4_singleton example_config (fresh_process [])). reflexivity. Defined.

(** ** The watcher of fetch_config (C8) *)

(** What [retry] adds to the trace. *)
Lemma retry_trace (allowed : Item -> Prop) (this : ZookeeperClient) (w : World) :
  retry_items_allowed allowed this ->
  exists new, trace (snd (retry this w)) = new ++ trace w /\ Forall allowed new.
Proof.
  intros Ha.
  assert (H : good (trace_extends allowed w) yes yes w (snd (retry this w))).
  { apply (retry_keeps _ yes yes allowed (Stable_trace allowed w)); auto.
    - intros w' (new & E & F). apply good_yes. exists new. auto.
    - exists []. split; [reflexivity | constructor]. }
  destruct H as [H _]. exact H.
Qed.

Lemma await_frame (p : pid) (k : Cont) (w : World) :
  trace (snd (await p k w)) = trace w
  /\ lib (snd (await p k w)) = lib w
  /\ console (snd (await p k w)) = console w
  /\ promises (snd (await p k w)) = promises w.
Proof.
  unfold await, enqueue, modify. destruct (promises w !! p) as [[]|]; repeat split.
Qed.

Lemma count_app (f : Item -> bool) (l1 l2 : list Item) :
  count f (l1 ++ l2) = count f l1 + count f l2.
Proof. unfold count. now rewrite List.filter_app, length_app. Qed.

Lemma count_zero (f : Item -> bool) (l : list Item) :
  Forall (fun i => f i = false) l -> count f l = 0.
Proof.
  unfold count. induction 1 as [|i l Hi Hl IH]; [reflexivity|].
  cbn [List.filter]. now rewrite Hi.
Qed.

(** [retry] neither fetches nor reads. *)
Lemma retry_does_not_fetch (this : ZookeeperClient) (w : World) :
  exists new,
    trace (snd (retry this w)) = new ++ trace w
    /\ Forall (fun i => is_fetch_config i = false /\ is_getData i = false) new.
Proof. apply retry_trace. repeat split. Qed.

(** One call of [fetch_config] on a client that exists: one call of
    [getData]; when it does not throw, nothing else, and one more read is
    outstanding. *)
Lemma fetch_config_effect (this : ZookeeperClient) (h : nat) (w : World) :
  client this = Some h ->
  (exists later,
     trace (snd (fetch_config this w))
       = later ++ [lib_getData h (path this); call_fetch_config] ++ trace w
     /\ Forall (fun i => is_fetch_config i = false /\ is_getData i = false) later)
  /\ (fst (throws w) = false ->
      trace (snd (fetch_config this w))
        = [lib_getData h (path this); call_fetch_config] ++ trace w
      /\ requests (lib (snd (fetch_config this w)))
           = requests (lib w) ++ [(this, length (promises w))]).
Proof.
  intros Hc. unfold fetch_config, lib_call. rewrite Hc.
  destruct w as [inst o running e c t ps wt ms un ex l].
  destruct l as [cr fs oc od oe oerr rq wa].
  destruct fs as [|[|] fs]; cbn.
  - split; [exists []; split; [reflexivity | constructor]|]. intros _. split; reflexivity.
  - split; [|discriminate].
    rewrite bind_eq. cbn [ret snd].
    match goal with
    | |- context [retry this ?v] =>
        destruct (retry_does_not_fetch this v) as (new & E & F)
    end.
    exists new. split; [exact E | exact F].
  - split; [exists []; split; [reflexivity | constructor]|]. intros _. split; reflexivity.
Qed.

Lemma throws_fst (w w' : World) :
  faults (lib w') = faults (lib w) -> fst (throws w') = fst (throws w).
Proof. unfold throws. intros ->. now destruct (faults (lib w)). Qed.

(** C8. Every firing of the watcher that [fetch_config] hands to the
    library calls [fetch_config] exactly once if the notification is "node
    data changed" and not at all otherwise; with it exactly one call of
    [getData], which carries a fresh watcher, is made. When that call does
    not throw, nothing else is added to the trace and one more read is
    outstanding. *)
Theorem C8_watch_fire_refetches_once
    (this : ZookeeperClient) (h : nat) (kind : EventKind) (node : jsstring)
    (w : World) :
  client this = Some h ->
  exists new,
    trace (snd (watch_callback this (watch_event kind node) w)) = new ++ trace w
    /\ count is_fetch_config new = refetches kind
    /\ count is_getData new = refetches kind
    /\ (count is_fetch_config new = 1 <-> kind = NODE_DATA_CHANGED)
    /\ (fst (throws w) = false ->
        new = match kind with
              | NODE_DATA_CHANGED => [lib_getData h (path this); call_fetch_config]
              | _ => []
              end
        /\ requests (lib (snd (watch_callback this (watch_event kind node) w)))
           = requests (lib w)
             ++ match kind with
                | NODE_DATA_CHANGED => [(this, length (promises w))]
                | _ => []
                end).
Proof.
  intros Hc. unfold watch_callback. rewrite bind_eq.
  assert (Hcond : ((ev_type (watch_event kind node) =? 3)%N
                   && String.eqb (ev_name (watch_event kind node)) "NODE_DATA_CHANGED")
                  = match kind with NODE_DATA_CHANGED => true | _ => false end)
    by (destruct kind; reflexivity).
  rewrite Hcond. clear Hcond.
  destruct kind;
    try (exists []; cbn [app count List.filter length refetches];
         repeat split; try discriminate; try (now rewrite app_nil_r);
         intros H; discriminate H).
  rewrite bind_eq.
  set (w1 := snd (console_log _ w)).
  destruct (await_frame (fst (fetch_config this w1)) watch_after_fetch
              (snd (fetch_config this w1))) as (Ht & Hl & _).
  rewrite Ht, Hl.
  destruct (fetch_config_effect this h w1 Hc) as ((later & E & F) & Hok).
  exists (later ++ [lib_getData h (path this); call_fetch_config]).
  assert (Hf : count is_fetch_config later = 0)
    by (apply count_zero; eapply Forall_impl; [exact F|]; now intros i [? ?]).
  assert (Hg : count is_getData later = 0)
    by (apply count_zero; eapply Forall_impl; [exact F|]; now intros i [? ?]).
  split; [rewrite E, <- app_assoc; reflexivity|].
  rewrite !count_app, Hf, Hg. cbn [count List.filter is_fetch_config is_getData
                                     length refetches Nat.add].
  split; [reflexivity|]. split; [reflexivity|]. split; [split; reflexivity|].
  intros Hthrow.
  rewrite <- (throws_fst w w1 eq_refl) in Hthrow.
  destruct (Hok Hthrow) as [E' R]. split; [|exact R].
  rewrite E', app_assoc in E. apply app_inv_tail in E.
  destruct later as [|i later]; [reflexivity|].
  apply (f_equal (@length Item)) in E. rewrite length_app in E.
  cbn [length] in E. lia.
Qed.

(** An instance: the object of the examples is told that the data of its
    node changed. *)
Lemma C8_watch_fire_refetches_once_witness :
  client example_client = Some 0
  /\ count is_fetch_config
       (trace (snd (watch_callback example_client
                      (watch_event NODE_DATA_CHANGED (path example_client))
                      (fresh_process [])))) = 1.
Proof.
  split; [reflexivity|].
  destruct (C8_watch_fire_refetches_once example_client 0 NODE_DATA_CHANGED
              (path example_client) (fresh_process []) eq_refl)
    as (new & E & F & _).
  rewrite E. cbn [fresh_process trace]. rewrite app_nil_r. exact F.
Defined.

(** ** The entry point (C9) *)

(** C9. [is_running_zookeeper] is read by the entry point and assigned
    nowhere, so it is [false] after every history of a fresh process. A
    second call made while the first cycle is still waiting for the
    connection therefore takes the same branch as the first: the
    constructor hands back the registered instance without creating a
    client, [run] is called a second time on it, [connect] is called again
    on the same handle, and the promise of the second call stays pending
    instead of resolving at once. *)
Theorem C9_duplicate_call_starts_a_second_cycle :
  (forall fs script, is_running_zookeeper (exec script (fresh_process fs)) = false)
  /\ let w1 := exec first_call (fresh_process []) in
     let w2 := exec duplicate_call w1 in
     promises w1 = [Pending; Pending; Pending]
     /\ count is_call_run (trace w1) = 1
     /\ count is_call_run (trace w2) = 2
     /\ count is_connect (trace w2) = 2
     /\ count is_call_constructor (trace w2) = 2
     /\ count is_createClient (trace w2) = 1
     /\ fst (run_zookeeper example_config w1) = 3
     /\ promises w2 !! 3 = Some Pending
     /\ microtasks w2 = [].
Proof.
  split.
  - intros fs script. now rewrite is_running_zookeeper_constant.
  - vm_compute. repeat split.
Qed.

(** ** retry (C7) *)

Lemma run_with_grows (retry : ZookeeperClient -> M pid)
    (this : ZookeeperClient) (h : nat) :
  client this = Some h ->
  grows trace (retry this) (fun _ new => Forall (retry_item h) new) ->
  grows trace (run_with retry this)
    (fun _ new => exists later,
       new = later ++ [lib_once h "connected"; call_connect; call_run]
       /\ Forall (retry_item h) later).
Proof.
  intros Hc Hr. unfold run_with, connect_with.
  repeat g_step.
  all: rewrite <- ?app_assoc; cbn [app].
  - exists [lib_connect h]. split; [reflexivity | repeat constructor].
  - exists (new1 ++ [lib_connect h]). rewrite <- app_assoc.
    split; [reflexivity | apply Forall_app; split; [assumption | repeat constructor]].
  - exists new1. split; [reflexivity | assumption].
Qed.

Lemma retry_fuel_grows (n : nat) (this : ZookeeperClient) (h : nat) :
  client this = Some h ->
  grows trace (retry_fuel n this) (fun _ new => Forall (retry_item h) new).
Proof.
  intros Hc w.
  assert (H : good (trace_extends (retry_item h) w) yes yes w
                (snd (retry_fuel n this w))).
  { apply (retry_fuel_keeps _ yes yes (retry_item h) (Stable_trace _ w)).
    - intros w' (new & E & F). apply good_yes. exists new. auto.
    - repeat split; try exact I; rewrite Hc in *; congruence.
    - exists []. split; [reflexivity | constructor]. }
  destruct H as [H _]. exact H.
Qed.

Lemma lib_call_result_frame (this : ZookeeperClient) (member : string)
    (item : nat -> Item) (ps : list PState) (t : list Item) (w : World) :
  fst (lib_call this member item (set_promises ps (set_trace t w)))
  = fst (lib_call this member item w).
Proof.
  unfold lib_call. destruct (client this); [|reflexivity].
  rewrite !bind_eq. cbn [ret fst note modify snd].
  unfold throws. cbn [lib set_promises set_trace].
  now destruct (faults (lib w)).
Qed.

Lemma lib_call_logs (this : ZookeeperClient) (member : string)
    (item : nat -> Item) (w : World) :
  console (snd (lib_call this member item w)) = console w
  /\ trace (snd (lib_call this member item w))
     = match client this with Some h => [item h] | None => [] end ++ trace w.
Proof.
  unfold lib_call. destruct (client this) as [h|]; [|split; reflexivity].
  rewrite !bind_eq. cbn [ret snd note modify].
  unfold throws. cbn [lib set_trace].
  destruct (faults (lib w)); split; reflexivity.
Qed.

(** Unless [close] throws, [retry] goes on with [run] on the same
    object: [run] calls [connect], and [connect] registers its listener on
    the handle that was just closed. *)
Lemma retry_after_close (this : ZookeeperClient) (h : nat) (w : World) :
  client this = Some h ->
  fst (lib_call this "close" lib_close w) = Ok h ->
  exists later,
    trace (snd (retry this w))
    = later ++ [lib_once h "connected"; call_connect; call_run;
                lib_close h; call_retry] ++ trace w
    /\ Forall (retry_item h) later.
Proof.
  intros Hc Hok. unfold retry, fuel. cbn [retry_fuel]. unfold retry_with.
  rewrite !bind_eq. cbn [note new_promise modify fst snd promises set_trace].
  set (w1 := set_promises (promises w ++ [Pending])
               (set_trace (call_retry :: trace w) w)).
  assert (Hr : fst (lib_call this "close" lib_close w1) = Ok h)
    by (unfold w1; now rewrite lib_call_result_frame).
  rewrite Hr. rewrite !bind_eq. cbn [ret fst snd].
  destruct (lib_call_logs this "close" lib_close w1) as (_ & Ht2).
  rewrite Hc in Ht2.
  set (w2 := snd (lib_call this "close" lib_close w1)) in *.
  match goal with
  | |- context [await ?p ?k ?v] =>
      destruct (await_frame p k v) as (-> & _)
  end.
  rewrite run_fuel_unfold.
  destruct (run_with_grows (retry_fuel (length (faults (lib w)))) this h Hc)
    with (w := w2) as (new & E & later & -> & F).
  - apply retry_fuel_grows, Hc.
  - exists later. split; [|exact F].
    rewrite E, Ht2, <- app_assoc. reflexivity.
Qed.

(** C7. [retry] closes the handle the object holds and, unless [close]
    throws, calls [run] on the same object, so that the new cycle starts
    on the handle that was just closed: [connect] registers its listener
    on it, and whatever else [retry] does before it hands control back is
    a call of [retry], [run] or [connect] or a call of [close], [once] or
    [connect] on that handle. No client is created and the registered
    instance stays. In a process, where the object is the registered
    instance, the handle is the one the constructor got from the library:
    every call into the library, before the retry and in everything that
    follows it (the listeners of [events], the reads of [fetch_config]),
    is made on that handle, and the library has handed out one client. *)
Theorem C7_retry_reuses_the_closed_handle
    (this : ZookeeperClient) (h : nat) (w : World) :
  client this = Some h ->
  (fst (lib_call this "close" lib_close w) = Ok h ->
   exists later,
     trace (snd (retry this w))
     = later ++ [lib_once h "connected"; call_connect; call_run;
                 lib_close h; call_retry] ++ trace w
     /\ Forall (retry_item h) later)
  /\ created (lib (snd (retry this w))) = created (lib w)
  /\ instance (snd (retry this w)) = instance w
  /\ forall fs script,
       w = exec script (fresh_process fs) ->
       instance w = Some this ->
       h = 0
       /\ Forall (on_handle 0) (trace w)
       /\ forall script',
            created (lib (exec script' (snd (retry this w)))) = 1
            /\ instance (exec script' (snd (retry this w))) = Some this
            /\ Forall (on_handle 0) (trace (exec script' (snd (retry this w)))).
Proof.
  intros Hc. split; [now apply retry_after_close|].
  destruct (retry_keeps_client this w) as [Hcr Hin].
  split; [exact Hcr|]. split; [exact Hin|].
  intros fs script -> Hi.
  set (w := exec script (fresh_process fs)) in *.
  assert (Hw : one_handle w) by apply one_handle_exec, one_handle_fresh.
  pose proof (oh_singleton w Hw) as Hs.
  unfold singleton_state in Hs. cbn [fst snd] in Hs. rewrite Hi in Hs.
  assert (Hh : h = 0) by (destruct Hs as [[E _]|[E _]]; congruence).
  subst h. split; [reflexivity|]. split; [exact (oh_trace w Hw)|].
  intros script'.
  assert (Hr : one_handle (snd (retry this w)))
    by (apply (oh_retry this w); [right; exact Hc | exact Hw]).
  pose proof (one_handle_exec script' _ Hr) as He.
  assert (Hi' : instance (exec script' (snd (retry this w))) = Some this)
    by (apply instance_stays; congruence).
  split; [|split; [exact Hi' | exact (oh_trace _ He)]].
  pose proof (oh_singleton _ He) as Hs'.
  unfold singleton_state in Hs'. cbn [fst snd] in Hs'. rewrite Hi' in Hs'.
  destruct Hs' as [[E _]|[_ E]]; [congruence | exact E].
Qed.

(** An instance: the [retry] that an expired session causes after a
    complete first cycle, and the cycle that follows it. *)
Lemma C7_retry_reuses_the_closed_handle_witness :
  client example_client = Some 0
  /\ fst (lib_call example_client "close" lib_close
            (exec (first_cycle example_config scenario_payload) (fresh_process [])))
     = Ok 0
  /\ (exists later,
        trace (snd (retry example_client
                      (exec (first_cycle example_config scenario_payload)
                         (fresh_process []))))
        = later ++ [lib_once 0 "connected"; call_connect; call_run;
                    lib_close 0; call_retry]
            ++ trace (exec (first_cycle example_config scenario_payload)
                        (fresh_process [])))
  /\ created (lib (exec [lib_event connected; tick; tick]
                     (snd (retry example_client
                             (exec (first_cycle example_config scenario_payload)
                                (fresh_process [])))))) = 1
  /\ firstn 12 (trace (exec [lib_event connected; tick; tick]
                         (snd (retry example_client
                                 (exec (first_cycle example_config scenario_payload)
                                    (fresh_process []))))))
     = [lib_getData 0 (lit "/config"); call_fetch_config;
        lib_on 0 "error"; lib_on 0 "expired"; lib_on 0 "disconnected"; call_events;
        lib_connect 0; lib_once 0 "connected"; call_connect; call_run;
        lib_close 0; call_retry].
Proof.
  destruct (C7_retry_reuses_the_closed_handle example_client 0
              (exec (first_cycle example_config scenario_payload) (fresh_process []))
              eq_refl) as (H1 & _ & _ & H4).
  split; [reflexivity|]. split; [vm_compute; reflexivity|].
  split.
  - destruct (H1 ltac:(vm_compute; reflexivity)) as (later & E & _).
    exists later. exact E.
  - split; [|vm_compute; reflexivity].
    exact (proj1 (proj2 (proj2 (H4 [] (first_cycle example_config scenario_payload)
                                  eq_refl ltac:(vm_compute; reflexivity)))
                   [lib_event connected; tick; tick])).
Defined.

(** C7, as stated, fails when the session expires after a complete first
    cycle: in the whole history one client is created, and the handle
    that [retry] closes is used again, by [once] and [connect]. *)
Lemma C7_closed_handle_is_reused :
  count is_createClient (trace (exec expired_scenario (fresh_process []))) = 1
  /\ used_after_close 0 (rev (trace (exec expired_scenario (fresh_process [])))).
Proof.
  split; [vm_compute; reflexivity|].
  exists (rev (skipn 5 (trace (exec expired_scenario (fresh_process []))))),
         (rev (firstn 4 (trace (exec expired_scenario (fresh_process []))))),
         (lib_connect 0).
  vm_compute. repeat split. right; right; right; left; reflexivity.
Qed.

(** ** parse_loaded_data: a payload that cannot be parsed (C5, C10) *)

Lemma applied_entries_at (this : ZookeeperClient) (pre : list jsstring)
    (item : jsstring) (post : list jsstring)
    (entries : list (jsstring * jsstring)) (e : Exn) :
  Forall2 (fun it entry => item_entry this it = Ok entry) pre entries ->
  item_entry this item = Throw e ->
  applied_entries this (pre ++ item :: post) = (entries, Some e).
Proof.
  intros F He. induction F as [|it entry pre entries Hit F IH]; cbn.
  - now rewrite He.
  - now rewrite Hit, IH.
Qed.

(** When the [try] block throws, the promise of [parse_loaded_data] is
    left pending, and nothing holds its [resolve]. *)
Lemma parse_failure (this : ZookeeperClient) (data : option (list byte))
    (entries : list (jsstring * jsstring)) (e : Exn) (w : World) :
  wf w ->
  payload_outcome this data = (entries, Some e) ->
  fst (parse_loaded_data this data w) = length (promises w)
  /\ trace (snd (parse_loaded_data this data w))
     = rev (map entry_item entries) ++ call_parse_loaded_data :: trace w
  /\ env (snd (parse_loaded_data this data w)) = fold_left write_entry entries (env w)
  /\ console (snd (parse_loaded_data this data w))
     = zk_log ERROR (msg_exn e) "parse data" :: console w
  /\ forall script,
       promises (exec script (snd (parse_loaded_data this data w)))
         !! length (promises w) = Some Pending.
Proof.
  intros Hwf Ho.
  pose proof (parse_loaded_data_effect this data w) as Heff.
  pose proof (parse_loaded_data_spec this data w) as Hspec.
  cbv zeta in Heff, Hspec. rewrite Ho in Heff, Hspec. cbn [fst snd] in Heff, Hspec.
  destruct Heff as (Ht & He & Hc).
  split; [now rewrite Hspec|]. split; [exact Ht|]. split; [exact He|].
  split; [exact Hc|].
  apply (never_settles [length (promises w)]); [|now left].
  rewrite Hspec. cbn [snd].
  match goal with
  | |- context [apply_entries entries ?v] =>
      destruct (apply_entries_frame entries v) as (Hp & Hm & Hw & Hl & _)
  end.
  apply (fresh_promise_dead w); cbn; rewrite ?Hp, ?Hm, ?Hw, ?Hl; auto.
Qed.

(** C5. When the processing of a line throws, the lines before it have
    been written and no other; the error is logged by the [catch] block,
    which does not rethrow and does not call [resolve]: the call returns
    its promise, and that promise stays pending whatever happens later. *)
Theorem C5_parse_failure_is_logged_and_the_promise_stays_pending
    (this : ZookeeperClient) (buf : list byte)
    (pre : list jsstring) (item : jsstring) (post : list jsstring)
    (entries : list (jsstring * jsstring)) (e : Exn) (w : World) :
  wf w ->
  parsed_data buf = pre ++ item :: post ->
  Forall2 (fun it entry => item_entry this it = Ok entry) pre entries ->
  item_entry this item = Throw e ->
  let p := fst (parse_loaded_data this (Some buf) w) in
  let w' := snd (parse_loaded_data this (Some buf) w) in
  console w' = zk_log ERROR (msg_exn e) "parse data" :: console w
  /\ trace w' = rev (map entry_item entries) ++ call_parse_loaded_data :: trace w
  /\ env w' = fold_left write_entry entries (env w)
  /\ p = length (promises w)
  /\ forall script, promises (exec script w') !! p = Some Pending.
Proof.
  intros Hwf Hd F He p w'.
  destruct (parse_failure this (Some buf) entries e w Hwf) as (Hp & Ht & Hv & Hc & Hs).
  { cbn [payload_outcome]. rewrite Hd. now apply applied_entries_at. }
  subst p w'. rewrite Hp. auto.
Qed.

(** An instance: the second of three lines has no equals sign. *)
Lemma C5_parse_failure_is_logged_and_the_promise_stays_pending_witness :
  console (snd (parse_loaded_data example_client (Some broken_payload) (fresh_process [])))
  = [zk_log ERROR (msg_exn (TypeError_undefined "startsWith")) "parse data"]
  /\ trace (snd (parse_loaded_data example_client (Some broken_payload) (fresh_process [])))
     = [env_set (lit "A") (lit "1"); call_parse_loaded_data]
  /\ env (snd (parse_loaded_data example_client (Some broken_payload) (fresh_process [])))
     = <[lit "A" := lit "1"]> ∅
  /\ fst (parse_loaded_data example_client (Some broken_payload) (fresh_process [])) = 0
  /\ forall script,
       promises (exec script
                   (snd (parse_loaded_data example_client (Some broken_payload)
                           (fresh_process []))))
         !! 0 = Some Pending.
Proof.
  exact (C5_parse_failure_is_logged_and_the_promise_stays_pending
           example_client broken_payload
           [lit "A=1"] (lit "B") [lit "C=3"] [(lit "A", lit "1")]
           (TypeError_undefined "startsWith") (fresh_process [])
           (reachable_wf _ (ex_intro _ [] (ex_intro _ [] eq_refl)))
           eq_refl
           ltac:(repeat constructor)
           eq_refl).
Defined.

(** C5, as stated, fails on a payload whose only line has no equals sign:
    the promise that [parse_loaded_data] returns is never resolved. *)
Lemma C5_promise_does_not_resolve :
  fst (parse_loaded_data example_client (Some (Buffer_from_utf8 (lit "A")))
         (fresh_process [])) = 0
  /\ forall script,
       promises (exec script
                   (snd (parse_loaded_data example_client
                           (Some (Buffer_from_utf8 (lit "A"))) (fresh_process []))))
         !! 0 <> Some Fulfilled.
Proof.
  split; [reflexivity|]. intros script.
  rewrite (never_settles [0] 0); [discriminate | | now left].
  apply deadb_sound. vm_compute. reflexivity.
Qed.

(** C10. A line without an equals sign makes the callback of [forEach]
    throw, at the call of [startsWith] on [undefined]. The entries that
    are written come from lines before it; the [catch] block logs the
    error; the promise of [parse_loaded_data] is neither resolved nor
    rejected, whatever happens later. *)
Theorem C10_line_without_equals_sign
    (this : ZookeeperClient) (buf : list byte)
    (pre : list jsstring) (item : jsstring) (post : list jsstring) (w : World) :
  wf w ->
  parsed_data buf = pre ++ item :: post ->
  ~ In 61%N item ->
  let p := fst (parse_loaded_data this (Some buf) w) in
  let w' := snd (parse_loaded_data this (Some buf) w) in
  item_entry this item = Throw (TypeError_undefined "startsWith")
  /\ exists applied rest entries e,
       pre = applied ++ rest
       /\ Forall2 (fun it entry => item_entry this it = Ok entry) applied entries
       /\ (rest = [] -> e = TypeError_undefined "startsWith")
       /\ trace w' = rev (map entry_item entries) ++ call_parse_loaded_data :: trace w
       /\ env w' = fold_left write_entry entries (env w)
       /\ console w' = zk_log ERROR (msg_exn e) "parse data" :: console w
       /\ forall script, promises (exec script w') !! p = Some Pending.
Proof.
  intros Hwf Hd Hno p w'.
  pose proof (item_entry_without_equals this item Hno) as He.
  split; [exact He|].
  destruct (applied_entries_throwing_line this pre item post _ He)
    as (applied & rest & entries & e & Hpre & F & Ha & Hlast).
  destruct (parse_failure this (Some buf) entries e w Hwf) as (Hp & Ht & Hv & Hc & Hs).
  { cbn [payload_outcome]. now rewrite Hd. }
  exists applied, rest, entries, e. subst p w'. rewrite Hp. auto 10.
Qed.

(** An instance: the same payload. *)
Lemma C10_line_without_equals_sign_witness :
  item_entry example_client (lit "B") = Throw (TypeError_undefined "startsWith")
  /\ count is_env_set
       (trace (snd (parse_loaded_data example_client (Some broken_payload)
                      (fresh_process [])))) = 1.
Proof.
  split.
  - exact (proj1 (C10_line_without_equals_sign example_client broken_payload
             [lit "A=1"] (lit "B") [lit "C=3"] (fresh_process [])
             (reachable_wf _ (ex_intro _ [] (ex_intro _ [] eq_refl)))
             eq_refl
             ltac:(vm_compute; intros [H|[]]; discriminate H))).
  - reflexivity.
Defined.

(** ** run: a failure in the chain (C6) *)

Lemma lib_call_grows (this : ZookeeperClient) (member : string) (item : nat -> Item) :
  grows trace (lib_call this member item) (fun _ _ => True).
Proof.
  unfold lib_call. destruct (client this) as [h|]; [|now apply grows_ret].
  apply (grows_push trace (note (item h)) _ (item h)); [reflexivity | intros _].
  apply grows_skip; [frames_tac | intros b]. now apply grows_ret.
Qed.

Lemma run_fuel_grows (n : nat) (this : ZookeeperClient) :
  grows trace (run_fuel n this) (fun _ _ => True).
Proof.
  intros w.
  assert (Hany : retry_items_allowed any_item this) by (repeat split).
  assert (Hfuel : forall w', trace_extends any_item w w' ->
                    good (trace_extends any_item w) yes yes w' (set_exhausted true w')).
  { intros w' (new & E & F). apply good_yes. exists new. auto. }
  assert (H : good (trace_extends any_item w) yes yes w (snd (run_fuel n this w))).
  { rewrite run_fuel_unfold.
    apply (run_with_keeps _ yes yes any_item (Stable_trace any_item w)); auto.
    - intros w' Hw'.
      apply (retry_fuel_keeps _ yes yes any_item (Stable_trace any_item w)); auto.
    - exists []. split; [reflexivity | constructor]. }
  destruct H as [(new & E & _) _]. exists new. auto.
Qed.

(** The first thing [retry] does is recorded first. *)
Lemma retry_with_starts (run : ZookeeperClient -> M pid) (this : ZookeeperClient) :
  grows trace (run this) (fun _ _ => True) ->
  grows trace (retry_with run this)
    (fun _ new => exists later, new = later ++ [call_retry]).
Proof.
  intros Hrun. unfold retry_with.
  g_step. g_step.
  eapply grows_bind; [apply lib_call_grows | cbv beta; intros r new1 _].
  repeat g_step.
  all: eexists; reflexivity.
Qed.

Lemma retry_starts (this : ZookeeperClient) :
  grows trace (retry this) (fun _ new => exists later, new = later ++ [call_retry]).
Proof.
  intros w. unfold retry, fuel. cbn [retry_fuel].
  apply (retry_with_starts _ this (run_fuel_grows _ this) w).
Qed.

Lemma retry_console (this : ZookeeperClient) :
  grows console (retry this) (fun _ _ => True).
Proof.
  intros w.
  assert (H : good (console_extends w) yes yes w (snd (retry this w))).
  { apply (retry_keeps _ yes yes any_item (Stable_console w)); auto.
    - intros w' (new & E). apply good_yes. exists new. auto.
    - repeat split.
    - exists []. reflexivity. }
  destruct H as [(new & E) _]. exists new. auto.
Qed.

Lemma events_console (this : ZookeeperClient) : frames console (events this).
Proof.
  assert (H : grows console (events this) (fun _ new => new = [])).
  { unfold events. repeat g_step. all: reflexivity. }
  intros w. destruct (H w) as (new & E & ->). exact E.
Qed.

Lemma run_catch_effect (this : ZookeeperClient) (e : Exn) (w : World) :
  (exists later,
     console (snd (run_catch this e w))
       = later ++ [zk_log ERROR (msg_exn e) "unhandled error"] ++ console w)
  /\ (exists later,
        trace (snd (run_catch this e w)) = later ++ [call_retry] ++ trace w).
Proof.
  split.
  - assert (H : grows console (run_catch this e)
                  (fun _ new => exists later,
                     new = later ++ [zk_log ERROR (msg_exn e) "unhandled error"])).
    { unfold run_catch. pose proof (retry_console this) as Hr.
      repeat g_step. eexists; reflexivity. }
    destruct (H w) as (new & E & later & ->). exists later.
    now rewrite E, <- app_assoc.
  - assert (H : grows trace (run_catch this e)
                  (fun _ new => exists later, new = later ++ [call_retry])).
    { unfold run_catch. pose proof (retry_starts this) as Hr.
      repeat g_step. destruct H as (later & ->). cbn [app]. eexists; reflexivity. }
    destruct (H w) as (new & E & later & ->). exists later.
    now rewrite E, <- app_assoc.
Qed.

Lemma retry_keeps_dead (D : list pid) (this : ZookeeperClient) (w : World) :
  dead D w -> keeps_pid (dead D) (outside D) (outside D) (retry this) w.
Proof.
  intros H. apply (retry_keeps _ _ _ any_item (Stable_dead D)); auto.
  - intros w' H'. apply good_outside. now apply (dead_same D w').
  - repeat split.
Qed.

(** C6. When [events] throws in the frame of [run] that [connect] has
    resumed, the [catch] block logs the error and calls [retry]. Nothing
    calls the [resolve] of [run] afterwards: if no other frame, listener
    or request holds the promises of [D], among them the promise [p] of
    this [run], they all stay pending whatever happens later, the cycle
    that [retry] starts running to its end included. *)
Theorem C6_run_failure_is_retried_and_run_stays_pending
    (this : ZookeeperClient) (p : pid) (e : Exn) (D : list pid) (w : World) :
  dead D w ->
  In p D ->
  fst (events this w) = Throw e ->
  let w' := snd (resume (run_after_connect this p) w) in
  (exists later,
     console w' = later ++ [zk_log ERROR (msg_exn e) "unhandled error"] ++ console w)
  /\ (exists later,
        trace w' = later ++ [call_retry] ++ trace (snd (events this w)))
  /\ (forall script, promises (exec script w') !! p = Some Pending)
  /\ (forall script q, In q D -> promises (exec script w') !! q = Some Pending).
Proof.
  intros Hd Hp Hev w'. subst w'. cbn [resume]. rewrite bind_eq, Hev.
  destruct (run_catch_effect this e (snd (events this w))) as [(l1 & Ec) (l2 & Et)].
  split; [exists l1; now rewrite Ec, (events_console this w)|].
  split; [exists l2; exact Et|].
  assert (Hd1 : dead D (snd (events this w))).
  { exact (good_I _ _ _ _ _
             (events_keeps _ _ _ any_item (Stable_dead D) (fun _ => I) this w Hd)). }
  assert (Hd2 : dead D (snd (run_catch this e (snd (events this w))))).
  { exact (good_I _ _ _ _ _
             (run_catch_keeps _ _ _ any_item (Stable_dead D)
                (retry_keeps_dead D) this e _ Hd1)). }
  split; [intros script | intros script q Hq]; now apply (never_settles D).
Qed.

(** An instance: the registration of the first listener throws. *)
Lemma C6_run_failure_is_retried_and_run_stays_pending_witness :
  fst (events example_client before_events) = Throw (LibraryError "on")
  /\ forall script,
       promises (exec script
                   (snd (resume (run_after_connect example_client 1) before_events)))
         !! 1 = Some Pending.
Proof.
  split; [reflexivity|].
  exact (proj1 (proj2 (proj2
           (C6_run_failure_is_retried_and_run_stays_pending
              example_client 1 (LibraryError "on") [0; 1] before_events
              (deadb_sound [0; 1] before_events eq_refl)
              (or_intror (or_introl eq_refl))
              eq_refl)))).
Defined.

(** C6, as stated, fails when the registration of the first listener
    throws: [run] logs and calls [retry], the cycle that [retry] starts
    runs to its end and the promise of [retry] is fulfilled, but the
    promise of [run] and the promise of the entry point are never
    resolved. *)
Lemma C6_run_does_not_resolve_after_retry :
  fst (run_zookeeper example_config (fresh_process events_fault)) = 0
  /\ count is_call_retry
       (trace (exec failing_events_scenario (fresh_process events_fault))) = 1
  /\ promises (exec failing_events_scenario (fresh_process events_fault))
     = [Pending; Pending; Fulfilled; Fulfilled; Fulfilled; Fulfilled;
        Fulfilled; Fulfilled]
  /\ microtasks (exec failing_events_scenario (fresh_process events_fault)) = []
  /\ forall script,
       promises (exec script (exec failing_events_scenario (fresh_process events_fault)))
         !! 1 <> Some Fulfilled
       /\ promises (exec script (exec failing_events_scenario (fresh_process events_fault)))
            !! 0 <> Some Fulfilled.
Proof.
  split; [reflexivity|]. split; [vm_compute; reflexivity|].
  split; [vm_compute; reflexivity|]. split; [vm_compute; reflexivity|].
  assert (Hd : dead [0; 1] (exec failing_events_scenario (fresh_process events_fault)))
    by (apply deadb_sound; vm_compute; reflexivity).
  intros script.
  rewrite (never_settles [0; 1] 1 _ Hd), (never_settles [0; 1] 0 _ Hd);
    [split; discriminate | now left | now right; left].
Qed.

(* ===================================================================== *)
(** * Part IV. Further properties of the module                           *)
(* ===================================================================== *)

(** ** One line of a payload *)

(** A line with an equals sign: the key is what precedes the first "=",
    the value is what lies between the first "=" and the second, if there
    is one, both trimmed; the rest of the line is not looked at. *)
Theorem item_entry_key_and_value
    (this : ZookeeperClient) (k v : jsstring) :
  ~ In 61%N k ->
  ~ In 61%N v ->
  startsWith (trim v) devEnc = false ->
  item_entry this (k ++ equals_sign ++ v) = Ok (trim k, trim v)
  /\ forall more,
       item_entry this (k ++ equals_sign ++ v ++ equals_sign ++ more)
       = Ok (trim k, trim v).
Proof.
  intros Hk Hv Hd. unfold item_entry, equals_sign. cbn [app]. split.
  - rewrite split_first, split_absent by assumption.
    cbn [map nth nth_error]. now rewrite Hd.
  - intros more. rewrite split_first, split_first by assumption.
    cbn [map nth nth_error]. now rewrite Hd.
Qed.

Lemma item_entry_key_and_value_witness :
  item_entry example_client (lit " A = 1 ") = Ok (lit "A", lit "1")
  /\ item_entry example_client (lit " A = 1 =x=y") = Ok (lit "A", lit "1").
Proof.
  destruct (item_entry_key_and_value example_client (lit " A ") (lit " 1 "))
    as [H1 H2].
  - vm_compute. intros H. repeat (destruct H as [H|H]; [discriminate H|]). exact H.
  - vm_compute. intros H. repeat (destruct H as [H|H]; [discriminate H|]). exact H.
  - reflexivity.
  - split; [exact H1 | exact (H2 (lit "x=y"))].
Defined.

(** ** A payload that parses *)

Lemma applied_entries_ok (this : ZookeeperClient) (items : list jsstring)
    (entries : list (jsstring * jsstring)) :
  Forall2 (fun it entry => item_entry this it = Ok entry) items entries ->
  applied_entries this items = (entries, None).
Proof.
  induction 1 as [|it entry items entries Hit F IH]; [reflexivity|].
  cbn [applied_entries]. now rewrite Hit, IH.
Qed.

(** When every line that is kept parses, the entries are written in the
    order of the lines, nothing is logged, and the promise is fulfilled
    before [parse_loaded_data] returns. *)
Theorem parse_loaded_data_success
    (this : ZookeeperClient) (buf : list byte)
    (entries : list (jsstring * jsstring)) (w : World) :
  Forall2 (fun it entry => item_entry this it = Ok entry) (parsed_data buf) entries ->
  fst (parse_loaded_data this (Some buf) w) = length (promises w)
  /\ promises (snd (parse_loaded_data this (Some buf) w)) !! length (promises w)
     = Some Fulfilled
  /\ console (snd (parse_loaded_data this (Some buf) w)) = console w
  /\ trace (snd (parse_loaded_data this (Some buf) w))
     = rev (map entry_item entries) ++ call_parse_loaded_data :: trace w
  /\ env (snd (parse_loaded_data this (Some buf) w))
     = fold_left write_entry entries (env w).
Proof.
  intros F.
  pose proof (parse_loaded_data_effect this (Some buf) w) as Heff.
  pose proof (parse_loaded_data_spec this (Some buf) w) as Hspec.
  cbv zeta in Heff, Hspec. cbn [payload_outcome] in Heff, Hspec.
  rewrite (applied_entries_ok _ _ _ F) in Heff, Hspec. cbn [fst snd] in Heff, Hspec.
  destruct Heff as (Ht & He & Hc).
  split; [now rewrite Hspec|]. split; [|auto].
  rewrite Hspec. cbn [snd].
  match goal with
  | |- context [apply_entries entries ?v] =>
      destruct (apply_entries_frame entries v) as (Hp & _);
      set (w1 := apply_entries entries v) in *
  end.
  cbn [promises set_promises] in Hp.
  unfold resolve. rewrite Hp.
  rewrite lookup_app_r, Nat.sub_diag by lia. cbn [lookup list_lookup snd promises
    set_microtasks set_waiting set_promises].
  apply list_lookup_insert_eq. rewrite length_app. cbn. lia.
Qed.

Lemma parse_loaded_data_success_witness :
  promises (snd (parse_loaded_data example_client (Some scenario_payload)
                   (fresh_process []))) !! 0 = Some Fulfilled.
Proof.
  exact (proj1 (proj2 (parse_loaded_data_success example_client scenario_payload
                         [(lit "A", lit "1"); (lit "B", lit "2")] (fresh_process [])
                         ltac:(repeat constructor)))).
Defined.

(** ** The environment after a payload *)

Lemma fold_write_entry_lookup (entries : list (jsstring * jsstring))
    (m : gmap jsstring jsstring) (k : jsstring) :
  fold_left write_entry entries m !! k
  = match last_value k (omap stored entries) with
    | Some v => Some v
    | None => m !! k
    end.
Proof.
  revert m. induction entries as [|entry rest IH]; intros m; [reflexivity|].
  cbn [fold_left omap list_omap]. rewrite IH.
  unfold write_entry, setenv.
  destruct (stored entry) as [kept|] eqn:E; unfold stored in E;
    destruct (env_name_ok (env_text (fst entry))); try discriminate E;
    [|reflexivity].
  injection E as <-. cbn [last_value fst snd].
  destruct (last_value k (omap stored rest)) as [v|]; [reflexivity|].
  destruct (bool_decide_reflect (env_text (fst entry) = k)) as [<-|Hne].
  - apply lookup_insert_eq.
  - now apply lookup_insert_ne.
Qed.

(** Of several lines that set the same variable the last one wins, and a
    variable that no line sets keeps its value. The variable a line sets
    is the one the environment keeps: name and value end at their first
    NUL, and a line whose name is then empty sets nothing. *)
Theorem parse_loaded_data_last_write_wins
    (this : ZookeeperClient) (buf : list byte)
    (entries : list (jsstring * jsstring)) (w : World) (k : jsstring) :
  Forall2 (fun it entry => item_entry this it = Ok entry) (parsed_data buf) entries ->
  env (snd (parse_loaded_data this (Some buf) w)) !! k
  = match last_value k (omap stored entries) with
    | Some v => Some v
    | None => env w !! k
    end.
Proof.
  intros F.
  destruct (parse_loaded_data_effect this (Some buf) w) as (_ & He & _).
  cbn [payload_outcome] in He. rewrite (applied_entries_ok _ _ _ F) in He.
  cbn [fst] in He. rewrite He. apply fold_write_entry_lookup.
Qed.

(** An instance: the second line overwrites the first, the value of the
    third ends at its NUL, and the fourth, with an empty name, sets
    nothing. *)
Lemma parse_loaded_data_last_write_wins_witness :
  env (snd (parse_loaded_data example_client
              (Some (Buffer_from_utf8
                       (lit "A=1" ++ CRLF ++ lit "A=2" ++ CRLF
                        ++ lit "B=x" ++ [0%N] ++ lit "y" ++ CRLF ++ lit "=z")))
              (fresh_process [])))
  = <[lit "B" := lit "x"]> (<[lit "A" := lit "2"]> ∅).
Proof.
  apply map_eq. intros k.
  rewrite (parse_loaded_data_last_write_wins example_client
             (Buffer_from_utf8
                (lit "A=1" ++ CRLF ++ lit "A=2" ++ CRLF
                 ++ lit "B=x" ++ [0%N] ++ lit "y" ++ CRLF ++ lit "=z"))
             [(lit "A", lit "1"); (lit "A", lit "2");
              (lit "B", lit "x" ++ [0%N] ++ lit "y"); ([], lit "z")]
             (fresh_process []) k ltac:(repeat constructor)).
  change (omap stored
            [(lit "A", lit "1"); (lit "A", lit "2");
             (lit "B", lit "x" ++ [0%N] ++ lit "y"); ([], lit "z")])
    with [(lit "A", lit "1"); (lit "A", lit "2"); (lit "B", lit "x")].
  cbn [last_value fst snd].
  destruct (bool_decide_reflect (lit "B" = k)) as [<-|HB]; [reflexivity|].
  rewrite (lookup_insert_ne _ _ _ _ HB).
  destruct (bool_decide_reflect (lit "A" = k)) as [<-|HA]; [reflexivity|].
  now rewrite (lookup_insert_ne _ _ _ _ HA).
Defined.

(** [parse_loaded_data] never removes a variable, whatever the payload:
    a key that the new data no longer mentions stays set. *)
Theorem parse_loaded_data_removes_nothing
    (this : ZookeeperClient) (data : option (list byte)) (w : World)
    (k : jsstring) :
  is_Some (env w !! k) ->
  is_Some (env (snd (parse_loaded_data this data w)) !! k).
Proof.
  intros H.
  destruct (parse_loaded_data_effect this data w) as (_ & He & _).
  rewrite He, fold_write_entry_lookup.
  now destruct (last_value k (omap stored (fst (payload_outcome this data)))).
Qed.

Lemma parse_loaded_data_removes_nothing_witness :
  is_Some (env (snd (parse_loaded_data example_client (Some [])
                       (snd (parse_loaded_data example_client
                               (Some scenario_payload) (fresh_process [])))))
           !! lit "A").
Proof.
  apply parse_loaded_data_removes_nothing. vm_compute. eexists. reflexivity.
Defined.

Lemma fold_write_entry_twice (entries : list (jsstring * jsstring))
    (m : gmap jsstring jsstring) :
  fold_left write_entry entries (fold_left write_entry entries m)
  = fold_left write_entry entries m.
Proof.
  apply map_eq. intros k. rewrite !fold_write_entry_lookup.
  now destruct (last_value k (omap stored entries)).
Qed.

(** Delivering the same data again leaves the environment as it is. *)
Theorem parse_loaded_data_twice
    (this : ZookeeperClient) (data : option (list byte)) (w : World) :
  env (snd (parse_loaded_data this data (snd (parse_loaded_data this data w))))
  = env (snd (parse_loaded_data this data w)).
Proof.
  destruct (parse_loaded_data_effect this data w) as (_ & He & _).
  destruct (parse_loaded_data_effect this data (snd (parse_loaded_data this data w)))
    as (_ & He' & _).
  rewrite He', He. apply fold_write_entry_twice.
Qed.

(** ** Line endings *)

Lemma split_from_none (sep s cur : jsstring) :
  occursb sep s = false -> split_from sep s 0 cur = [rev cur ++ s].
Proof.
  revert cur. induction s as [|c s IH]; intros cur H.
  - cbn. now rewrite app_nil_r.
  - cbn [occursb] in H. apply orb_false_iff in H. destruct H as [Hs Ho].
    cbn [split_from]. rewrite Hs, IH by exact Ho.
    cbn [rev]. now rewrite <- app_assoc.
Qed.

Lemma applied_entries_length (this : ZookeeperClient) (items : list jsstring) :
  length (fst (applied_entries this items)) <= length items.
Proof.
  induction items as [|item items IH]; [reflexivity|].
  cbn [applied_entries]. destruct (item_entry this item); [|cbn; lia].
  destruct (applied_entries this items). cbn [fst length] in *. lia.
Qed.

(** Lines are separated by CR LF only. A payload without that sequence,
    one with bare line feeds for instance, is a single line: it sets at
    most one variable. *)
Theorem parse_loaded_data_without_CRLF
    (this : ZookeeperClient) (buf : list byte) (w : World) :
  occursb CRLF (toString_utf8 buf) = false ->
  parsed_data buf = List.filter keep_item [toString_utf8 buf]
  /\ exists new,
       trace (snd (parse_loaded_data this (Some buf) w))
       = new ++ call_parse_loaded_data :: trace w
       /\ length new <= 1.
Proof.
  intros H.
  assert (Hp : parsed_data buf = List.filter keep_item [toString_utf8 buf]).
  { unfold parsed_data, split, CRLF. fold CRLF. now rewrite split_from_none. }
  split; [exact Hp|].
  destruct (parse_loaded_data_effect this (Some buf) w) as (Ht & _).
  eexists. split; [exact Ht|].
  rewrite length_rev, length_map. cbn [payload_outcome].
  etransitivity; [apply applied_entries_length|].
  rewrite Hp. cbn [List.filter]. destruct (keep_item _); cbn; lia.
Qed.

Lemma parse_loaded_data_without_CRLF_witness :
  parsed_data (Buffer_from_utf8 (lit "A=1" ++ [10%N] ++ lit "B=2"))
  = [lit "A=1" ++ [10%N] ++ lit "B=2"].
Proof.
  exact (proj1 (parse_loaded_data_without_CRLF example_client
                  (Buffer_from_utf8 (lit "A=1" ++ [10%N] ++ lit "B=2"))
                  (fresh_process []) eq_refl)).
Defined.

(** ** decrypt_value and the hex codec *)









Lemma blocks_of_short (l : list byte) :
  length l < 16 -> blocks_of l = Some [] \/ blocks_of l = None.
Proof.
  intros H.
  do 16 (destruct l as [|? l]; [cbn; auto|]).
  cbn [length] in H. lia.
Qed.

Lemma hex_decode_length (s : jsstring) : 2 * length (hex_decode s) <= length s.
Proof.
  remember (length s) as n eqn:Hn. revert s Hn.
  induction n as [n IH] using lt_wf_ind. intros s Hn.
  destruct s as [|a [|b s]]; cbn [hex_decode length]; try lia.
  destruct (hex_value (N.land a 255)), (hex_value (N.land b 255));
    cbn [length]; try lia.
  specialize (IH (length s)). cbn [length] in Hn.
  specialize (IH ltac:(lia) s eq_refl). lia.
Qed.

(** A value with fewer than 64 characters after the marker (32 for the
    IV and 32 for one block) makes [decrypt_value] throw, whichever of the
    two objects [crypto] is: the global has no [createDecipheriv], and the
    decipher of "node:crypto" is left without a whole block. *)
Theorem decrypt_value_too_short
    (c : CryptoObject) (this : ZookeeperClient) (encryptedText : jsstring) :
  length (replace encryptedText devEnc []) < 64 ->
  decrypt_value_with c this encryptedText
  = Throw (match c with
           | web_crypto => TypeError_not_a_function "crypto.createDecipheriv"
           | node_crypto => DecipherError
           end).
Proof.
  intros H. unfold decrypt_value_with. destruct c; cbn [createDecipheriv];
    [reflexivity|].
  unfold aes_256_cbc_decrypt.
  set (t := replace encryptedText devEnc []) in *.
  assert (Hct : length (hex_decode (slice_from 32 t)) < 16).
  { pose proof (hex_decode_length (slice_from 32 t)) as Hl.
    unfold slice_from in *. rewrite length_skipn in Hl. lia. }
  destruct (blocks_of_short _ Hct) as [-> | ->];
    destruct (negb _); [reflexivity| |reflexivity|];
    destruct (blocks_of _) as [[|? [|? ?]]|]; reflexivity.
Qed.

Lemma decrypt_value_too_short_witness :
  decrypt_value_with node_crypto example_client (devEnc ++ example_iv_hex)
  = Throw DecipherError
  /\ decrypt_value example_client (devEnc ++ example_iv_hex)
     = Throw (TypeError_not_a_function "crypto.createDecipheriv").
Proof.
  split.
  - apply (decrypt_value_too_short node_crypto). vm_compute. lia.
  - apply (decrypt_value_too_short web_crypto). vm_compute. lia.
Defined.

(** ** An encrypted line *)

(** A line whose value begins with the marker "devEnc:" never sets its
    variable: the value is handed to [decrypt_value], which throws, so the
    callback of [forEach] throws before anything is assigned. A payload
    with such a line is written up to that line and no further; the error
    is logged and the promise of [parse_loaded_data] stays pending. *)
Theorem encrypted_line_is_never_written
    (this : ZookeeperClient) (k v : jsstring) :
  ~ In 61%N k ->
  ~ In 61%N v ->
  startsWith (trim v) devEnc = true ->
  item_entry this (k ++ equals_sign ++ v)
  = Throw (TypeError_not_a_function "crypto.createDecipheriv")
  /\ (forall more,
        item_entry this (k ++ equals_sign ++ v ++ equals_sign ++ more)
        = Throw (TypeError_not_a_function "crypto.createDecipheriv"))
  /\ forall (buf : list byte) (pre post : list jsstring)
       (entries : list (jsstring * jsstring)) (w : World),
       wf w ->
       parsed_data buf = pre ++ (k ++ equals_sign ++ v) :: post ->
       Forall2 (fun it entry => item_entry this it = Ok entry) pre entries ->
       env (snd (parse_loaded_data this (Some buf) w))
       = fold_left write_entry entries (env w)
       /\ console (snd (parse_loaded_data this (Some buf) w))
          = zk_log ERROR
              (msg_exn (TypeError_not_a_function "crypto.createDecipheriv"))
              "parse data" :: console w
       /\ forall script,
            promises (exec script (snd (parse_loaded_data this (Some buf) w)))
              !! fst (parse_loaded_data this (Some buf) w) = Some Pending.
Proof.
  intros Hk Hv Hd.
  assert (H1 : item_entry this (k ++ equals_sign ++ v)
               = Throw (TypeError_not_a_function "crypto.createDecipheriv")).
  { unfold item_entry, equals_sign. cbn [app].
    rewrite split_first, split_absent by assumption.
    cbn [map nth nth_error]. now rewrite Hd. }
  split; [exact H1|]. split.
  - intros more. unfold item_entry, equals_sign. cbn [app].
    rewrite split_first, split_first by assumption.
    cbn [map nth nth_error]. now rewrite Hd.
  - intros buf pre post entries w Hwf Hp F.
    destruct (parse_failure this (Some buf) entries
                (TypeError_not_a_function "crypto.createDecipheriv") w Hwf)
      as (Hpid & _ & He & Hc & Hs).
    { cbn [payload_outcome]. rewrite Hp. now apply applied_entries_at. }
    rewrite Hpid. auto.
Qed.

(** An instance, on the payload of a plain line followed by a secret: the
    plain line is written, the secret is not. *)
Lemma encrypted_line_is_never_written_witness :
  item_entry example_client
    (lit "SECRET=devEnc:000102030405060708090a0b0c0d0e0f7886fda5f5344d473b62d093627b29fb")
  = Throw (TypeError_not_a_function "crypto.createDecipheriv")
  /\ env (snd (parse_loaded_data example_client
                 (Some (Buffer_from_utf8
                          (lit "A=1" ++ CRLF
                           ++ lit "SECRET=devEnc:000102030405060708090a0b0c0d0e0f7886fda5f5344d473b62d093627b29fb")))
                 (fresh_process [])))
     = <[lit "A" := lit "1"]> ∅.
Proof.
  destruct (encrypted_line_is_never_written example_client (lit "SECRET")
              (lit "devEnc:000102030405060708090a0b0c0d0e0f7886fda5f5344d473b62d093627b29fb"))
    as (H1 & _ & H3).
  - vm_compute. intros H. repeat (destruct H as [H|H]; [discriminate H|]). exact H.
  - vm_compute. intros H. repeat (destruct H as [H|H]; [discriminate H|]). exact H.
  - reflexivity.
  - split; [exact H1|].
    exact (proj1 (H3 (Buffer_from_utf8
                        (lit "A=1" ++ CRLF
                         ++ lit "SECRET=devEnc:000102030405060708090a0b0c0d0e0f7886fda5f5344d473b62d093627b29fb"))
                     [lit "A=1"] [] [(lit "A", lit "1")] (fresh_process [])
                     (reachable_wf _ (ex_intro _ [] (ex_intro _ [] eq_refl)))
                     eq_refl ltac:(repeat constructor))).
Defined.

(** ** The constructor and the client of the library *)

Lemma constructor_singleton_state (config : ZClientConfig) (w : World) :
  singleton_state (created (lib w), instance w) ->
  singleton_state
    (created (lib (snd (new_ZookeeperClient config w))),
     instance (snd (new_ZookeeperClient config w))).
Proof.
  unfold singleton_state.
  destruct w as [inst o running e c t ps wt ms un ex l].
  destruct l as [cr fs oc od oe oerr rq wa].
  destruct inst as [registered|]; [exact (fun H => H)|].
  cbn [fst snd lib created instance]. intros ->.
  destruct fs as [|[|] [|[|] fs]]; vm_compute; auto.
Qed.

Lemma singleton_state_forever (script : list Step) (w : World) :
  singleton_state (created (lib w), instance w) ->
  singleton_state (created (lib (exec script w)), instance (exec script w)).
Proof.
  apply (exec_invariant
           (fun w' => singleton_state (created (lib w'), instance w'))
           yes yes any_item).
  - apply (Stable_frame (fun w' => (created (lib w'), instance w'))
             singleton_state any_item); reflexivity.
  - intros i. exact I.
  - intros w' H. apply good_yes. exact H.
  - intros config w' H. apply good_yes. now apply constructor_singleton_state.
Qed.

(** The library is asked for a client by the first construction only:
    whatever happens in a process, retries included, the library hands out
    at most one client, and the registered instance holds that client or
    none. *)
Theorem at_most_one_client_is_created (fs : list bool) (script : list Step) :
  created (lib (exec script (fresh_process fs))) <= 1
  /\ forall this,
       instance (exec script (fresh_process fs)) = Some this ->
       (client this = None /\ created (lib (exec script (fresh_process fs))) = 0)
       \/ (client this = Some 0
           /\ created (lib (exec script (fresh_process fs))) = 1).
Proof.
  pose proof (singleton_state_forever script (fresh_process fs) eq_refl) as H.
  unfold singleton_state in H. cbn [fst snd] in H.
  destruct (instance (exec script (fresh_process fs))) as [this|].
  - split; [destruct H as [[_ ->]|[_ ->]]; lia|].
    intros this' E. injection E as <-. exact H.
  - split; [lia | discriminate].
Qed.

(** [createClient] is called after the instance is registered. When it
    throws, the constructor throws, but the object stays registered
    without a client: every later construction returns that object and
    does not throw. *)
Theorem constructor_failure_leaves_the_instance_registered
    (config : ZClientConfig) (w : World) (fs : list bool) :
  instance w = None ->
  faults (lib w) = true :: fs ->
  fst (new_ZookeeperClient config w) = Throw (LibraryError "createClient")
  /\ exists half,
       instance (snd (new_ZookeeperClient config w)) = Some half
       /\ client half = None
       /\ forall script config',
            fst (new_ZookeeperClient config'
                   (exec script (snd (new_ZookeeperClient config w))))
            = Ok half.
Proof.
  intros Hi Hf.
  assert (H : fst (new_ZookeeperClient config w) = Throw (LibraryError "createClient")
              /\ exists half,
                   instance (snd (new_ZookeeperClient config w)) = Some half
                   /\ client half = None).
  { destruct w as [inst o running e c t ps wt ms un ex l].
    destruct l as [cr fs' oc od oe oerr rq wa].
    cbn [instance lib faults] in Hi, Hf. subst inst fs'.
    split; [vm_compute; reflexivity|].
    eexists. split; [vm_compute; reflexivity | reflexivity]. }
  destruct H as (Ht & half & Hh & Hc).
  split; [exact Ht|]. exists half. split; [exact Hh|]. split; [exact Hc|].
  intros script config'.
  apply constructor_returns_registered. now apply instance_stays.
Qed.

Lemma constructor_failure_leaves_the_instance_registered_witness :
  fst (new_ZookeeperClient example_config (fresh_process [true]))
  = Throw (LibraryError "createClient")
  /\ fst (new_ZookeeperClient other_config
            (snd (new_ZookeeperClient example_config (fresh_process [true]))))
     = Ok {| oid := 0; client := None;
             connection_string := lit "zk:2181"; username := lit "user";
             password := lit "pass"; path := lit "/config";
             encryption_secret_key := example_key_hex;
             logger := None; on_update_configurations := None |}.
Proof.
  destruct (constructor_failure_leaves_the_instance_registered
              example_config (fresh_process [true]) [] eq_refl eq_refl)
    as (Ht & half & Hh & _ & Hlater).
  split; [exact Ht|].
  pose proof (Hlater [] other_config) as Hl. cbn [exec fold_left] in Hl.
  rewrite Hl. f_equal.
  vm_compute in Hh. now injection Hh as <-.
Defined.

(** ** Rejection *)

Lemma no_new_rejection_retry (w0 : World) (this : ZookeeperClient) (w : World) :
  no_new_rejection w0 w ->
  keeps_pid (no_new_rejection w0) yes (made_since w0) (retry this) w.
Proof.
  intros H. apply (retry_keeps _ _ _ any_item (Stable_no_new_rejection w0)); auto.
  - intros w' H'. repeat split; auto; apply H'.
  - repeat split.
Qed.

Lemma no_new_rejection_constructor (w0 : World) (config : ZClientConfig) (w : World) :
  no_new_rejection w0 w ->
  keeps (no_new_rejection w0) yes (made_since w0) (new_ZookeeperClient config) w.
Proof.
  intros H.
  apply (constructor_keeps _ _ _ any_item (Stable_no_new_rejection w0)); auto;
    intros; try exact I; repeat split; auto;
    match goal with Hn : no_new_rejection _ _ |- _ => apply Hn end.
Qed.

Lemma no_new_rejection_forever (w0 : World) (script : list Step) (w : World) :
  no_new_rejection w0 w -> no_new_rejection w0 (exec script w).
Proof.
  apply (exec_invariant _ yes (made_since w0) any_item (Stable_no_new_rejection w0)).
  - intros i. exact I.
  - intros w' H'. repeat split; auto; apply H'.
  - intros config w'. apply no_new_rejection_constructor.
Qed.

(** A promise that exists and is not rejected when the invariant is set up
    is not rejected later. *)
Lemma never_rejected_after (w1 w' : World) (p : pid) :
  p < length (promises w1) ->
  promises w1 !! p <> Some Rejected ->
  no_new_rejection w1 w' ->
  forall script, promises (exec script w') !! p <> Some Rejected.
Proof.
  intros Hp Hn H script Hr.
  destruct (no_new_rejection_forever w1 script w' H) as [_ Hrej].
  now apply Hn, Hrej.
Qed.

Lemma no_new_rejection_refl (w : World) : no_new_rejection w w.
Proof. split; [lia | auto]. Qed.

(** [run] never rejects: whatever happens after a call of [run], the
    promise it returned is pending or fulfilled. *)
Theorem run_is_never_rejected
    (this : ZookeeperClient) (w : World) (script : list Step) :
  promises (exec script (snd (run this w))) !! fst (run this w) <> Some Rejected.
Proof.
  unfold run, run_with. rewrite !bind_eq. cbn [ret fst snd].
  set (w0 := snd (note call_run w)).
  set (w1 := snd (new_promise w0)).
  assert (Hp : fst (new_promise w0) = length (promises w1) - 1
               /\ length (promises w1) = S (length (promises w0))
               /\ promises w1 !! length (promises w0) = Some Pending).
  { unfold w1, new_promise. cbn [fst snd promises set_promises].
    rewrite length_app. cbn [length].
    rewrite lookup_app_r, Nat.sub_diag by lia. repeat split; lia. }
  destruct Hp as (Hp1 & Hp2 & Hp3).
  change (fst (new_promise w0)) with (length (promises w0)) in *.
  pose proof (connect_keeps _ _ _ any_item (Stable_no_new_rejection w1)
                (fun _ => I) (no_new_rejection_retry w1) this w1
                (no_new_rejection_refl w1)) as [Hc _].
  fold (connect this) in *.
  pose proof (keeps_await _ _ _ any_item (Stable_no_new_rejection w1)
                (fst (connect this w1))
                (run_after_connect this (length (promises w0)))
                (snd (connect this w1)) (good_I _ _ _ _ _ Hc)
                (fun _ _ => I)) as Ha.
  apply (never_rejected_after w1);
    [lia | intros E; unfold pid in *; congruence |].
  exact (good_I _ _ _ _ _ Ha).
Qed.

Lemma constructor_result_frame (config : ZClientConfig)
    (ps : list PState) (t : list Item) (w : World) :
  fst (new_ZookeeperClient config (set_promises ps (set_trace t w)))
  = fst (new_ZookeeperClient config w).
Proof.
  destruct w as [inst o running e c t0 ps0 wt ms un ex l].
  destruct l as [cr fs oc od oe oerr rq wa].
  destruct inst as [registered|]; [reflexivity|].
  destruct fs as [|[|] [|[|] fs]]; vm_compute; reflexivity.
Qed.

Lemma constructor_frame (config : ZClientConfig) (w : World) :
  promises (snd (new_ZookeeperClient config w)) = promises w
  /\ console (snd (new_ZookeeperClient config w)) = console w
  /\ waiting (snd (new_ZookeeperClient config w)) = waiting w
  /\ microtasks (snd (new_ZookeeperClient config w)) = microtasks w.
Proof.
  destruct w as [inst o running e c t0 ps0 wt ms un ex l].
  destruct l as [cr fs oc od oe oerr rq wa].
  destruct inst as [registered|]; [repeat split|].
  destruct fs as [|[|] [|[|] fs]]; vm_compute; repeat split.
Qed.

(** When the constructor throws, the entry point logs the error and
    rejects its promise; [run] is not called and nothing is scheduled. *)
Theorem run_zookeeper_rejects_when_the_constructor_throws
    (config : ZClientConfig) (w : World) (e : Exn) :
  is_running_zookeeper w = false ->
  fst (new_ZookeeperClient config w) = Throw e ->
  fst (run_zookeeper config w) = length (promises w)
  /\ promises (snd (run_zookeeper config w)) = promises w ++ [Rejected]
  /\ console (snd (run_zookeeper config w))
     = zk_log ERROR (msg_run_zookeeper e) "" :: console w
  /\ waiting (snd (run_zookeeper config w)) = waiting w
  /\ microtasks (snd (run_zookeeper config w)) = microtasks w.
Proof.
  intros Hrun Hthrow. unfold run_zookeeper.
  rewrite !bind_eq.
  cbn [get note new_promise modify fst snd is_running_zookeeper set_promises set_trace].
  rewrite Hrun. cbn [negb]. rewrite bind_eq.
  rewrite constructor_result_frame, Hthrow.
  match goal with
  | |- context [new_ZookeeperClient config ?v] =>
      destruct (constructor_frame config v) as (Hp & Hc & Hw & Hm);
      set (w2 := snd (new_ZookeeperClient config v)) in *
  end.
  cbn [promises console waiting microtasks set_promises set_trace] in Hp, Hc, Hw, Hm.
  rewrite !bind_eq. cbn [ret fst snd console_log modify].
  unfold reject. cbn [promises set_console set_trace]. rewrite Hp.
  cbn [promises set_trace].
  rewrite lookup_app_r, Nat.sub_diag by lia. cbn [lookup list_lookup fst snd].
  cbn [promises console waiting microtasks set_promises set_console].
  rewrite Hc, Hw, Hm.
  split; [reflexivity|]. split; [|auto].
  apply list_eq. intros i.
  destruct (decide (i = length (promises w))) as [->|Hne].
  - rewrite list_lookup_insert_eq by (rewrite length_app; cbn; lia).
    now rewrite lookup_app_r, Nat.sub_diag by lia.
  - rewrite list_lookup_insert_ne by auto.
    destruct (decide (i < length (promises w))).
    + now rewrite !lookup_app_l by lia.
    + rewrite !lookup_app_r by lia.
      destruct (i - length (promises w)) as [|j] eqn:E; [lia|reflexivity].
Qed.

Lemma run_zookeeper_rejects_when_the_constructor_throws_witness :
  promises (snd (run_zookeeper example_config (fresh_process [true]))) = [Rejected].
Proof.
  exact (proj1 (proj2 (run_zookeeper_rejects_when_the_constructor_throws
                         example_config (fresh_process [true])
                         (LibraryError "createClient") eq_refl eq_refl))).
Defined.

(** When the constructor returns, the promise of the entry point is never
    rejected, whatever happens afterwards. *)
Theorem run_zookeeper_does_not_reject_otherwise
    (config : ZClientConfig) (w : World) (this : ZookeeperClient)
    (script : list Step) :
  fst (new_ZookeeperClient config w) = Ok this ->
  promises (exec script (snd (run_zookeeper config w)))
    !! fst (run_zookeeper config w) <> Some Rejected.
Proof.
  intros Hok. unfold run_zookeeper.
  rewrite !bind_eq.
  cbn [get note new_promise modify fst snd is_running_zookeeper set_promises
       set_trace promises].
  set (w1 := set_promises (promises w ++ [Pending])
               (set_trace (call_run_zookeeper :: trace w) w)).
  assert (Hlen : length (promises w) < length (promises w1))
    by (unfold w1; cbn [promises set_promises]; rewrite length_app; cbn; lia).
  assert (Hpend : promises w1 !! length (promises w) = Some Pending).
  { unfold w1. cbn [promises set_promises].
    now rewrite lookup_app_r, Nat.sub_diag by lia. }
  assert (Hnot : promises w1 !! length (promises w) <> Some Rejected)
    by (intros E; unfold pid in *; congruence).
  destruct (is_running_zookeeper w); cbn [negb].
  - rewrite bind_eq. cbn [ret fst snd].
    apply (never_rejected_after w1); [exact Hlen | exact Hnot |].
    eapply good_I.
    apply (keeps_resolve _ _ _ any_item (Stable_no_new_rejection w1));
      [apply no_new_rejection_refl | exact I].
  - assert (Hok1 : fst (new_ZookeeperClient config w1) = Ok this)
      by (unfold w1; now rewrite constructor_result_frame).
    rewrite bind_eq, Hok1, !bind_eq. cbn [ret fst snd].
    apply (never_rejected_after w1); [exact Hlen | exact Hnot |].
    pose proof (no_new_rejection_constructor w1 config w1 (no_new_rejection_refl w1))
      as Hc.
    pose proof (run_keeps _ _ _ any_item (Stable_no_new_rejection w1)
                  (fun _ => I) (no_new_rejection_retry w1) this _
                  (good_I _ _ _ _ _ Hc)) as [Hr _].
    eapply good_I.
    apply (keeps_await _ _ _ any_item (Stable_no_new_rejection w1));
      [exact (good_I _ _ _ _ _ Hr) | intros ? ?; exact I].
Qed.

Lemma run_zookeeper_does_not_reject_otherwise_witness :
  promises (exec [lib_event connected; tick]
              (snd (run_zookeeper example_config (fresh_process events_fault))))
    !! fst (run_zookeeper example_config (fresh_process events_fault))
  <> Some Rejected.
Proof.
  apply (run_zookeeper_does_not_reject_otherwise example_config
           (fresh_process events_fault) example_client).
  vm_compute. reflexivity.
Defined.

(** ** The listeners of events *)

Lemma set_console_same (w : World) : set_console (console w) w = w.
Proof. now destruct w. Qed.

Lemma set_console_twice (a b : list LogRecord) (w : World) :
  set_console a (set_console b w) = set_console a w.
Proof. now destruct w. Qed.

Lemma for_each_console_log {A : Type} (r : LogRecord) (l : list A) (w : World) :
  snd (for_each (fun _ => console_log r) l w)
  = set_console (repeat r (length l) ++ console w) w.
Proof.
  revert w. induction l as [|x l IH]; intros w.
  - cbn. symmetry. apply set_console_same.
  - cbn [for_each]. rewrite bind_eq, IH.
    cbn [console_log modify fst snd console set_console length].
    assert (E : console (set_console (r :: console w) w) = r :: console w)
      by now destruct w.
    rewrite ?E, set_console_twice. f_equal.
    change (r :: console w) with ([r] ++ console w).
    rewrite app_assoc. f_equal.
    change (repeat r (S (length l))) with ([r] ++ repeat r (length l)).
    clear. induction (length l) as [|n IHn]; [reflexivity|].
    cbn [repeat app] in *. now rewrite IHn.
Qed.

(** The listeners of "disconnected" and of "error" only log, once per
    registration: no retry is started, no promise is settled, and the
    client is not reconnected. *)
Theorem disconnected_and_error_only_log (w : World) (err : string) :
  snd (emit disconnected w)
  = set_console
      (repeat (zk_log INFO (msg_text "disconnected from zookeeper") "")
         (on_disconnected (lib w)) ++ console w) w
  /\ snd (emit (error err) w)
     = set_console
         (repeat (zk_log INFO (msg_library err) "error on zookeeper")
            (on_error (lib w)) ++ console w) w.
Proof.
  split; cbn [emit]; rewrite bind_eq; cbn [get fst snd];
    rewrite for_each_console_log, length_seq; reflexivity.
Qed.

(** When none of its three calls throws, [events] adds one listener of
    each kind to those that are registered already; none is removed. *)
Theorem events_adds_listeners (this : ZookeeperClient) (w : World) :
  fst (events this w) = Ok tt ->
  on_disconnected (lib (snd (events this w))) = S (on_disconnected (lib w))
  /\ on_expired (lib (snd (events this w))) = on_expired (lib w) ++ [this]
  /\ on_error (lib (snd (events this w))) = S (on_error (lib w)).
Proof.
  destruct w as [inst o running e c t ps wt ms un ex l].
  destruct l as [cr fs oc od oe oerr rq wa].
  destruct this as [i [h|] cs us pw pa key lg upd];
    [|vm_compute; discriminate].
  destruct fs as [|[|] [|[|] [|[|] fs]]]; vm_compute;
    try discriminate; intros _; repeat split.
Qed.

Lemma events_adds_listeners_witness :
  on_expired (lib (snd (events example_client (fresh_process [])))) = [example_client].
Proof.
  exact (proj1 (proj2 (events_adds_listeners example_client (fresh_process [])
                         eq_refl))).
Defined.

Lemma on_expired_listener_retries (this : ZookeeperClient) :
  grows trace (on_expired_listener this)
    (fun _ new => 1 <= count is_call_retry new).
Proof.
  unfold on_expired_listener. pose proof (retry_starts this) as Hr.
  repeat g_step. destruct H as (later & ->).
  cbn [app]. rewrite count_app. cbn. lia.
Qed.

Lemma for_each_expired (listeners : list ZookeeperClient) :
  grows trace (for_each on_expired_listener listeners)
    (fun _ new => length listeners <= count is_call_retry new).
Proof.
  induction listeners as [|this listeners IH].
  - apply grows_ret. cbn. lia.
  - cbn [for_each].
    eapply grows_bind; [apply on_expired_listener_retries|].
    cbv beta. intros _ new1 H1.
    eapply grows_conseq; [apply IH|].
    cbv beta. intros _ new2 H2. rewrite count_app. cbn [length]. lia.
Qed.

(** When the session expires, every registered listener of "expired"
    calls [retry]: as the listeners of earlier cycles are still
    registered, one event starts at least as many retries as [events] has
    completed. *)
Theorem expired_makes_every_listener_retry (w : World) :
  exists new,
    trace (snd (emit expired w)) = new ++ trace w
    /\ length (on_expired (lib w)) <= count is_call_retry new.
Proof.
  cbn [emit]. rewrite bind_eq. cbn [get fst snd].
  apply (for_each_expired (on_expired (lib w)) w).
Qed.

(** ** A cycle in which nothing goes wrong *)

Lemma apply_entries_record (entries : list (jsstring * jsstring)) (w : World) :
  apply_entries entries w
  = set_trace (rev (map entry_item entries) ++ trace w)
      (set_env (fold_left write_entry entries (env w)) w).
Proof.
  revert w. induction entries as [|entry entries IH]; intros w.
  - now destruct w.
  - rewrite apply_entries_cons, IH. destruct w. cbn.
    now rewrite <- app_assoc.
Qed.

Lemma parse_loaded_data_ok_state (this : ZookeeperClient) (buf : list byte)
    (entries : list (jsstring * jsstring)) (w : World) :
  Forall2 (fun it entry => item_entry this it = Ok entry) (parsed_data buf) entries ->
  parse_loaded_data this (Some buf) w
  = (length (promises w),
     snd (resolve (length (promises w))
            (set_trace (rev (map entry_item entries)
                          ++ call_parse_loaded_data :: trace w)
               (set_env (fold_left write_entry entries (env w))
                  (set_promises (promises w ++ [Pending]) w))))).
Proof.
  intros F.
  pose proof (parse_loaded_data_spec this (Some buf) w) as Hspec.
  cbv zeta in Hspec. cbn [payload_outcome] in Hspec.
  rewrite (applied_entries_ok _ _ _ F) in Hspec. cbn [fst snd] in Hspec.
  rewrite Hspec, apply_entries_record. now destruct w.
Qed.

Lemma set_trace_back (w : World) :
  set_trace (trace w) (set_console (console w) (set_trace [] (set_console [] w))) = w.
Proof. now destruct w. Qed.

(** What the completion of a read with data does when the payload
    parses. *)
Lemma read_completes (this : ZookeeperClient) (buf : list byte)
    (entries : list (jsstring * jsstring)) (i : nat) (p : pid) (w : World) :
  requests (lib w) !! i = Some (this, p) ->
  Forall2 (fun it entry => item_entry this it = Ok entry) (parsed_data buf) entries ->
  step (lib_event (getData_done i None (Some buf))) w
  = snd (await (length (promises w)) (completion_after_parse p)
           (snd (resolve (length (promises w))
                   (set_trace (rev (map entry_item entries)
                                 ++ call_parse_loaded_data :: trace w)
                      (set_env (fold_left write_entry entries (env w))
                         (set_promises (promises w ++ [Pending])
                            (set_console
                               (zk_log INFO (msg_text "fetched data") ""
                                  :: console w)
                               (set_lib
                                  (set_watchers (watchers (lib w) ++ [this])
                                     (set_requests (delete i (requests (lib w)))
                                        (lib w)))
                                  w)))))))).
Proof.
  intros Hreq F. unfold step. cbn [emit].
  rewrite !bind_eq. cbn [get fst snd]. rewrite Hreq.
  rewrite !bind_eq.
  cbn [modify_lib modify completion_callback fst snd].
  rewrite !bind_eq.
  rewrite (parse_loaded_data_ok_state this buf entries _ F).
  cbn [fst snd console_log modify].
  destruct w as [inst o running e c t ps wt ms un ex l].
  destruct l as [cr fs oc od oe oerr rq wa].
  reflexivity.
Qed.

(** Forgets the body of a local definition by generalising over it, so
    that no later conversion can unfold it. *)
Ltac forget x := generalize x; clear x; intro x.

(** The state after a state [w], given up to its trace and console as
    [v], has taken the completion of a read and [ticks]. *)
Ltac settle F :=
  match goal with
  | |- context [step (lib_event (getData_done 0 None (Some ?buf))) ?w4] =>
      let E4 := fresh "E" in
      let t4 := fresh "t" in
      let c4 := fresh "c" in
      pose proof (set_trace_back w4) as E4; symmetry in E4;
      let v := eval vm_compute in (set_trace [] (set_console [] w4)) in
      replace (set_trace [] (set_console [] w4)) with v in E4
        by (vm_compute; reflexivity);
      match type of F with
      | Forall2 (fun _ _ => item_entry ?this _ = _) _ ?entries =>
          let p := eval vm_compute in
                     (match requests (lib w4) with
                      | r :: _ => snd r
                      | [] => 0
                      end) in
          rewrite (read_completes this buf entries 0 p w4
                     ltac:(vm_compute; reflexivity) F)
      end;
      set (t4 := trace w4) in *; set (c4 := console w4) in *;
      rewrite E4; clear E4; forget t4; forget c4
  end.

Lemma first_cycle_state (config : ZClientConfig) (buf : list byte)
    (entries : list (jsstring * jsstring)) :
  Forall2 (fun it entry => item_entry (object_of config) it = Ok entry)
    (parsed_data buf) entries ->
  exec (first_cycle config buf) (fresh_process [])
  = settled (object_of config) (fold_left write_entry entries ∅)
      (console (exec (first_cycle config buf) (fresh_process [])))
      (trace (exec (first_cycle config buf) (fresh_process []))) 5.
Proof.
  intros F. unfold first_cycle. cbn [exec fold_left].
  settle F.
  cbn [promises env trace console lib set_trace set_console watchers requests].
  set (m := fold_left write_entry entries _).
  set (tr := rev (map entry_item entries) ++ _). forget tr.
  set (co := _ :: c). forget co.
  match goal with
  | |- ?W = _ =>
      rewrite <- (set_trace_back W) at 1;
      set (t8 := trace W); set (c8 := console W); forget t8; forget c8
  end.
  destruct config as [cl cs us pw pa key lg upd].
  forget m. vm_compute. reflexivity.
Qed.

(** When nothing goes wrong, the promise of the entry point is fulfilled:
    in a fresh process in which no call into the library throws, once the
    library has connected and the read has completed with a payload whose
    lines all parse, every promise of the cycle is fulfilled (entry point,
    [run], [connect], [fetch_config], [parse_loaded_data]), the
    environment holds the entries of the payload, nothing is left to run,
    and the watcher of the node is armed. *)
Theorem first_cycle_resolves
    (config : ZClientConfig) (buf : list byte)
    (entries : list (jsstring * jsstring)) :
  Forall2 (fun it entry => item_entry (object_of config) it = Ok entry)
    (parsed_data buf) entries ->
  fst (run_zookeeper config (fresh_process [])) = 0
  /\ promises (exec (first_cycle config buf) (fresh_process []))
     = [Fulfilled; Fulfilled; Fulfilled; Fulfilled; Fulfilled]
  /\ env (exec (first_cycle config buf) (fresh_process []))
     = fold_left write_entry entries ∅
  /\ microtasks (exec (first_cycle config buf) (fresh_process [])) = []
  /\ waiting (exec (first_cycle config buf) (fresh_process [])) = []
  /\ unhandled (exec (first_cycle config buf) (fresh_process [])) = []
  /\ watchers (lib (exec (first_cycle config buf) (fresh_process [])))
     = [object_of config].
Proof.
  intros F. split; [vm_compute; reflexivity|].
  rewrite (first_cycle_state config buf entries F). repeat split.
Qed.

Lemma first_cycle_resolves_witness :
  promises (exec (first_cycle example_config scenario_payload) (fresh_process []))
  = [Fulfilled; Fulfilled; Fulfilled; Fulfilled; Fulfilled].
Proof.
  exact (proj1 (proj2 (first_cycle_resolves example_config scenario_payload
                         [(lit "A", lit "1"); (lit "B", lit "2")]
                         ltac:(repeat constructor)))).
Defined.

(** ** connect: when the listener cannot be registered *)

(** [connect] hands the [resolve] of its promise to the listener of
    "connected" and to nothing else. When registering the listener
    throws (the client is missing, or [once] throws), the [catch] block
    logs the error and calls [retry], and the promise of this [connect]
    stays pending whatever happens later. *)
Theorem connect_stays_pending_when_once_throws
    (this : ZookeeperClient) (w : World) (e : Exn) :
  wf w ->
  fst (lib_call this "once" (fun h => lib_once h "connected") w) = Throw e ->
  fst (connect this w) = length (promises w)
  /\ (exists later,
        console (snd (connect this w))
        = later ++ [zk_log ERROR (msg_exn e) "connect"] ++ console w)
  /\ (exists later,
        trace (snd (connect this w))
        = later ++ [call_retry]
            ++ match client this with
               | Some h => [lib_once h "connected"]
               | None => []
               end
            ++ [call_connect] ++ trace w)
  /\ forall script,
       promises (exec script (snd (connect this w))) !! length (promises w)
       = Some Pending.
Proof.
  intros Hwf Hthrow. unfold connect, connect_with.
  rewrite !bind_eq. cbn [note new_promise modify fst snd promises set_trace].
  set (w1 := set_promises (promises w ++ [Pending])
               (set_trace (call_connect :: trace w) w)).
  assert (Hd : dead [length (promises w)] w1)
    by (apply (fresh_promise_dead w); auto).
  assert (Hr : fst (lib_call this "once" (fun h => lib_once h "connected") w1)
               = Throw e)
    by (unfold w1; now rewrite lib_call_result_frame).
  rewrite Hr. cbn [ret fst snd]. rewrite !bind_eq. cbn [ret fst snd].
  destruct (lib_call_logs this "once" (fun h => lib_once h "connected") w1)
    as (Hc2 & Ht2).
  set (w2 := snd (lib_call this "once" (fun h => lib_once h "connected") w1)) in *.
  cbn [console_log modify snd].
  set (w3 := set_console _ w2).
  destruct (await_frame (fst (retry this w3)) connect_after_retry (snd (retry this w3)))
    as (Hta & _ & Hca & _).
  split; [reflexivity|]. split; [|split].
  - rewrite Hca. destruct (retry_console this w3) as (new & E & _). exists new.
    rewrite E. unfold w3. cbn [console set_console]. rewrite Hc2. reflexivity.
  - rewrite Hta. destruct (retry_starts this w3) as (new & E & later & ->).
    exists later. rewrite E, <- app_assoc. unfold w3. cbn [trace set_console].
    rewrite Ht2. reflexivity.
  - apply (never_settles [length (promises w)]); [|now left].
    pose proof (lib_call_good _ _ _ any_item (Stable_dead [length (promises w)])
                  this "once" (fun h => lib_once h "connected") w1
                  (fun _ _ => I) Hd) as H1.
    pose proof (keeps_console_log _ _ _ any_item (Stable_dead [length (promises w)])
                  (zk_log ERROR (msg_exn e) "connect") _ (good_I _ _ _ _ _ H1)) as H2.
    pose proof (retry_keeps_dead [length (promises w)] this _ (good_I _ _ _ _ _ H2))
      as [H3 _].
    eapply good_I.
    apply (keeps_await _ _ _ any_item (Stable_dead [length (promises w)]));
      [exact (good_I _ _ _ _ _ H3) | intros q Hq; discriminate Hq].
Qed.

Lemma connect_stays_pending_when_once_throws_witness :
  fst (connect example_client (fresh_process [true])) = 0
  /\ (exists later,
        console (snd (connect example_client (fresh_process [true])))
        = later ++ [zk_log ERROR (msg_exn (LibraryError "once")) "connect"])
  /\ promises (exec [lib_event connected; tick]
                 (snd (connect example_client (fresh_process [true])))) !! 0
     = Some Pending.
Proof.
  destruct (connect_stays_pending_when_once_throws example_client
              (fresh_process [true]) (LibraryError "once")
              (reachable_wf _ (ex_intro _ [true] (ex_intro _ [] eq_refl)))
              eq_refl) as (H1 & H2 & _ & H4).
  split; [exact H1|]. split; [exact H2 | exact (H4 [lib_event connected; tick])].
Defined.

(** ** fetch_config: when the read fails *)

(** When the read completes with an error, the completion callback logs
    it and calls [retry]; it returns without calling the [resolve] of the
    [fetch_config] that issued the read. If nothing else holds that
    [resolve], the promise of that [fetch_config] stays pending whatever
    happens later. *)
Theorem read_error_is_retried_and_fetch_config_stays_pending
    (i : nat) (this : ZookeeperClient) (p : pid) (err : string)
    (data : option (list byte)) (w : World) :
  requests (lib w) !! i = Some (this, p) ->
  dead [p] (set_lib (set_requests (delete i (requests (lib w))) (lib w)) w) ->
  (exists later,
     console (snd (emit (getData_done i (Some err) data) w))
     = later ++ [zk_log ERROR (msg_library err) "error event received in get data"]
         ++ console w)
  /\ (exists later,
        trace (snd (emit (getData_done i (Some err) data) w))
        = later ++ [call_retry] ++ trace w)
  /\ forall script,
       promises (exec script (snd (emit (getData_done i (Some err) data) w))) !! p
       = Some Pending.
Proof.
  intros Hreq Hd. cbn [emit]. rewrite bind_eq. cbn [get fst snd]. rewrite Hreq.
  rewrite !bind_eq. cbn [modify_lib modify ret fst snd completion_callback].
  set (w1 := set_lib (set_requests (delete i (requests (lib w))) (lib w)) w) in *.
  rewrite !bind_eq. cbn [ret fst snd console_log modify].
  set (w2 := set_console _ w1).
  split; [|split].
  - destruct (retry_console this w2) as (new & E & _). exists new.
    rewrite E. unfold w2, w1. now destruct w.
  - destruct (retry_starts this w2) as (new & E & later & ->). exists later.
    rewrite E, <- app_assoc. unfold w2, w1. now destruct w.
  - apply (never_settles [p]); [|now left].
    assert (Hd2 : dead [p] w2) by (apply (dead_same [p] w1); auto).
    exact (good_I _ _ _ _ _ (proj1 (retry_keeps_dead [p] this w2 Hd2))).
Qed.

Lemma read_error_is_retried_and_fetch_config_stays_pending_witness :
  requests (lib waiting_for_data) !! 0 = Some (example_client, 3)
  /\ promises (exec [tick; lib_event connected]
                 (snd (emit (getData_done 0 (Some "NO_NODE"%string) None)
                         waiting_for_data)))
       !! 3 = Some Pending.
Proof.
  split; [vm_compute; reflexivity|].
  assert (Hd : dead [3]
                 (set_lib
                    (set_requests (delete 0 (requests (lib waiting_for_data)))
                       (lib waiting_for_data))
                    waiting_for_data))
    by (apply deadb_sound; vm_compute; reflexivity).
  exact (proj2 (proj2 (read_error_is_retried_and_fetch_config_stays_pending
                         0 example_client 3 "NO_NODE"%string None waiting_for_data
                         ltac:(vm_compute; reflexivity) Hd))
           [tick; lib_event connected]).
Defined.

(** ** A change of the data *)

Lemma data_change_state (this : ZookeeperClient) (h : nat)
    (m : gmap jsstring jsstring) (c : list LogRecord) (t : list Item)
    (node : jsstring) (buf : list byte) (entries : list (jsstring * jsstring)) :
  client this = Some h ->
  Forall2 (fun it entry => item_entry this it = Ok entry) (parsed_data buf) entries ->
  exec (data_change node buf) (settled this m c t 5)
  = settled this (fold_left write_entry entries m)
      (console (exec (data_change node buf) (settled this m c t 5)))
      (trace (exec (data_change node buf) (settled this m c t 5))) 7.
Proof.
  intros Hc F. unfold data_change. cbn [exec fold_left].
  destruct this as [i cl cs us pw pa key lg upd]. cbn [client] in Hc. subst cl.
  settle F.
  cbn [promises env trace console lib set_trace set_console watchers requests].
  set (m' := fold_left write_entry entries _).
  set (tr := rev (map entry_item entries) ++ _). forget tr.
  set (co := _ :: c0). forget co.
  match goal with
  | |- ?W = _ =>
      rewrite <- (set_trace_back W) at 1;
      set (t8 := trace W); set (c8 := console W); forget t8; forget c8
  end.
  forget m'. vm_compute. reflexivity.
Qed.

Lemma exec_app (a b : list Step) (w : World) :
  exec (a ++ b) w = exec b (exec a w).
Proof. apply fold_left_app. Qed.

(** After a first cycle, a notification that the data of the node changed
    makes the client read again; when that read completes with a payload
    that parses, its entries are written over the environment of the first
    cycle, every promise is fulfilled, nothing is left to run, no read is
    outstanding, and the watcher is armed again. *)
Theorem data_change_reloads
    (config : ZClientConfig) (node : jsstring) (buf1 buf2 : list byte)
    (entries1 entries2 : list (jsstring * jsstring)) :
  Forall2 (fun it entry => item_entry (object_of config) it = Ok entry)
    (parsed_data buf1) entries1 ->
  Forall2 (fun it entry => item_entry (object_of config) it = Ok entry)
    (parsed_data buf2) entries2 ->
  env (exec (first_cycle config buf1 ++ data_change node buf2) (fresh_process []))
  = fold_left write_entry entries2 (fold_left write_entry entries1 ∅)
  /\ promises (exec (first_cycle config buf1 ++ data_change node buf2)
                 (fresh_process []))
     = repeat Fulfilled 7
  /\ microtasks (exec (first_cycle config buf1 ++ data_change node buf2)
                   (fresh_process [])) = []
  /\ waiting (exec (first_cycle config buf1 ++ data_change node buf2)
                (fresh_process [])) = []
  /\ requests (lib (exec (first_cycle config buf1 ++ data_change node buf2)
                      (fresh_process []))) = []
  /\ watchers (lib (exec (first_cycle config buf1 ++ data_change node buf2)
                      (fresh_process []))) = [object_of config].
Proof.
  intros F1 F2. rewrite !exec_app.
  rewrite (first_cycle_state config buf1 entries1 F1).
  rewrite (data_change_state (object_of config) 0 _ _ _ node buf2 entries2 eq_refl F2).
  repeat split.
Qed.

Lemma data_change_reloads_witness :
  env (exec (first_cycle example_config scenario_payload
               ++ data_change (lit "/config") (Buffer_from_utf8 (lit "A=3")))
         (fresh_process []))
  = fold_left write_entry [(lit "A", lit "3")]
      (fold_left write_entry [(lit "A", lit "1"); (lit "B", lit "2")] ∅).
Proof.
  exact (proj1 (data_change_reloads example_config (lit "/config")
                  scenario_payload (Buffer_from_utf8 (lit "A=3"))
                  [(lit "A", lit "1"); (lit "B", lit "2")] [(lit "A", lit "3")]
                  ltac:(repeat constructor) ltac:(repeat constructor))).
Defined.

(** ** retry: when the client cannot be closed *)

Lemma lib_call_effect (this : ZookeeperClient) (member : string)
    (item : nat -> Item) (w : World) :
  unhandled (snd (lib_call this member item w)) = unhandled w
  /\ (trace (snd (lib_call this member item w)) = trace w
      \/ exists h, client this = Some h
                   /\ trace (snd (lib_call this member item w)) = item h :: trace w).
Proof.
  unfold lib_call. destruct (client this) as [h|]; [|split; [reflexivity | now left]].
  rewrite !bind_eq. cbn [ret snd note modify].
  unfold throws. cbn [lib set_trace].
  destruct (faults (lib w)); cbn [snd unhandled trace set_lib set_trace];
    (split; [reflexivity | right; exists h; split; reflexivity]).
Qed.

(** [retry] calls [close] inside the executor of its promise. When
    [close] throws (or the client is missing), the error is raised in that
    executor, where nothing catches it: it is an unhandled rejection,
    [run] is not called, and the promise of [retry] stays pending whatever
    happens later. *)
Theorem retry_close_failure_is_unhandled
    (this : ZookeeperClient) (w : World) (e : Exn) :
  wf w ->
  fst (lib_call this "close" lib_close w) = Throw e ->
  fst (retry this w) = length (promises w)
  /\ unhandled (snd (retry this w)) = e :: unhandled w
  /\ count is_call_run (trace (snd (retry this w))) = count is_call_run (trace w)
  /\ forall script,
       promises (exec script (snd (retry this w))) !! length (promises w)
       = Some Pending.
Proof.
  intros Hwf Hthrow. unfold retry, fuel. cbn [retry_fuel]. unfold retry_with.
  rewrite !bind_eq. cbn [note new_promise modify fst snd promises set_trace].
  set (w1 := set_promises (promises w ++ [Pending])
               (set_trace (call_retry :: trace w) w)).
  assert (Hd : dead [length (promises w)] w1)
    by (apply (fresh_promise_dead w); auto).
  assert (Hr : fst (lib_call this "close" lib_close w1) = Throw e)
    by (unfold w1; now rewrite lib_call_result_frame).
  rewrite Hr. rewrite !bind_eq.
  cbn [ret fst snd unhandled_rejection modify unhandled trace set_unhandled].
  destruct (lib_call_effect this "close" lib_close w1) as (Hu & Ht).
  split; [reflexivity|]. split; [now rewrite Hu|]. split.
  - destruct Ht as [-> | (h & _ & ->)]; reflexivity.
  - apply (never_settles [length (promises w)]); [|now left].
    pose proof (lib_call_good _ _ _ any_item (Stable_dead [length (promises w)])
                  this "close" lib_close w1 (fun _ _ => I) Hd) as H1.
    apply (dead_same [length (promises w)] (snd (lib_call this "close" lib_close w1)));
      auto.
    exact (good_I _ _ _ _ _ H1).
Qed.

Lemma retry_close_failure_is_unhandled_witness :
  unhandled (snd (retry example_client (fresh_process [true])))
  = [LibraryError "close"].
Proof.
  exact (proj1 (proj2 (retry_close_failure_is_unhandled example_client
                         (fresh_process [true]) (LibraryError "close")
                         (reachable_wf _ (ex_intro _ [true] (ex_intro _ [] eq_refl)))
                         eq_refl))).
Defined.

(** ** One client for the whole process *)

(** Whatever happens in a process, every call into the library
    ([createClient], [addAuthInfo], [once], [on], [connect], [close],
    [getData]) is made on handle 0, the client the first construction got:
    the listeners of "expired", the pending reads and the watchers all
    belong to an object that holds that client, or none when
    [createClient] threw. *)
Theorem every_library_call_is_on_the_first_client
    (fs : list bool) (script : list Step) :
  Forall (on_handle 0) (trace (exec script (fresh_process fs)))
  /\ Forall own (on_expired (lib (exec script (fresh_process fs))))
  /\ Forall (fun r => own (fst r)) (requests (lib (exec script (fresh_process fs))))
  /\ Forall own (watchers (lib (exec script (fresh_process fs)))).
Proof.
  pose proof (one_handle_exec script _ (one_handle_fresh fs)) as H.
  destruct H as [_ H2 H3 H4 _ _ H7]. auto.
Qed.
